(** * CCIC processing: a shallow embedding of [ccic/processing.py] and of the
    download/process pipeline of [ccic/bin/run_validation_retrieval.py].

    Conventions of the embedding.
    - A Python float is a value of [fval]: either not-a-number or the rational
      it denotes.  Comparisons involving [NaN] are false, as in IEEE 754.
      Rounding is not modelled: the literal [0.638] is the rational 638/1000.
    - A raised Python exception is the [Raise] case of [result].
    - A [uint8] is a [Z] whose wrap-around is written out ([wrap8]). *)

From Stdlib Require Import ZArith QArith Lia List Bool.
From stdpp Require Import base option list gmap strings fin_maps.
Import ListNotations.

Local Open Scope Z_scope.

(** ** Python exceptions and results *)

Inductive pyexc :=
| ValueError
| IndexError
| KeyError
| TypeError
| OtherError (tag : nat).

Inductive result (A : Type) :=
| Ok (a : A)
| Raise (e : pyexc).
Arguments Ok {A} a.
Arguments Raise {A} e.

Definition rbind {A B} (r : result A) (k : A → result B) : result B :=
  match r with
  | Ok a => k a
  | Raise e => Raise e
  end.

#[global] Instance result_ret : MRet result := λ A, Ok.
#[global] Instance result_bind : MBind result := λ A B k r, rbind r k.

Fixpoint rmap {A B} (f : A → result B) (l : list A) : result (list B) :=
  match l with
  | [] => Ok []
  | x :: l' => y ← f x; ys ← rmap f l'; Ok (y :: ys)
  end.

(** ** Floating-point values *)

Inductive fval :=
| NaN
| Fin (q : Q).

Definition isnan (x : fval) : bool :=
  match x with NaN => true | Fin _ => false end.

(** [x < y] on floats. *)
Definition flt (x y : fval) : bool :=
  match x, y with
  | Fin a, Fin b => if Qlt_le_dec a b then true else false
  | _, _ => false
  end.

(** [x <= y] on floats. *)
Definition fle (x y : fval) : bool :=
  match x, y with
  | Fin a, Fin b => if Qlt_le_dec b a then false else true
  | _, _ => false
  end.

(** [x > y] on floats. *)
Definition fgt (x y : fval) : bool := flt y x.

Definition wrap8 (z : Z) : Z := z mod 256.

(** ** [numpy.argmax] along one fibre

    The loop of numpy's floating-point argmax: the running maximum [mp]
    starts at the first element; an element replaces it when
    [!(x <= mp)]; a not-a-number maximum ends the scan. *)

Fixpoint argmax_from (mp : fval) (max_ind i : nat) (ip : list fval) : nat :=
  match ip with
  | [] => max_ind
  | x :: ip' =>
      if isnan mp then max_ind
      else if negb (fle x mp) then argmax_from x i (S i) ip'
      else argmax_from mp max_ind (S i) ip'
  end.

Definition argmax (l : list fval) : result nat :=
  match l with
  | [] => Raise ValueError
  | x :: l' => Ok (argmax_from x 0 1 l')
  end.

(** What [numpy.argmax] returns: the index of the first not-a-number when
    there is one, and otherwise the first index of a largest value. *)
Definition np_argmax_spec (l : list fval) (i : nat) : Prop :=
  ∃ y, l !! i = Some y ∧
    (∀ j x, (j < i)%nat → l !! j = Some x → isnan x = false) ∧
    (isnan y = false →
       (∀ j x, l !! j = Some x → fle x y = true) ∧
       (∀ j x, (j < i)%nat → l !! j = Some x → flt x y = true)).

(** ** N-dimensional arrays

    A numpy array or torch tensor is its shape together with the value at
    every multi-index.  Only the values at indices inside the shape are
    meaningful. *)

Record ndarray (A : Type) := mk_ndarray {
  shape : list nat;
  elem : list nat → A
}.
Arguments mk_ndarray {A} shape elem.
Arguments shape {A} _.
Arguments elem {A} _ _.

Definition ndim {A} (a : ndarray A) : nat := length (shape a).

(** [idx] addresses an element of an array of shape [shp]. *)
Definition in_shape (shp idx : list nat) : Prop := Forall2 (λ i n, (i < n)%nat) idx shp.

Definition insert_at (axis k : nat) (idx : list nat) : list nat :=
  take axis idx ++ k :: drop axis idx.

Definition zeros (shp : list nat) : ndarray Z := mk_ndarray shp (λ _, 0).

Definition zeros_f (shp : list nat) : ndarray fval := mk_ndarray shp (λ _, Fin 0).

(** [a[..., k, ...]] with the integer [k] at position [axis]. *)
Definition index_axis {A} (a : ndarray A) (axis k : nat) : result (ndarray A) :=
  match shape a !! axis with
  | None => Raise IndexError
  | Some n =>
      if (k <? n)%nat
      then Ok (mk_ndarray (delete axis (shape a))
                          (λ idx, elem a (insert_at axis k idx)))
      else Raise IndexError
  end.

(** [a[..., k:, ...]] with the slice at position [axis]. *)
Definition slice_from {A} (a : ndarray A) (axis k : nat) : ndarray A :=
  mk_ndarray (alter (λ n, (n - k)%nat) axis (shape a))
             (λ idx, elem a (alter (λ i, (i + k)%nat) axis idx)).

(** The values along [axis] at the position [idx] of the other axes. *)
Definition fibre {A} (a : ndarray A) (axis : nat) (idx : list nat) : list A :=
  map (λ k, elem a (insert_at axis k idx))
      (seq 0 (default 0%nat (shape a !! axis))).

Definition np_argmax (a : ndarray fval) (axis : nat) : result (ndarray nat) :=
  match shape a !! axis with
  | None => Raise IndexError
  | Some O => Raise ValueError
  | Some (S _) =>
      Ok (mk_ndarray (delete axis (shape a))
            (λ idx, match fibre a axis idx with
                    | [] => 0%nat
                    | x :: l => argmax_from x 0 1 l
                    end))
  end.

Definition nd_map {A B} (f : A → B) (a : ndarray A) : ndarray B :=
  mk_ndarray (shape a) (λ idx, f (elem a idx)).

(** [types[mask] = vals[mask]] for arrays of one shape. *)
Definition assign_masked {A} (types : ndarray A) (mask : ndarray bool)
    (vals : ndarray A) : ndarray A :=
  mk_ndarray (shape types)
             (λ idx, if elem mask idx then elem vals idx else elem types idx).

(** The values of the channels after the first at the position [idx] of the
    other axes, for [K] channels along [axis]. *)
Definition class_fibre (class_probs : ndarray fval) (axis K : nat)
    (idx : list nat) : list fval :=
  map (λ k, elem class_probs (insert_at axis k idx)) (seq 1 (K - 1)).

(** ** [determine_cloud_class] *)

Definition NO_CLOUD_THRESHOLD : fval := Fin (638 # 1000).

Definition determine_cloud_class (class_probs : ndarray fval) (axis : nat)
  : result (ndarray Z) :=
  match shape class_probs !! axis with
  | None => Raise IndexError
  | Some _ =>
      let types := zeros (delete axis (shape class_probs)) in
      no_cloud ← index_axis class_probs axis 0;
      let cloud_mask := nd_map (λ p, flt p NO_CLOUD_THRESHOLD) no_cloud in
      am ← np_argmax (slice_from class_probs axis 1) axis;
      let prob_types :=
        nd_map (λ i, wrap8 (wrap8 (Z.of_nat i) + 1)) am in
      Ok (assign_masked types cloud_mask prob_types)
  end.

Definition fq (n : Z) (d : positive) : fval := Fin (n # d).

(** A one-dimensional array holding the values of [l]. *)
Definition vector (l : list fval) : ndarray fval :=
  mk_ndarray [length l] (λ idx, nth (hd 0%nat idx) l NaN).

(** The value of a result at an index, when there is a result. *)
Definition elem_of_result {A} (r : result (ndarray A)) (idx : list nat)
  : result A :=
  a ← r; Ok (elem a idx).

(** ** Boolean images

    A two-dimensional boolean array is the list of its rows.  [pix] reads a
    pixel and yields false outside the array, which is the [border_value=0]
    of the morphological operations below. *)

Definition pix (m : list (list bool)) (r c : Z) : bool :=
  if (r <? 0) || (c <? 0) then false
  else nth (Z.to_nat c) (nth (Z.to_nat r) m []) false.

Definition tabulate (h w : nat) (f : Z → Z → bool) : list (list bool) :=
  map (λ r, map (λ c, f (Z.of_nat r) (Z.of_nat c)) (seq 0 w)) (seq 0 h).

Definition nrows (m : list (list bool)) : nat := length m.
Definition ncols (m : list (list bool)) : nat := length (hd [] m).

(** The source index that [numpy.pad] with [mode="reflect"] reads for the
    position [i] relative to the start of an axis of length [n]: the axis is
    mirrored about its first and last element without repeating them; an
    axis of length one is extended by its only value. *)
Definition reflect_index (n i : Z) : Z :=
  if n =? 1 then 0
  else let p := 2 * (n - 1) in
       let m := i mod p in
       if m <? n then m else p - m.

(** [np.pad(mask, ((pad, pad), (pad, pad)), mode="reflect")] *)
Definition np_pad_reflect (mask : list (list bool)) (pad : nat)
  : result (list (list bool)) :=
  let h := nrows mask in
  let w := ncols mask in
  if ((h =? 0) || (w =? 0))%nat then Raise ValueError
  else Ok (tabulate (h + 2 * pad) (w + 2 * pad)
             (λ r c, pix mask (reflect_index (Z.of_nat h) (r - Z.of_nat pad))
                              (reflect_index (Z.of_nat w) (c - Z.of_nat pad)))).

(** One pass of dilation and of erosion with scipy's default structuring
    element, [generate_binary_structure(2, 1)]: a pixel and its four
    edge neighbours. *)
Definition cross_dilate (m : list (list bool)) : list (list bool) :=
  tabulate (nrows m) (ncols m)
    (λ r c, pix m r c || pix m (r - 1) c || pix m (r + 1) c
            || pix m r (c - 1) || pix m r (c + 1)).

Definition cross_erode (m : list (list bool)) : list (list bool) :=
  tabulate (nrows m) (ncols m)
    (λ r c, pix m r c && pix m (r - 1) c && pix m (r + 1) c
            && pix m r (c - 1) && pix m r (c + 1)).

Definition binary_dilation (m : list (list bool)) (iterations : nat) :=
  Nat.iter iterations cross_dilate m.

Definition binary_erosion (m : list (list bool)) (iterations : nat) :=
  Nat.iter iterations cross_erode m.

(** [scipy.ndimage.binary_closing(m, iterations=.., border_value=0)] *)
Definition binary_closing (m : list (list bool)) (iterations : nat) :=
  binary_erosion (binary_dilation m iterations) iterations.

(** [l[k:-k]] *)
Definition slice_both {A} (k : nat) (l : list A) : list A :=
  take (length l - 2 * k) (drop k l).

(** [m[k:-k, k:-k]] *)
Definition crop (k : nat) (m : list (list bool)) : list (list bool) :=
  map (slice_both k) (slice_both k m).

(** ** [get_invalid_mask] *)

Definition MISSING_THRESHOLD : fval := Fin (-14 # 10).

(** Whether some channel of the pixel exceeds the threshold. *)
Definition present (x_in : ndarray fval) (C ind : nat) (r c : Z) : bool :=
  existsb (λ ch, fgt (elem x_in [ind; ch; Z.to_nat r; Z.to_nat c])
                     MISSING_THRESHOLD)
          (seq 0 C).

(** [np.any(x_in[ind] > -1.4, axis=0)] for [x_in] of shape [[B; C; H; W]] *)
Definition any_present (x_in : ndarray fval) (C H W ind : nat)
  : list (list bool) :=
  tabulate H W (present x_in C ind).

Definition get_invalid_mask (x_in : ndarray fval)
  : result (list (list (list bool))) :=
  match shape x_in with
  | [] => Raise IndexError
  | [B; C; H; W] =>
      masks ← rmap (λ ind,
                 let mask := any_present x_in C H W ind in
                 mask ← np_pad_reflect mask 8;
                 Ok (crop 8 (binary_closing mask 8)))
               (seq 0 B);
      match masks with
      | [] => Raise ValueError
      | _ => Ok (map (map (map negb)) masks)
      end
  | _ => Raise ValueError
  end.

(** [invalid[ind][r, c]] *)
Definition invalid_at (invalid : list (list (list bool))) (ind : nat)
    (r c : Z) : bool :=
  pix (nth ind invalid []) r c.

(** The presence of the pixel that reflection brings to the position
    [(r, c)], given relative to the tile: inside the tile, the pixel itself. *)
Definition mirrored_present (x_in : ndarray fval) (C H W ind : nat)
    (r c : Z) : bool :=
  present x_in C ind (reflect_index (Z.of_nat H) r) (reflect_index (Z.of_nat W) c).

(** The number of steps between two pixels along the rows and columns. *)
Definition l1 (r c r' c' : Z) : Z := Z.abs (r - r') + Z.abs (c - c').

(** A one-channel, one-element batch holding [h] by [w] valid pixels, apart
    from sentinel values where [missing] holds. *)
Definition tile_with_missing (h w : nat) (missing : nat → nat → bool)
  : ndarray fval :=
  mk_ndarray [1%nat; 1%nat; h; w]
    (λ idx, match idx with
            | [_; _; r; c] => if missing r c then fq (-15) 10 else fq 0 1
            | _ => NaN
            end).

Definition in_block (r0 c0 h w : nat) (r c : nat) : bool :=
  ((r0 <=? r) && (r <? r0 + h) && (c0 <=? c) && (c <? c0 + w))%nat.

Definition count_true (m : list (list bool)) : nat :=
  length (filter (λ b, b = true) (concat m)).

(** The position [(r, c)] lies in an image of [h] rows and [w] columns. *)
Definition in_bounds (h w : nat) (r c : Z) : Prop :=
  0 ≤ r < Z.of_nat h ∧ 0 ≤ c < Z.of_nat w.

(** The padded presence mask of a batch element, closed and cropped. *)
Definition closed_presence (x_in : ndarray fval) (C H W ind : nat)
  : list (list bool) :=
  crop 8 (binary_closing
            (tabulate (H + 2 * 8) (W + 2 * 8)
               (λ r c, mirrored_present x_in C H W ind (r - 8) (c - 8))) 8).

(** Every pixel within 8 steps has a present pixel within 8 steps, among
    the pixels of the tile and of its reflected margin. *)
Definition bridged (x_in : ndarray fval) (C H W ind : nat) (r c : Z) : Prop :=
  ∀ qr qc, l1 r c qr qc ≤ 8 →
    ∃ sr sc, l1 qr qc sr sc ≤ 8 ∧
             -8 ≤ sr < Z.of_nat H + 8 ∧ -8 ≤ sc < Z.of_nat W + 8 ∧
             mirrored_present x_in C H W ind sr sc = true.

(** The number of flagged pixels of every batch element, and the flags at
    the positions [probe] of the first. *)
Definition mask_summary (x_in : ndarray fval) (probe : list (Z * Z))
  : result (list nat * list bool) :=
  invalid ← get_invalid_mask x_in;
  Ok (map count_true invalid, map (λ p, invalid_at invalid 0 p.1 p.2) probe).

(** ** Retrieval settings and targets *)

Inductive OutputFormat := NETCDF | ZARR.

Record RetrievalSettings := {
  tile_size : nat;
  overlap : nat;
  targets : option (list string);
  roi : option (list fval);
  device : string;
  precision : nat;
  output_format : OutputFormat;
  database_path : option string;
  inpainted_mask : bool;
  confidence_interval : fval
}.

(** The defaults of the dataclass. *)
Definition default_settings : RetrievalSettings := {|
  tile_size := 512;
  overlap := 128;
  targets := None;
  roi := None;
  device := "cpu";
  precision := 32;
  output_format := NETCDF;
  database_path := Some "ccic_processing.db"%string;
  inpainted_mask := false;
  confidence_interval := fq 9 10
|}.

Definition REGRESSION_TARGETS : list string := ["tiwp"; "tiwp_fpavg"; "tiwc"]%string.
Definition SCALAR_TARGETS : list string := ["tiwp"; "tiwp_fpavg"]%string.
Definition THRESHOLDS : list (string * fval) :=
  [("tiwp", fq 1 1000); ("tiwp_fpavg", fq 1 1000); ("tiwc", fq 1 1000)]%string.

(** [d[key]] on a dictionary given as a list of items. *)
Fixpoint dict_get {V} (d : list (string * V)) (key : string) : result V :=
  match d with
  | [] => Raise KeyError
  | (k, v) :: d' => if String.eqb k key then Ok v else dict_get d' key
  end.

(** [key in l] *)
Definition str_in (key : string) (l : list string) : bool :=
  existsb (String.eqb key) l.

(** Float arithmetic; not-a-number propagates. *)
Definition fsub (x y : fval) : fval :=
  match x, y with
  | Fin a, Fin b => Fin (Qred (a - b))
  | _, _ => NaN
  end.

Definition fmul (x y : fval) : fval :=
  match x, y with
  | Fin a, Fin b => Fin (Qred (a * b))
  | _, _ => NaN
  end.

Definition fadd (x y : fval) : fval :=
  match x, y with
  | Fin a, Fin b => Fin (Qred (a + b))
  | _, _ => NaN
  end.

(** ** The predictor

    The operations of the neural network model and of torch that the
    processing calls on the raw output tensor of the model for one target. *)

Class Predictor := {
  posterior_mean : ndarray fval → string → result (ndarray fval);
  posterior_quantiles : ndarray fval → list fval → string → result (ndarray fval);
  probability_larger_than : ndarray fval → fval → string → result (ndarray fval);
  softmax : ndarray fval → nat → ndarray fval
}.

(** ** Masking a tile result

    [a[ind, ..., invalid[ind]] = v]: the boolean mask [invalid[ind]] selects
    over the two trailing axes of [a[ind]]; its shape has to be theirs. *)

Definition last_two (idx : list nat) : list nat := drop (length idx - 2) idx.

Definition mask_selects (m : list (list bool)) (tl : list nat) : bool :=
  match last_two tl with
  | [r; c] => pix m (Z.of_nat r) (Z.of_nat c)
  | _ => false
  end.

Definition shape_eqb (s1 s2 : list nat) : bool :=
  bool_decide (s1 = s2).

Definition set_masked (a : ndarray fval) (invalid : list (list (list bool)))
    (ind : nat) (v : fval) : result (ndarray fval) :=
  let m := nth ind invalid [] in
  match shape a with
  | [] => Raise IndexError
  | n :: rest =>
      if (ind <? n)%nat && shape_eqb (last_two rest) [nrows m; ncols m]
      then Ok (mk_ndarray (shape a)
                 (λ idx, match idx with
                         | i :: tl =>
                             if (i =? ind)%nat && mask_selects m tl
                             then v else elem a idx
                         | [] => elem a idx
                         end))
      else Raise IndexError
  end.

(** [for ind in range(invalid.shape[0]): a[ind, ..., invalid[ind]] = v] *)
Fixpoint mask_loop (inds : list nat) (invalid : list (list (list bool)))
    (v : fval) (a : ndarray fval) : result (ndarray fval) :=
  match inds with
  | [] => Ok a
  | ind :: inds' => a' ← set_masked a invalid ind v; mask_loop inds' invalid v a'
  end.

Definition mask_invalid (a : ndarray fval) (invalid : list (list (list bool)))
    (v : fval) : result (ndarray fval) :=
  mask_loop (seq 0 (length invalid)) invalid v a.

(** Whether the loop above overwrites the element at [idx]. *)
Definition flagged (invalid : list (list (list bool))) (idx : list nat) : bool :=
  match idx with
  | i :: tl => (i <? length invalid)%nat && mask_selects (nth i invalid []) tl
  | [] => false
  end.

(** The shapes for which the loop above raises no [IndexError]. *)
Definition maskable (a : ndarray fval) (invalid : list (list (list bool)))
  : Prop :=
  ∃ n rest, shape a = n :: rest ∧ (length invalid ≤ n)%nat ∧
            Forall (λ m, last_two rest = [nrows m; ncols m]) invalid.

(** ** Tile accumulators

    [acc[target][-1].append(x)] on a dictionary of rows of tile results. *)

Definition append_last {X} (acc : gmap string (list (list X))) (target : string)
    (x : X) : result (gmap string (list (list X))) :=
  match acc !! target with
  | None => Raise KeyError
  | Some rows =>
      match last rows with
      | None => Raise IndexError
      | Some row => Ok (<[target := removelast rows ++ [row ++ [x]]]> acc)
      end
  end.

Record accumulators := {
  means : gmap string (list (list (ndarray fval)));
  conf_ints : gmap string (list (list (ndarray fval)));
  p_non_zeros : gmap string (list (list (ndarray fval)))
}.

(** ** [process_regression_target]

    The function updates the three result dictionaries in place; the
    embedding returns them.  A raised exception ends the call. *)

Section regression.
Context `{Predictor}.

Definition lower_quantile (conf : fval) : fval := fmul (fq 1 2) (fsub (fq 1 1) conf).
Definition upper_quantile (conf : fval) : fval := fsub (fq 1 1) (lower_quantile conf).

Definition process_regression_target (retrieval_settings : RetrievalSettings)
    (y_pred : gmap string (ndarray fval)) (invalid : list (list (list bool)))
    (target : string) (acc : accumulators) : result accumulators :=
  y ← match y_pred !! target with Some y => Ok y | None => Raise KeyError end;
  mean ← posterior_mean y target;
  mean ← mask_invalid mean invalid NaN;
  means' ← append_last (means acc) target mean;
  if str_in target SCALAR_TARGETS then
    let conf := confidence_interval retrieval_settings in
    let lower := lower_quantile conf in
    let upper := upper_quantile conf in
    conf_int ← posterior_quantiles y [lower; upper] target;
    conf_int ← mask_invalid conf_int invalid NaN;
    conf_ints' ← append_last (conf_ints acc) target conf_int;
    thr ← dict_get THRESHOLDS target;
    p_non_zero ← probability_larger_than y thr target;
    p_non_zero ← mask_invalid p_non_zero invalid NaN;
    p_non_zeros' ← append_last (p_non_zeros acc) target p_non_zero;
    Ok {| means := means'; conf_ints := conf_ints'; p_non_zeros := p_non_zeros' |}
  else
    Ok {| means := means'; conf_ints := conf_ints acc;
          p_non_zeros := p_non_zeros acc |}.

(** The [cloud_type] branch of the tile loop of [process_input]:
    [ct = softmax(y_pred["cloud_class"][:, 1:], 1)], appended to the
    current row and then masked with -1. *)
Definition process_cloud_type (y_pred : gmap string (ndarray fval))
    (invalid : list (list (list bool)))
    (cloud_type : list (list (ndarray fval)))
  : result (list (list (ndarray fval))) :=
  y ← match y_pred !! "cloud_class"%string with
      | Some y => Ok y | None => Raise KeyError end;
  let ct := softmax (slice_from y 1 1) 1 in
  match last cloud_type with
  | None => Raise IndexError
  | Some row =>
      ct ← mask_invalid ct invalid (fq (-1) 1);
      Ok (removelast cloud_type ++ [row ++ [ct]])
  end.
End regression.

(** A predictor whose outputs are constant arrays: a batch of one, and
    spatial extent [h] by [w]. *)
Definition constant_predictor (h w : nat) (x : fval) : Predictor := {|
  posterior_mean := λ _ _, Ok (mk_ndarray [1; h; w]%nat (λ _, x));
  posterior_quantiles := λ _ qs _,
    Ok (mk_ndarray [1; length qs; h; w]%nat (λ idx, nth (nth 1 idx 0%nat) qs NaN));
  probability_larger_than := λ _ thr _, Ok (mk_ndarray [1; h; w]%nat (λ _, thr));
  softmax := λ a _, a
|}.

(** The accumulators after [process_input] has opened a row for [target]. *)
Definition open_row (target : string) : accumulators := {|
  means := {[ target := [[]] ]};
  conf_ints := {[ target := [[]] ]};
  p_non_zeros := {[ target := [[]] ]}
|}.

(** ** Assembling the result dataset

    A dataset maps a variable name to its dimension names and its values.
    The tiler is not part of this development: [assemble] stands for
    [Tiler.assemble]. *)

Definition cloud_type_classes
    (assemble : list (list (ndarray fval)) → result (ndarray fval))
    (cloud_type : list (list (ndarray fval))) : result (ndarray Z) :=
  probs ← assemble cloud_type;
  determine_cloud_class probs 1.

(** A single tile is its own assembly. *)
Definition assemble_single (tiles : list (list (ndarray fval)))
  : result (ndarray fval) :=
  match tiles with
  | [[t]] => Ok t
  | _ => Raise ValueError
  end.

(** The model output for a tile of one pixel and one level, with three
    equally likely classes. *)
Definition cloud_class_example : ndarray fval :=
  mk_ndarray [1; 3; 1; 1; 1]%nat (λ _, fq 1 3).

(** [np.arange(n)] *)
Definition arange (n : nat) : ndarray fval :=
  mk_ndarray [n] (λ idx, Fin (inject_Z (Z.of_nat (hd 0%nat idx)))).

(** [np.arange(20) * 1e3 + 500.0] *)
Definition ALTITUDE : ndarray fval :=
  nd_map (λ x, fadd x (fq 500 1)) (nd_map (λ x, fmul x (fq 1000 1)) (arange 20)).

(** [results["altitude"] = (("altitude",), np.arange(20) * 1e3 + 500.0)] *)
Definition attach_altitude (results : gmap string (list string * ndarray fval))
  : gmap string (list string * ndarray fval) :=
  <["altitude"%string := (["altitude"%string], ALTITUDE)]> results.

(** The values of a one-dimensional array. *)
Definition values1 {A} (a : ndarray A) : list A :=
  map (λ k, elem a [k]) (seq 0 (hd 0%nat (shape a))).

(** ** The processing log

    The database file at a path either has no table yet or holds the table
    [files], keyed by the name of the input file. *)

Record row := {
  date : Z;
  success : bool;
  output_file : string;
  tiwp_min : fval;
  tiwp_max : fval;
  tiwp_mean : fval;
  n_missing : Z;
  log : list Byte.byte
}.

Inductive database :=
| NoTable
| Files (rows : gmap string row).

Inductive dberror := OperationalError | FetchTypeError.

Definition pyexc_of (e : dberror) : pyexc :=
  match e with
  | OperationalError => OtherError 1
  | FetchTypeError => TypeError
  end.

(** The handler: its fields, and whether it is attached to the logger. *)
Record ProcessingLog := {
  pl_database_path : option string;
  pl_input_file : string;
  pl_buffer : string;
  pl_attached : bool
}.

(** [sqlite3.connect(path)] creates the file when there is none. *)
Definition connect (fs : gmap string database) (path : string)
  : gmap string database * database :=
  match fs !! path with
  | Some db => (fs, db)
  | None => (<[path := NoTable]> fs, NoTable)
  end.

Definition _init_db (self : ProcessingLog) (fs : gmap string database)
  : gmap string database * result unit :=
  match pl_database_path self with
  | None => (fs, Ok ())
  | Some path =>
      match connect fs path with
      | (fs', NoTable) => (<[path := Files ∅]> fs', Ok ())
      | (fs', Files _) => (fs', Raise (pyexc_of OperationalError))
      end
  end.

Definition new_row (now : Z) : row := {|
  date := now;
  success := false;
  output_file := "";
  tiwp_min := NaN;
  tiwp_max := NaN;
  tiwp_mean := NaN;
  n_missing := -1;
  log := []
|}.

Definition _init_entry (self : ProcessingLog) (now : Z)
    (fs : gmap string database) : gmap string database * result unit :=
  match pl_database_path self with
  | None => (fs, Ok ())
  | Some path =>
      match connect fs path with
      | (fs', NoTable) => (fs', Raise (pyexc_of OperationalError))
      | (fs', Files rows) =>
          match rows !! pl_input_file self with
          | None =>
              (<[path := Files (<[pl_input_file self := new_row now]> rows)]> fs',
               Ok ())
          | Some _ => (fs', Ok ())
          end
      end
  end.

(** [ProcessingLog(database_path, input_file)] *)
Definition ProcessingLog_init (database_path : option string)
    (input_file : string) (now : Z) (fs : gmap string database)
  : gmap string database * result ProcessingLog :=
  let self := {| pl_database_path := database_path;
                 pl_input_file := input_file;
                 pl_buffer := "";
                 pl_attached := false |} in
  let '(fs1, r1) :=
    match database_path with
    | Some path =>
        match fs !! path with
        | None => _init_db self fs
        | Some _ => (fs, Ok ())
        end
    | None => (fs, Ok ())
    end in
  match r1 with
  | Raise e => (fs1, Raise e)
  | Ok _ =>
      let '(fs2, r2) := _init_entry self now fs1 in
      (fs2, _ ← r2; Ok self)
  end.

Definition emit (self : ProcessingLog) (message : string) : ProcessingLog :=
  {| pl_database_path := pl_database_path self;
     pl_input_file := pl_input_file self;
     pl_buffer := pl_buffer self +:+ message +:+ String (Ascii.ascii_of_nat 10) "";
     pl_attached := pl_attached self |}.

Definition start_logging (self : ProcessingLog) : ProcessingLog :=
  {| pl_database_path := pl_database_path self;
     pl_input_file := pl_input_file self;
     pl_buffer := "";
     pl_attached := true |}.

Definition detach (self : ProcessingLog) : ProcessingLog :=
  {| pl_database_path := pl_database_path self;
     pl_input_file := pl_input_file self;
     pl_buffer := pl_buffer self;
     pl_attached := false |}.

Definition set_log (r : row) (l : list Byte.byte) : row :=
  {| date := date r; success := success r; output_file := output_file r;
     tiwp_min := tiwp_min r; tiwp_max := tiwp_max r;
     tiwp_mean := tiwp_mean r; n_missing := n_missing r; log := l |}.

(** [finish_logging]: the handler is detached, then the stored blob is
    replaced by itself followed by the encoded buffer. *)
Definition finish_logging (self : ProcessingLog) (fs : gmap string database)
  : ProcessingLog * gmap string database * result unit :=
  let self' := detach self in
  match pl_database_path self with
  | None => (self', fs, Ok ())
  | Some path =>
      match connect fs path with
      | (fs', NoTable) => (self', fs', Raise (pyexc_of OperationalError))
      | (fs', Files rows) =>
          match rows !! pl_input_file self with
          | None => (self', fs', Raise (pyexc_of FetchTypeError))
          | Some r =>
              let blob := log r ++ String.list_byte_of_string (pl_buffer self) in
              (self',
               <[path := Files (<[pl_input_file self := set_log r blob]> rows)]> fs',
               Ok ())
          end
      end
  end.

(** The reductions of xarray that [finalize] calls on the [tiwp] variable. *)
Class XArrayOps := {
  xr_mean : ndarray fval → fval;
  xr_min : ndarray fval → fval;
  xr_max : ndarray fval → fval
}.

(** All indices of a shape, in row-major order. *)
Fixpoint all_indices (shp : list nat) : list (list nat) :=
  match shp with
  | [] => [[]]
  | n :: shp' => i ← seq 0 n; (λ tl, i :: tl) <$> all_indices shp'
  end.

(** [int(np.isnan(a).sum())] *)
Definition count_nan (a : ndarray fval) : Z :=
  Z.of_nat (length (filter (λ idx, isnan (elem a idx) = true)
                           (all_indices (shape a)))).

Definition set_outcome (r : row) (out : string) (mn mx mean : fval) (nm : Z)
  : row :=
  {| date := date r; success := true; output_file := out;
     tiwp_min := mn; tiwp_max := mx; tiwp_mean := mean; n_missing := nm;
     log := log r |}.

Section finalize.
Context `{XArrayOps}.

Definition finalize (self : ProcessingLog)
    (results : gmap string (list string * ndarray fval))
    (output_file : string) (fs : gmap string database)
  : gmap string database * result unit :=
  match pl_database_path self with
  | None => (fs, Ok ())
  | Some path =>
      let '(mean, mn, mx, nm) :=
        match results !! "tiwp"%string with
        | Some (_, tiwp) =>
            (xr_mean tiwp, xr_min tiwp, xr_max tiwp, count_nan tiwp)
        | None => (NaN, NaN, NaN, -1)
        end in
      match connect fs path with
      | (fs', NoTable) => (fs', Raise (pyexc_of OperationalError))
      | (fs', Files rows) =>
          match rows !! pl_input_file self with
          | Some r =>
              (<[path := Files (<[pl_input_file self :=
                                   set_outcome r output_file mn mx mean nm]> rows)]> fs',
               Ok ())
          | None => (fs', Ok ())
          end
      end
  end.

(** The row that [finalize] stores in place of the row [r]. *)
Definition outcome_of (r : row)
    (results : gmap string (list string * ndarray fval))
    (output_file : string) : row :=
  match results !! "tiwp"%string with
  | Some (_, tiwp) =>
      set_outcome r output_file (xr_min tiwp) (xr_max tiwp) (xr_mean tiwp)
                  (count_nan tiwp)
  | None => set_outcome r output_file NaN NaN NaN (-1)
  end.
End finalize.

(** Reductions for a dataset without values. *)
Definition null_xarray : XArrayOps :=
  {| xr_mean := λ _, NaN; xr_min := λ _, NaN; xr_max := λ _, NaN |}.

(** The row of an input file in the database at a path. *)
Definition lookup_row (fs : gmap string database) (path name : string)
  : option row :=
  match fs !! path with
  | Some (Files rows) => rows !! name
  | _ => None
  end.

(** ** Remote files

    [file_cls] is the class of the input files: its static [download] and
    its constructor.  A call of [get] is its result together with the
    calls it made, in order. *)

Inductive rf_event :=
| EvDownload (filename output_path : string)
| EvPrefetchResult
| EvOpen (output_path : string).

Class FileCls := {
  file_download : string → string → result unit;
  file_open : string → result string
}.

Record RemoteFile := {
  rf_filename : string;
  rf_working_dir : option string;
  (** the pending download and what waiting for it yields *)
  rf_prefetch_task : option (result unit)
}.

(** [Path(working_dir) / filename] *)
Definition path_join (working_dir filename : string) : string :=
  working_dir +:+ "/" +:+ filename.

Section remote_file.
Context `{FileCls}.

(** [RemoteFile(file_cls, filename, working_dir, thread_pool)]: the
    download is scheduled when both a thread pool and a working directory
    are given; [thread_pool] holds what the scheduled task will yield. *)
Definition RemoteFile_init (filename : string) (working_dir : option string)
    (thread_pool : option (result unit)) : RemoteFile :=
  {| rf_filename := filename;
     rf_working_dir := working_dir;
     rf_prefetch_task :=
       match thread_pool, working_dir with
       | Some task, Some _ => Some task
       | _, _ => None
       end |}.

Definition RemoteFile_get (self : RemoteFile) (working_dir : option string)
  : list rf_event * result string :=
  let working_dir :=
    match working_dir with
    | None => rf_working_dir self
    | Some d => Some d
    end in
  match working_dir with
  | None => ([], Raise ValueError)
  | Some d =>
      let output_path := path_join d (rf_filename self) in
      match rf_prefetch_task self with
      | Some task =>
          match task with
          | Raise e => ([EvPrefetchResult], Raise e)
          | Ok _ => ([EvPrefetchResult; EvOpen output_path],
                     file_open output_path)
          end
      | None =>
          match file_download (rf_filename self) output_path with
          | Raise e => ([EvDownload (rf_filename self) output_path], Raise e)
          | Ok _ =>
              ([EvDownload (rf_filename self) output_path; EvOpen output_path],
               file_open output_path)
          end
      end
  end.
End remote_file.

(** ** The download and processing stages

    A work item is an input descriptor with a date.  The download queue and
    the processing queue hold work items and the [None] sentinel.  What the
    input data object and the retrieval do is given by [PipelineOps], over a
    state of the outside world; every operation may raise.  Exceptions are
    instances of [Exception], which is what the handlers of both loops
    catch.

    Each stage is a machine whose control state is its position in the
    loop; one step of a stage runs it to its next queue operation.  A [get]
    on an empty queue and a [put] on a full one wait: the stage has no step
    then. *)

Class PipelineOps (InputData Date World : Type) := {
  has_data : World → InputData → Date → World * result bool;
  download_data_op : World → InputData → Date → World * result unit;
  (** sending the item to the queue of the manager process *)
  put_task : InputData → Date → result unit;
  (** evaluating the arguments of the log message, [input_data.radar] *)
  describe : InputData → result unit;
  process_day : World → Date → InputData → World * result unit
}.

Inductive download_pc {InputData Date : Type} :=
| DGet
| DPut (task : InputData * Date)
| DPutSentinel
| DDone.
Arguments download_pc : clear implicits.

Inductive process_pc := PGet | PDone.

Record pipeline {InputData Date World : Type} := {
  world : World;
  download_queue : list (option (InputData * Date));
  processing_queue : list (option (InputData * Date));
  (** everything that has been put on the processing queue so far *)
  forwarded : list (option (InputData * Date));
  dpc : download_pc InputData Date;
  ppc : process_pc;
  (** exceptions logged by the download stage *)
  dlog : list pyexc;
  (** exceptions logged by the processing stage *)
  plog : list pyexc;
  (** work items for which [process_day] returned *)
  processed : list (InputData * Date)
}.
Arguments pipeline : clear implicits.

(** [manager.Queue(4)] *)
Definition PROCESSING_QUEUE_SIZE : nat := 4.

Section pipeline.
Context {InputData Date World : Type} `{PipelineOps InputData Date World}.

#[local] Abbreviation state := (pipeline InputData Date World).

(** The state after the download stage has moved: its world, what is
    left of the download queue, its next position, what it has put on
    the processing queue and what it has logged. *)
Definition after_download (s : state) (w : World)
    (queue : list (option (InputData * Date)))
    (pc : download_pc InputData Date)
    (put : list (option (InputData * Date))) (logged : list pyexc) : state :=
  {| world := w; download_queue := queue;
     processing_queue := processing_queue s ++ put;
     forwarded := forwarded s ++ put;
     dpc := pc; ppc := ppc s;
     dlog := dlog s ++ logged; plog := plog s; processed := processed s |}.

(** The state after the processing stage has moved. *)
Definition after_process (s : state) (w : World)
    (queue : list (option (InputData * Date))) (pc : process_pc)
    (logged : list pyexc) (done : list (InputData * Date)) : state :=
  {| world := w; download_queue := download_queue s;
     processing_queue := queue;
     forwarded := forwarded s;
     dpc := dpc s; ppc := pc;
     dlog := dlog s; plog := plog s ++ logged;
     processed := processed s ++ done |}.

(** The body of the [try] of [download_data] up to the [put]. *)
Definition ensure_data (w : World) (input_data : InputData) (date : Date)
  : World * result unit :=
  let '(w1, r1) := has_data w input_data date in
  match r1 with
  | Ok false => download_data_op w1 input_data date
  | Ok true => (w1, Ok ())
  | Raise e => (w1, Raise e)
  end.

(** [download_data]: from [task = download_queue.get()] up to the next
    [put], and the [put] itself. *)
Definition download_data_step (s : state) : option state :=
  match dpc s with
  | DGet =>
      match download_queue s with
      | [] => None
      | None :: rest => Some (after_download s (world s) rest DPutSentinel [] [])
      | Some (input_data, date) :: rest =>
          match ensure_data (world s) input_data date with
          | (w, Ok _) =>
              Some (after_download s w rest (DPut (input_data, date)) [] [])
          | (w, Raise e) => Some (after_download s w rest DGet [] [e])
          end
      end
  | DPut (input_data, date) =>
      if (length (processing_queue s) <? PROCESSING_QUEUE_SIZE)%nat then
        match put_task input_data date with
        | Ok _ =>
            Some (after_download s (world s) (download_queue s) DGet
                    [Some (input_data, date)] [])
        | Raise e =>
            Some (after_download s (world s) (download_queue s) DGet [] [e])
        end
      else None
  | DPutSentinel =>
      if (length (processing_queue s) <? PROCESSING_QUEUE_SIZE)%nat then
        Some (after_download s (world s) (download_queue s) DDone [None] [])
      else None
  | DDone => None
  end.

(** The body of the [try] of [process_files]. *)
Definition retrieve (w : World) (input_data : InputData) (date : Date)
  : World * result unit :=
  match describe input_data with
  | Ok _ => process_day w date input_data
  | Raise e => (w, Raise e)
  end.

(** [process_files]: one turn of the loop. *)
Definition process_files_step (s : state) : option state :=
  match ppc s with
  | PGet =>
      match processing_queue s with
      | [] => None
      | None :: rest => Some (after_process s (world s) rest PDone [] [])
      | Some (input_data, date) :: rest =>
          match retrieve (world s) input_data date with
          | (w, Ok _) =>
              Some (after_process s w rest PGet [] [(input_data, date)])
          | (w, Raise e) => Some (after_process s w rest PGet [e] [])
          end
      end
  | PDone => None
  end.

(** The two processes run concurrently: a step of the pipeline is a step
    of either stage. *)
Inductive step (s s' : state) : Prop :=
| step_download : download_data_step s = Some s' → step s s'
| step_process : process_files_step s = Some s' → step s s'.

Inductive steps : nat → state → state → Prop :=
| steps_O s : steps 0 s s
| steps_S n s s' s'' : step s s' → steps n s' s'' → steps (S n) s s''.

(** Neither stage can move. *)
Definition stuck (s : state) : Prop :=
  download_data_step s = None ∧ process_files_step s = None.

(** [run] after the work items and the sentinel have been enqueued on
    the download queue and both processes have been started. *)
Definition started (w : World) (queue : list (option (InputData * Date)))
  : state :=
  {| world := w; download_queue := queue; processing_queue := [];
     forwarded := [];
     dpc := DGet; ppc := PGet; dlog := []; plog := []; processed := [] |}.

(** Both loops have been left and both queues are empty. *)
Definition terminated (s : state) : Prop :=
  dpc s = DDone ∧ ppc s = PDone ∧
  download_queue s = [] ∧ processing_queue s = [].

(** A schedule says which stage moves next: [true] for the download
    stage.  A stage that has to wait leaves the state as it is. *)
Fixpoint run_schedule (schedule : list bool) (s : state) : state :=
  match schedule with
  | [] => s
  | b :: schedule' =>
      let next := if b then download_data_step s else process_files_step s in
      run_schedule schedule' (default s next)
  end.

(** The download stage moves whenever it can, the processing stage
    otherwise, for at most [fuel] steps. *)
Fixpoint run_eager (fuel : nat) (s : state) : state :=
  match fuel with
  | O => s
  | S fuel' =>
      match download_data_step s with
      | Some s' => run_eager fuel' s'
      | None =>
          match process_files_step s with
          | Some s' => run_eager fuel' s'
          | None => s
          end
      end
  end.

(** *** Notions for the proofs *)

Definition items_of (queue : list (option (InputData * Date)))
  : list (InputData * Date) := omap id queue.

Definition dpc_weight (pc : download_pc InputData Date) : nat :=
  match pc with
  | DGet | DDone => 0
  | DPut _ | DPutSentinel => 3
  end.

(** Every step lowers the measure. *)
Definition measure (s : state) : nat :=
  4 * length (download_queue s) + dpc_weight (dpc s)
  + 2 * length (processing_queue s).

(** The work item the download stage holds. *)
Definition held (pc : download_pc InputData Date) : nat :=
  match pc with DPut _ => 1 | _ => 0 end.

(** What holds of every state of a run over [n] work items followed by the
    sentinel. *)
Record pipeline_inv (n : nat) (s : state) : Prop := {
  inv_download_queue :
    match dpc s with
    | DGet | DPut _ =>
        download_queue s = map Some (items_of (download_queue s)) ++ [None]
    | DPutSentinel | DDone => download_queue s = []
    end;
  inv_forwarded :
    forwarded s = map Some (items_of (forwarded s))
                  ++ (match dpc s with DDone => [None] | _ => [] end);
  inv_download_count :
    (length (items_of (forwarded s)) + length (dlog s) + held (dpc s)
     + length (items_of (download_queue s)) = n)%nat;
  inv_processing_queue :
    match ppc s with
    | PGet =>
        ∃ taken,
          forwarded s = map Some taken ++ processing_queue s ∧
          (length (processed s) + length (plog s) = length taken)%nat
    | PDone =>
        processing_queue s = [] ∧ dpc s = DDone ∧
        (length (processed s) + length (plog s)
         = length (items_of (forwarded s)))%nat
    end
}.
End pipeline.

(** An environment for three dates, in which the data of date 1 cannot be
    downloaded and the retrieval of date 2 fails. *)
Definition example_ops : PipelineOps unit nat (list nat) := {|
  has_data := λ w _ d, (w, Ok (bool_decide (d ∈ w)));
  download_data_op := λ w _ d,
    if (d =? 1)%nat then (w, Raise (OtherError 404)) else (d :: w, Ok ());
  put_task := λ _ _, Ok ();
  describe := λ _, Ok ();
  process_day := λ w d _,
    if (d =? 2)%nat then (w, Raise ValueError) else (w, Ok ())
|}.

Definition example_items : list (unit * nat) :=
  [((), 1%nat); ((), 2%nat); ((), 3%nat)].

(** ** The logging context

    [with handler.log(logger): body]: [LogContext.__enter__] starts the
    capture, the records logged by the body reach [emit], and
    [LogContext.__exit__] finishes the capture whether or not the body
    raised.  The body is given by the messages it logs and by its result;
    an exception of [finish_logging] replaces that of the body. *)
Definition log_context {A} (self : ProcessingLog)
    (body : list string * result A) (fs : gmap string database)
  : ProcessingLog * gmap string database * result A :=
  let self1 := start_logging self in
  let self2 := foldl emit self1 body.1 in
  let '(self3, fs', r) := finish_logging self2 fs in
  (self3, fs', match r with
               | Raise e => Raise e
               | Ok _ => body.2
               end).

(** The text that [emit] writes for a list of messages. *)
Definition lines (messages : list string) : string :=
  foldr (λ m acc, m +:+ String (Ascii.ascii_of_nat 10) "" +:+ acc) ""%string
        messages.


(** ** Finding the input files

    [input_cls] is the class of the input files: besides what [RemoteFile]
    uses of it, the two look-ups of file names.  The task that a thread
    pool runs for a remote file is the download of the file to the working
    directory. *)

Class InputCls := {
  get_available_files : Z → Z → result (list string);
  find_files : string → Z → Z → result (list string)
}.

Inductive input_file :=
| Remote (file : RemoteFile)
| Local (file : string).

Section get_input_files.
Context `{FileCls} `{InputCls}.

(** [RemoteFile(input_cls, filename, working_dir, thread_pool=thread_pool)]
    for a thread pool that is given or not. *)
Definition RemoteFile_new (filename : string) (working_dir : option string)
    (thread_pool : bool) : RemoteFile :=
  RemoteFile_init filename working_dir
    (if thread_pool
     then (λ d, file_download filename (path_join d filename)) <$> working_dir
     else None).

Definition get_input_files (start_time : Z) (end_time : option Z)
    (path : option string) (thread_pool : bool) (working_dir : option string)
  : result (list input_file) :=
  let end_time :=
    match end_time with
    | None => start_time
    | Some t => t
    end in
  match path with
  | None =>
      files ← get_available_files start_time end_time;
      Ok (map (λ filename, Remote (RemoteFile_new filename working_dir thread_pool))
              files)
  | Some path =>
      files ← find_files path start_time end_time;
      rmap (λ filename, file ← file_open filename; Ok (Local file)) files
  end.
End get_input_files.

Definition is_download (ev : rf_event) : bool :=
  match ev with EvDownload _ _ => true | _ => false end.

Definition is_remote (f : input_file) : bool :=
  match f with Remote _ => true | Local _ => false end.

(** A file class whose downloads fail for the file [missing.nc]. *)
Definition example_file_cls : FileCls := {|
  file_download := λ filename _,
    if String.eqb filename "missing.nc" then Raise (OtherError 404) else Ok ();
  file_open := λ output_path, Ok output_path
|}.

Definition example_input_cls : InputCls := {|
  get_available_files := λ _ _, Ok ["a.nc"; "b.nc"]%string;
  find_files := λ _ _ _, Ok ["a.nc"]%string
|}.

(** ** The run

    [run] turns the day numbers into dates, puts one work item for each
    date on the download queue and starts both processes.  It puts no
    sentinel on the queue. *)

(** [days], or every day number of the month when none is given;
    [n_days] is the length of the month, from [monthrange]. *)
Definition run_days (n_days : nat) (days : list Z) : list Z :=
  if (length days =? 0)%nat then map Z.of_nat (seq 1 n_days) else days.

(** [dates], in seconds; [start] is the first instant of the month. *)
Definition run_dates (start : Z) (n_days : nat) (days : list Z) : list Z :=
  map (λ day, start + 24 * 60 * 60 * day) (run_days n_days days).

Section run.
Context {InputData Date World : Type} `{PipelineOps InputData Date World}.

(** The pipeline when both processes have been started. *)
Definition run_started (w : World) (input_data : InputData)
    (dates : list Date) : pipeline InputData Date World :=
  started w (map (λ date, Some (input_data, date)) dates).

(** The work item that the download stage holds between its [get] and
    its [put]. *)
Definition held_items (pc : download_pc InputData Date)
  : list (InputData * Date) :=
  match pc with
  | DPut task => [task]
  | _ => []
  end.

(** What holds of every state of a run over [n] work items without a
    sentinel. *)
Record run_inv (n : nat) (s : pipeline InputData Date World) : Prop := {
  run_download_queue : Forall is_Some (download_queue s);
  run_processing_queue : Forall is_Some (processing_queue s);
  run_dpc : dpc s = DGet ∨ ∃ task, dpc s = DPut task;
  run_ppc : ppc s = PGet;
  run_count :
    (length (download_queue s) + length (held_items (dpc s)) + length (dlog s)
     + length (processing_queue s) + length (processed s) + length (plog s)
     = n)%nat
}.

(** What holds of every state of a run from the download queue [queue]:
    the work items keep their order on the way through both stages. *)
Record order_inv (items : list (InputData * Date))
    (s : pipeline InputData Date World) : Prop := {
  order_download :
    sublist (items_of (forwarded s) ++ held_items (dpc s)
             ++ items_of (download_queue s)) items;
  order_process :
    ∃ consumed, forwarded s = consumed ++ processing_queue s ∧
                sublist (processed s) (items_of consumed)
}.
End run.

(** ** Output file names

    What [get_output_filename] asks of the input file is its class.  The
    time stamp is a date and time of the calendar; [strftime] writes the
    year with four digits and the other fields with two.  *)

Inductive input_class := CPCIR | GridSat | OtherInput.

Record datetime := {
  dt_year : Z;
  dt_month : Z;
  dt_day : Z;
  dt_hour : Z;
  dt_minute : Z;
  dt_second : Z
}.

(** The fields are in the ranges of [datetime], with a year of four
    digits. *)
Definition valid_datetime (t : datetime) : Prop :=
  1000 ≤ dt_year t ≤ 9999 ∧ 1 ≤ dt_month t ≤ 12 ∧ 1 ≤ dt_day t ≤ 31 ∧
  0 ≤ dt_hour t ≤ 23 ∧ 0 ≤ dt_minute t ≤ 59 ∧ 0 ≤ dt_second t ≤ 59.

(** The decimal digit of the units of [n]. *)
Definition digit (n : Z) : Ascii.ascii :=
  Ascii.ascii_of_nat (48 + Z.to_nat (n mod 10)).

(** [n] in decimal, padded with zeros to [width] digits, for
    [0 ≤ n < 10 ^ width]. *)
Fixpoint zfill (width : nat) (n : Z) : string :=
  match width with
  | O => ""
  | S width' => zfill width' (n / 10) +:+ String (digit n) ""
  end.

(** [t.strftime("%Y%m%d%H%M")] *)
Definition strftime_YmdHM (t : datetime) : string :=
  zfill 4 (dt_year t) +:+ zfill 2 (dt_month t) +:+ zfill 2 (dt_day t)
  +:+ zfill 2 (dt_hour t) +:+ zfill 2 (dt_minute t).

Definition get_output_filename (input_file : input_class) (t : datetime)
    (retrieval_settings : RetrievalSettings) : result string :=
  file_type ← match input_file with
              | CPCIR => Ok "cpcir"%string
              | GridSat => Ok "gridsat"%string
              | OtherInput => Raise ValueError
              end;
  let date_str := strftime_YmdHM t in
  let suffix := match output_format retrieval_settings with
                | NETCDF => "nc"%string
                | ZARR => "zarr"%string
                end in
  Ok ("ccic_" +:+ file_type +:+ "_" +:+ date_str +:+ "." +:+ suffix).

(** 2020-01-02 03:04:05 *)
Definition example_datetime : datetime :=
  {| dt_year := 2020; dt_month := 1; dt_day := 2; dt_hour := 3;
     dt_minute := 4; dt_second := 5 |}.

(** ** Output encodings

    An encoding is a dictionary with some of the keys [compressor],
    [filters], [dtype], [scale_factor], [_FillValue] and [zlib]. *)

(** [zarr.Blosc(cname, clevel, shuffle)] *)
Record Blosc := {
  cname : string;
  clevel : Z;
  shuffle : Z
}.

(** [LogBins(lower, upper)] *)
Record LogBins := {
  lb_lower : Q;
  lb_upper : Q
}.

Record encoding := {
  enc_compressor : option Blosc;
  enc_filters : option (list LogBins);
  enc_dtype : string;
  enc_scale_factor : option Q;
  enc_FillValue : option Z;
  enc_zlib : option bool
}.

(** [{name: all_encodings[name] for name in variable_names
      if name in all_encodings}] *)
Definition select_encodings (all_encodings : gmap string encoding)
    (variable_names : list string) : gmap string encoding :=
  foldl (λ acc name,
           match all_encodings !! name with
           | Some enc => <[name := enc]> acc
           | None => acc
           end) ∅ variable_names.

Definition get_encodings_zarr (variable_names : list string)
  : gmap string encoding :=
  let compressor := {| cname := "lz4"; clevel := 9; shuffle := 2 |} in
  let filters_iwp := [{| lb_lower := 1 # 1000; lb_upper := 100 |}] in
  let filters_iwc := [{| lb_lower := 1 # 10000; lb_upper := 100 |}] in
  let float32 filters :=
    {| enc_compressor := Some compressor; enc_filters := Some filters;
       enc_dtype := "float32"; enc_scale_factor := None;
       enc_FillValue := None; enc_zlib := None |} in
  let scaled :=
    {| enc_compressor := Some compressor; enc_filters := None;
       enc_dtype := "uint8"; enc_scale_factor := Some (1 # 250);
       enc_FillValue := Some 255; enc_zlib := None |} in
  let flag :=
    {| enc_compressor := Some compressor; enc_filters := None;
       enc_dtype := "uint8"; enc_scale_factor := None;
       enc_FillValue := Some 255; enc_zlib := None |} in
  let coordinate :=
    {| enc_compressor := Some compressor; enc_filters := None;
       enc_dtype := "float32"; enc_scale_factor := None;
       enc_FillValue := None; enc_zlib := None |} in
  let all_encodings : gmap string encoding :=
    list_to_map
      [("tiwp", float32 filters_iwp);
       ("tiwc", float32 filters_iwc);
       ("p_tiwp", scaled);
       ("tiwp_ci", float32 filters_iwp);
       ("tiwp_fpavg", float32 filters_iwp);
       ("p_tiwp_fpavg", scaled);
       ("tiwp_fpavg_ci", float32 filters_iwp);
       ("cloud_prob_2d", scaled);
       ("cloud_prob_3d", scaled);
       ("cloud_type", flag);
       ("longitude", coordinate);
       ("latitude", coordinate);
       ("inpainted", flag)]%string in
  select_encodings all_encodings variable_names.

Definition get_encodings_netcdf (variable_names : list string)
  : gmap string encoding :=
  let float32 :=
    {| enc_compressor := None; enc_filters := None;
       enc_dtype := "float32"; enc_scale_factor := None;
       enc_FillValue := None; enc_zlib := Some true |} in
  let scaled :=
    {| enc_compressor := None; enc_filters := None;
       enc_dtype := "uint8"; enc_scale_factor := Some (1 # 250);
       enc_FillValue := Some 255; enc_zlib := Some true |} in
  let flag :=
    {| enc_compressor := None; enc_filters := None;
       enc_dtype := "uint8"; enc_scale_factor := None;
       enc_FillValue := None; enc_zlib := Some true |} in
  let all_encodings : gmap string encoding :=
    list_to_map
      [("tiwp", float32);
       ("tiwc", float32);
       ("p_tiwp", scaled);
       ("tiwp_ci", float32);
       ("tiwp_fpavg", float32);
       ("tiwp_fpavg_ci", float32);
       ("p_tiwp_fpavg", scaled);
       ("cloud_prob_2d", scaled);
       ("cloud_prob_3d", scaled);
       ("cloud_type", flag);
       ("longitude", float32);
       ("latitude", float32);
       ("inpainted", flag)]%string in
  select_encodings all_encodings variable_names.

Definition get_encodings (variable_names : list string)
    (retrieval_settings : RetrievalSettings) : gmap string encoding :=
  match output_format retrieval_settings with
  | ZARR => get_encodings_zarr variable_names
  | NETCDF => get_encodings_netcdf variable_names
  end.

(** * Properties *)

Example determine_cloud_class_no_cloud :
  elem_of_result
    (determine_cloud_class (vector [fq 7 10; fq 1 10; fq 2 10]) 0) [] = Ok 0.
Proof. reflexivity. Qed.

Example determine_cloud_class_cloud :
  elem_of_result
    (determine_cloud_class (vector [fq 2 10; fq 5 10; fq 3 10]) 0) [] = Ok 1.
Proof. reflexivity. Qed.

(** ** Floating-point comparisons *)

Lemma fle_true_fin x y : fle x y = true → ∃ a b, x = Fin a ∧ y = Fin b ∧ (a <= b)%Q.
Proof.
  destruct x as [|a], y as [|b]; simpl; try discriminate.
  destruct (Qlt_le_dec b a); [discriminate|]. eauto.
Qed.

Lemma fle_false_fin a b : fle (Fin a) (Fin b) = false → (b < a)%Q.
Proof. simpl. destruct (Qlt_le_dec b a); [done|discriminate]. Qed.

Lemma fle_fin a b : (a <= b)%Q → fle (Fin a) (Fin b) = true.
Proof.
  intros H. simpl. destruct (Qlt_le_dec b a) as [Hlt|]; [|done].
  exfalso. apply (Qlt_not_le _ _ Hlt H).
Qed.

Lemma flt_fin a b : (a < b)%Q → flt (Fin a) (Fin b) = true.
Proof.
  intros H. simpl. destruct (Qlt_le_dec a b) as [|Hle]; [done|].
  exfalso. apply (Qlt_not_le _ _ H Hle).
Qed.

(** ** What [numpy.argmax] returns *)

Lemma argmax_from_spec ip : ∀ pre mp max_ind,
  pre !! max_ind = Some mp →
  (∀ j x, (j < max_ind)%nat → pre !! j = Some x → isnan x = false) →
  (isnan mp = false →
     (∀ j x, pre !! j = Some x → fle x mp = true) ∧
     (∀ j x, (j < max_ind)%nat → pre !! j = Some x → flt x mp = true)) →
  np_argmax_spec (pre ++ ip) (argmax_from mp max_ind (length pre) ip).
Proof.
  induction ip as [|x ip IH]; intros pre mp max_ind Hmp Hnan Hmax; simpl.
  - rewrite app_nil_r. exists mp. auto.
  - destruct (isnan mp) eqn:Emp.
    + exists mp. split; [by apply lookup_app_l_Some|].
      split; [|intros ?; congruence].
      intros j z Hj Hz. apply (Hnan j z Hj).
      rewrite lookup_app_l in Hz; [done|].
      apply lookup_lt_Some in Hmp. lia.
    + destruct (Hmax eq_refl) as [Hle Hlt].
      assert (Hpre : pre ++ x :: ip = (pre ++ [x]) ++ ip) by by rewrite <- app_assoc.
      assert (Hlen : S (length pre) = length (pre ++ [x]))
        by (rewrite length_app; simpl; lia).
      destruct (fle x mp) eqn:Ex; simpl; rewrite Hpre, Hlen.
      * apply IH.
        -- by apply lookup_app_l_Some.
        -- intros j z Hj Hz. apply (Hnan j z Hj).
           rewrite lookup_app_l in Hz; [done|].
           apply lookup_lt_Some in Hmp. lia.
        -- intros _. split.
           ++ intros j z Hz. apply lookup_app_Some in Hz as [Hz|[_ Hz]]; [eauto|].
              apply list_lookup_singleton_Some in Hz as [_ <-]. done.
           ++ intros j z Hj Hz. apply (Hlt j z Hj).
              rewrite lookup_app_l in Hz; [done|].
              apply lookup_lt_Some in Hmp. lia.
      * assert (Hfin : ∀ j z, pre !! j = Some z →
                  ∃ a b, z = Fin a ∧ mp = Fin b ∧ (a <= b)%Q).
        { intros j z Hz. apply fle_true_fin. eauto. }
        apply IH.
        -- rewrite lookup_app_r by lia. by rewrite Nat.sub_diag.
        -- intros j z Hj Hz. rewrite lookup_app_l in Hz by done.
           destruct (Hfin j z Hz) as (a & b & -> & _). done.
        -- intros Hx. destruct x as [|qx]; [done|].
           assert (Hall : ∀ j z, pre !! j = Some z → flt z (Fin qx) = true).
           { intros j z Hz. destruct (Hfin j z Hz) as (a & b & -> & -> & Hab).
             apply fle_false_fin in Ex. apply flt_fin.
             eapply Qle_lt_trans; eauto. }
           split.
           ++ intros j z Hz. apply lookup_app_Some in Hz as [Hz|[_ Hz]].
              ** specialize (Hall j z Hz). destruct z as [|a]; [done|].
                 simpl in Hall. destruct (Qlt_le_dec a qx); [|done].
                 apply fle_fin. by apply Qlt_le_weak.
              ** apply list_lookup_singleton_Some in Hz as [_ <-].
                 apply fle_fin. apply Qle_refl.
           ++ intros j z Hj Hz. rewrite lookup_app_l in Hz by done. eauto.
Qed.

Lemma argmax_spec l i : argmax l = Ok i → np_argmax_spec l i.
Proof.
  destruct l as [|x l]; [done|]. intros [= <-].
  apply (argmax_from_spec l [x] x 0%nat).
  - done.
  - intros; lia.
  - intros Hx. split; [|intros; lia].
    intros [|j] z Hz; [|done]. injection Hz as <-.
    destruct x; [done|]. apply fle_fin, Qle_refl.
Qed.

(** ** The class-selection rule *)

Lemma alter_insert_at (axis j k : nat) (idx : list nat) :
  (axis ≤ length idx)%nat →
  alter (λ i, (i + k)%nat) axis (insert_at axis j idx) = insert_at axis (j + k) idx.
Proof.
  intros Hle. unfold insert_at.
  assert (Hlen : length (take axis idx) = axis) by (rewrite length_take; lia).
  rewrite alter_app_r_alt by lia.
  by rewrite Hlen, Nat.sub_diag.
Qed.

Lemma in_shape_length shp idx : in_shape shp idx → length idx = length shp.
Proof. apply Forall2_length. Qed.

Lemma fibre_slice_from (a : ndarray fval) (axis K : nat) (idx : list nat) :
  shape a !! axis = Some K →
  (axis ≤ length idx)%nat →
  fibre (slice_from a axis 1) axis idx =
  map (λ k, elem a (insert_at axis k idx)) (seq 1 (K - 1)).
Proof.
  intros HK Hle. unfold fibre, slice_from; simpl.
  rewrite list_lookup_alter_eq, HK; simpl.
  rewrite <- (fmap_S_seq 0), <- list_fmap_compose.
  apply list_fmap_ext. intros _ k _; simpl.
  rewrite alter_insert_at by done. by rewrite Nat.add_1_r.
Qed.

(** What [determine_cloud_class] computes at an element, before any bound
    on the number of channels. *)
Lemma determine_cloud_class_elem (class_probs : ndarray fval) (axis K : nat) :
  shape class_probs !! axis = Some K →
  (2 ≤ K)%nat →
  ∃ types,
    determine_cloud_class class_probs axis = Ok types ∧
    shape types = delete axis (shape class_probs) ∧
    ∀ idx, in_shape (shape types) idx →
      ∃ i, argmax (class_fibre class_probs axis K idx) = Ok i ∧
           elem types idx =
             if flt (elem class_probs (insert_at axis 0 idx)) NO_CLOUD_THRESHOLD
             then wrap8 (wrap8 (Z.of_nat i) + 1) else 0.
Proof.
  intros HK HK2.
  unfold determine_cloud_class, index_axis, np_argmax. rewrite HK.
  assert (H0 : (0 <? K)%nat = true) by (apply Nat.ltb_lt; lia).
  rewrite H0; simpl.
  rewrite list_lookup_alter_eq, HK; simpl.
  destruct (K - 1)%nat as [|k'] eqn:EK; [lia|]; simpl.
  eexists. split; [reflexivity|]. split; [reflexivity|].
  intros idx Hidx; simpl in *.
  assert (Hax : (axis ≤ length idx)%nat).
  { apply in_shape_length in Hidx. rewrite Hidx, length_delete.
    apply lookup_lt_Some in HK. lia. by eexists. }
  rewrite (fibre_slice_from class_probs axis K idx HK Hax).
  fold (class_fibre class_probs axis K idx).
  assert (Hlen : length (class_fibre class_probs axis K idx) = S k').
  { unfold class_fibre. rewrite length_map, length_seq. done. }
  destruct (class_fibre class_probs axis K idx) as [|x l] eqn:El; [done|].
  exists (argmax_from x 0 1 l). split; [done|].
  by destruct (flt _ _).
Qed.

Lemma class_fibre_length class_probs axis K idx :
  length (class_fibre class_probs axis K idx) = (K - 1)%nat.
Proof. unfold class_fibre. by rewrite length_map, length_seq. Qed.

(** C1, as amended: on an array whose class axis has between 2 and 256
    channels, [determine_cloud_class] returns at each element [1 + argmax]
    over the channels after the first when the no-cloud probability is
    below 0.638, and 0 otherwise; [[0.7, 0.1, 0.2]] is mapped to 0 and
    [[0.2, 0.5, 0.3]] to 1. *)
Theorem determine_cloud_class_rule (class_probs : ndarray fval) (axis K : nat) :
  shape class_probs !! axis = Some K →
  (2 ≤ K ≤ 256)%nat →
  (∃ types,
     determine_cloud_class class_probs axis = Ok types ∧
     shape types = delete axis (shape class_probs) ∧
     ∀ idx, in_shape (shape types) idx →
       ∃ i, argmax (class_fibre class_probs axis K idx) = Ok i ∧
            np_argmax_spec (class_fibre class_probs axis K idx) i ∧
            elem types idx =
              if flt (elem class_probs (insert_at axis 0 idx)) NO_CLOUD_THRESHOLD
              then 1 + Z.of_nat i else 0) ∧
  elem_of_result
    (determine_cloud_class (vector [fq 7 10; fq 1 10; fq 2 10]) 0) [] = Ok 0 ∧
  elem_of_result
    (determine_cloud_class (vector [fq 2 10; fq 5 10; fq 3 10]) 0) [] = Ok 1.
Proof.
  intros HK [HK2 HK256]. split; [|split; reflexivity].
  destruct (determine_cloud_class_elem class_probs axis K HK HK2)
    as (types & Hok & Hshape & Helem).
  exists types. split; [done|]. split; [done|].
  intros idx Hidx. destruct (Helem idx Hidx) as (i & Hi & Hty).
  exists i. split; [done|].
  assert (Hspec := argmax_spec _ _ Hi). split; [done|].
  rewrite Hty. destruct (flt _ _); [|done].
  destruct Hspec as (y & Hy & _). apply lookup_lt_Some in Hy.
  rewrite class_fibre_length in Hy. unfold wrap8.
  rewrite (Z.mod_small (Z.of_nat _)) by lia.
  rewrite Z.mod_small by lia. lia.
Qed.

Lemma determine_cloud_class_rule_witness :
  ∃ types,
    determine_cloud_class (vector [fq 2 10; fq 5 10; fq 3 10]) 0 = Ok types ∧
    elem types [] = 1.
Proof.
  destruct (determine_cloud_class_rule
              (vector [fq 2 10; fq 5 10; fq 3 10]) 0 3 eq_refl
              ltac:(lia))
    as [(types & Hok & _ & _) _].
  exists types. split; [exact Hok|].
  vm_compute in Hok. injection Hok as <-. reflexivity.
Defined.

(** C1, as stated, fails on its own example: [[0.2, 0.5, 0.3]] is not
    mapped to class 2. *)
Lemma determine_cloud_class_example_not_2 :
  elem_of_result
    (determine_cloud_class (vector [fq 2 10; fq 5 10; fq 3 10]) 0) [] ≠ Ok 2.
Proof. vm_compute. discriminate. Qed.

(** ** The vertical coordinate *)

(** C6, as amended: whatever the targets, the result dataset carries the
    variable [altitude] over the dimension [altitude], with 20 levels, the
    first at 500 m and each 1000 m above the one before. *)
Theorem attach_altitude_levels (results : gmap string (list string * ndarray fval)) :
  attach_altitude results !! "altitude"%string = Some (["altitude"%string], ALTITUDE) ∧
  shape ALTITUDE = [20%nat] ∧
  values1 ALTITUDE = map (λ k, fq (500 + 1000 * Z.of_nat k) 1) (seq 0 20).
Proof.
  split; [apply lookup_insert_eq|]. split; reflexivity.
Qed.

(** C6, as stated, fails: the levels are not 500 m apart. *)
Lemma altitude_spacing_not_500 :
  values1 ALTITUDE ≠ map (λ k, fq (500 + 500 * Z.of_nat k) 1) (seq 0 20).
Proof. vm_compute. discriminate. Qed.

(** ** Remote files *)

(** C9: without a working directory, neither from the constructor nor from
    the call, [get] raises [ValueError] at once: it neither waits for a
    prefetch nor downloads nor opens a file. *)
Theorem RemoteFile_get_no_working_dir `{FileCls} (filename : string)
    (thread_pool : option (result unit)) :
  RemoteFile_get (RemoteFile_init filename None thread_pool) None
  = ([], Raise ValueError).
Proof. by destruct thread_pool. Qed.

(** ** The processing log without a database *)

(** C8: a handler constructed with [database_path = None] is constructed
    without error and without touching any database, and each of its
    operations returns normally and leaves every database as it is. *)
Theorem ProcessingLog_without_database `{XArrayOps} (input_file : string)
    (now : Z) (fs : gmap string database) :
  ∃ self,
    ProcessingLog_init None input_file now fs = (fs, Ok self) ∧
    pl_database_path self = None ∧
    ∀ self' : ProcessingLog, pl_database_path self' = None →
      _init_db self' fs = (fs, Ok ()) ∧
      _init_entry self' now fs = (fs, Ok ()) ∧
      finish_logging self' fs = (detach self', fs, Ok ()) ∧
      (∀ results output_file, finalize self' results output_file fs = (fs, Ok ())) ∧
      pl_database_path (start_logging self') = None ∧
      (∀ message, pl_database_path (emit self' message) = None) ∧
      pl_database_path (detach self') = None.
Proof.
  eexists. split; [reflexivity|]. split; [reflexivity|].
  intros self' Hnone.
  unfold _init_db, _init_entry, finish_logging, finalize.
  rewrite Hnone. done.
Qed.

Lemma ProcessingLog_without_database_witness :
  finish_logging
    (emit (start_logging {| pl_database_path := None; pl_input_file := "a.nc";
                            pl_buffer := ""; pl_attached := false |}) "done") ∅
  = ({| pl_database_path := None; pl_input_file := "a.nc";
        pl_buffer := "done" +:+ String (Ascii.ascii_of_nat 10) "";
        pl_attached := false |}, ∅, Ok ()).
Proof.
  destruct (ProcessingLog_without_database
              (H := null_xarray)
              "a.nc" 0 ∅) as (self & _ & _ & Hops).
  destruct (Hops (emit (start_logging {| pl_database_path := None;
                                         pl_input_file := "a.nc";
                                         pl_buffer := "";
                                         pl_attached := false |}) "done")
                 eq_refl) as (_ & _ & Hfin & _).
  exact Hfin.
Defined.

(** ** The processing log with a database *)

Section processing_log.
Context `{XArrayOps}.

Lemma lookup_row_Some fs path name r :
  lookup_row fs path name = Some r →
  ∃ rows, fs !! path = Some (Files rows) ∧ rows !! name = Some r.
Proof.
  unfold lookup_row. destruct (fs !! path) as [[|rows]|]; try done. eauto.
Qed.

Lemma lookup_row_insert fs path name rows r :
  lookup_row (<[path := Files (<[name := r]> rows)]> fs) path name = Some r.
Proof. unfold lookup_row. by rewrite lookup_insert_eq, lookup_insert_eq. Qed.

Lemma finalize_existing self path fs r results output_file :
  pl_database_path self = Some path →
  lookup_row fs path (pl_input_file self) = Some r →
  ∃ rows, fs !! path = Some (Files rows) ∧
    finalize self results output_file fs =
    (<[path := Files (<[pl_input_file self :=
                         outcome_of r results output_file]> rows)]> fs, Ok ()).
Proof.
  intros Hpath Hrow. apply lookup_row_Some in Hrow as (rows & Hdb & Hr).
  exists rows. split; [done|].
  unfold finalize, outcome_of, connect. rewrite Hpath, Hdb.
  destruct (results !! "tiwp"%string) as [[dims tiwp]|]; by rewrite Hr.
Qed.

Lemma finish_logging_existing self path fs r :
  pl_database_path self = Some path →
  lookup_row fs path (pl_input_file self) = Some r →
  ∃ rows, fs !! path = Some (Files rows) ∧
    finish_logging self fs =
    (detach self,
     <[path := Files (<[pl_input_file self :=
          set_log r (log r ++ String.list_byte_of_string (pl_buffer self))]> rows)]> fs,
     Ok ()).
Proof.
  intros Hpath Hrow. apply lookup_row_Some in Hrow as (rows & Hdb & Hr).
  exists rows. split; [done|].
  unfold finish_logging, connect. by rewrite Hpath, Hdb, Hr.
Qed.

(** C7: for an input file that has a row, a second [finalize] overwrites
    what the first one stored (so that finalizing twice with the same
    arguments is finalizing once), [finalize] sets the success flag and
    the statistics and keeps the log blob, and [finish_logging] replaces
    the blob by the stored blob followed by the captured text, so that
    the stored blob only ever grows at its end. *)
Theorem finalize_idempotent_log_append_only (self : ProcessingLog)
    (path : string) (fs : gmap string database) (r : row)
    (results1 results2 : gmap string (list string * ndarray fval))
    (output_file1 output_file2 : string) :
  pl_database_path self = Some path →
  lookup_row fs path (pl_input_file self) = Some r →
  let name := pl_input_file self in
  let fs1 := (finalize self results1 output_file1 fs).1 in
  let fs_log := (finish_logging self fs).1.2 in
  (* last write wins *)
  finalize self results2 output_file2 fs1 = finalize self results2 output_file2 fs ∧
  (* finalizing twice is finalizing once *)
  finalize self results1 output_file1 fs1 = (fs1, Ok ()) ∧
  (* what finalize stores *)
  lookup_row fs1 path name = Some (outcome_of r results1 output_file1) ∧
  success (outcome_of r results1 output_file1) = true ∧
  log (outcome_of r results1 output_file1) = log r ∧
  (* what finish_logging stores *)
  (finish_logging self fs).2 = Ok () ∧
  lookup_row fs_log path name =
    Some (set_log r (log r ++ String.list_byte_of_string (pl_buffer self))) ∧
  (* a second capture appends to the first *)
  (∀ self2, pl_database_path self2 = Some path → pl_input_file self2 = name →
     ∃ r2, lookup_row (finish_logging self2 fs_log).1.2 path name = Some r2 ∧
           log r2 = (log r ++ String.list_byte_of_string (pl_buffer self))
                    ++ String.list_byte_of_string (pl_buffer self2)).
Proof.
  intros Hpath Hrow name fs1 fs_log.
  destruct (finalize_existing self path fs r results1 output_file1 Hpath Hrow)
    as (rows & Hdb & Hf1).
  destruct (finalize_existing self path fs r results2 output_file2 Hpath Hrow)
    as (rows' & Hdb' & Hf2).
  assert (rows' = rows) as -> by congruence.
  destruct (finish_logging_existing self path fs r Hpath Hrow)
    as (rows' & Hdb'' & Hlog).
  assert (rows' = rows) as -> by congruence.
  assert (Hfs1 : fs1 = <[path := Files (<[name :=
                     outcome_of r results1 output_file1]> rows)]> fs)
    by (unfold fs1; by rewrite Hf1).
  assert (Hrow1 : lookup_row fs1 path name
                  = Some (outcome_of r results1 output_file1))
    by (rewrite Hfs1; apply lookup_row_insert).
  assert (Hout : ∀ results output_file,
            outcome_of (outcome_of r results1 output_file1) results output_file
            = outcome_of r results output_file).
  { intros results output_file. unfold outcome_of.
    destruct (results !! "tiwp"%string) as [[? ?]|],
             (results1 !! "tiwp"%string) as [[? ?]|]; reflexivity. }
  assert (Hagain : ∀ results output_file,
            finalize self results output_file fs1 =
            (<[path := Files (<[name := outcome_of r results output_file]> rows)]> fs,
             Ok ())).
  { intros results output_file.
    destruct (finalize_existing self path fs1 _ results output_file Hpath Hrow1)
      as (rows1 & Hdb1 & ->).
    rewrite Hfs1, lookup_insert_eq in Hdb1. injection Hdb1 as <-.
    rewrite Hfs1, insert_insert_eq, insert_insert_eq, Hout. done. }
  repeat split.
  - by rewrite Hagain, Hf2.
  - by rewrite Hagain, Hfs1.
  - done.
  - unfold outcome_of. by destruct (results1 !! "tiwp"%string) as [[? ?]|].
  - unfold outcome_of. by destruct (results1 !! "tiwp"%string) as [[? ?]|].
  - by rewrite Hlog.
  - unfold fs_log. rewrite Hlog. apply lookup_row_insert.
  - intros self2 Hpath2 Hname2.
    assert (Hrow2 : lookup_row fs_log path (pl_input_file self2) =
              Some (set_log r (log r ++ String.list_byte_of_string (pl_buffer self)))).
    { rewrite Hname2. unfold fs_log. rewrite Hlog. apply lookup_row_insert. }
    destruct (finish_logging_existing self2 path fs_log _ Hpath2 Hrow2)
      as (rows2 & _ & ->).
    eexists. split; [rewrite <- Hname2; apply lookup_row_insert|]. done.
Qed.
End processing_log.

Lemma finalize_idempotent_log_append_only_witness :
  let self := {| pl_database_path := Some "log.db"%string;
                 pl_input_file := "a.nc"%string;
                 pl_buffer := "ok"%string; pl_attached := true |} in
  let fs : gmap string database :=
    {[ "log.db"%string := Files {[ "a.nc"%string := new_row 0 ]} ]} in
  lookup_row (finish_logging self fs).1.2 "log.db" "a.nc"
  = Some (set_log (new_row 0) (String.list_byte_of_string "ok")).
Proof.
  intros self fs.
  destruct (finalize_idempotent_log_append_only (H := null_xarray)
              self "log.db"%string fs (new_row 0) ∅ ∅ "" "" eq_refl eq_refl)
    as (_ & _ & _ & _ & _ & _ & Hlog & _).
  exact Hlog.
Defined.

(** ** Masking *)

Lemma mask_loop_spec (invalid : list (list (list bool))) (v : fval) inds :
  ∀ a n rest,
    shape a = n :: rest →
    Forall (λ ind, (ind < n)%nat ∧
                   last_two rest = [nrows (nth ind invalid []);
                                    ncols (nth ind invalid [])]) inds →
    ∃ a', mask_loop inds invalid v a = Ok a' ∧ shape a' = shape a ∧
      ∀ idx, elem a' idx =
        match idx with
        | i :: tl =>
            if bool_decide (i ∈ inds) && mask_selects (nth i invalid []) tl
            then v else elem a idx
        | [] => elem a idx
        end.
Proof.
  induction inds as [|ind inds IH]; intros a n rest Hshape Hall; simpl.
  - exists a. split; [done|]. split; [done|]. by intros [|i tl].
  - apply Forall_cons in Hall as [[Hlt Hm] Hall].
    unfold set_masked. rewrite Hshape.
    assert (Hc : ((ind <? n)%nat && shape_eqb (last_two rest)
                    [nrows (nth ind invalid []); ncols (nth ind invalid [])]) = true).
    { apply andb_true_iff. split; [by apply Nat.ltb_lt|].
      by apply bool_decide_eq_true. }
    rewrite Hc; simpl.
    match goal with |- context [mask_loop inds invalid v ?x] => set (a1 := x) end.
    destruct (IH a1 n rest eq_refl Hall) as (a' & Ha' & Hs & He).
    exists a'. split; [done|]. split; [by rewrite Hs|].
    intros [|i tl]; rewrite He; simpl; [done|].
    destruct (decide (i = ind)) as [->|Hne].
    + rewrite Nat.eqb_refl. rewrite (bool_decide_eq_true_2 (ind ∈ ind :: inds))
        by apply list_elem_of_here.
      simpl. destruct (mask_selects _ tl); [|by rewrite andb_false_r].
      by destruct (bool_decide _).
    + apply Nat.eqb_neq in Hne as Hne'. rewrite Hne'; simpl.
      rewrite (bool_decide_ext (i ∈ ind :: inds) (i ∈ inds)); [done|].
      rewrite elem_of_cons. split; [intros [?|?]; done|by right].
Qed.

(** Masking succeeds on matching shapes; it overwrites the flagged elements
    and no others. *)
Lemma mask_invalid_spec a invalid v :
  maskable a invalid →
  ∃ a', mask_invalid a invalid v = Ok a' ∧ shape a' = shape a ∧
    ∀ idx, elem a' idx = if flagged invalid idx then v else elem a idx.
Proof.
  intros (n & rest & Hshape & Hlen & Hall). unfold mask_invalid.
  destruct (mask_loop_spec invalid v (seq 0 (length invalid)) a n rest Hshape)
    as (a' & Ha' & Hs & He).
  { apply Forall_forall. intros ind Hin. apply elem_of_seq in Hin.
    split; [lia|].
    destruct (lookup_lt_is_Some_2 invalid ind) as [m Hm]; [lia|].
    rewrite (nth_lookup_Some _ _ _ _ Hm).
    eapply (Forall_lookup_1 _ _ _ _ Hall Hm). }
  exists a'. split; [done|]. split; [done|].
  intros [|i tl]; rewrite He; simpl; [done|].
  destruct (decide (i < length invalid)%nat) as [Hlt|Hge].
  - rewrite bool_decide_eq_true_2 by (apply elem_of_seq; lia).
    by rewrite (proj2 (Nat.ltb_lt _ _) Hlt).
  - rewrite bool_decide_eq_false_2 by (rewrite elem_of_seq; lia).
    by rewrite (proj2 (Nat.ltb_ge _ _)) by lia.
Qed.

(** ** Regression targets *)

Lemma append_last_spec {X} (acc : gmap string (list (list X))) target rows row x :
  acc !! target = Some rows → last rows = Some row →
  append_last acc target x = Ok (<[target := removelast rows ++ [row ++ [x]]]> acc).
Proof. intros Hacc Hlast. unfold append_last. by rewrite Hacc, Hlast. Qed.

(** C4: for a scalar regression target, [process_regression_target] stores,
    besides the masked posterior mean, the posterior quantiles at
    [0.5 * (1 - c)] and [1 - 0.5 * (1 - c)] (0.05 and 0.95 for the default
    [c = 0.9]) and the probability of exceeding 1e-3, each at the end of the
    current row of its dictionary, and each with the pixels of the invalid
    mask of its batch element set to not-a-number and all other values
    kept, exactly as for the mean. *)
Theorem process_regression_target_scalar `{Predictor}
    (retrieval_settings : RetrievalSettings)
    (y_pred : gmap string (ndarray fval)) (invalid : list (list (list bool)))
    (target : string) (acc : accumulators)
    (y mean conf_int p_non_zero : ndarray fval)
    (rows_m rows_c rows_p : list (list (ndarray fval)))
    (row_m row_c row_p : list (ndarray fval)) :
  let c := confidence_interval retrieval_settings in
  target ∈ SCALAR_TARGETS →
  y_pred !! target = Some y →
  posterior_mean y target = Ok mean →
  posterior_quantiles y [fmul (fq 1 2) (fsub (fq 1 1) c);
                         fsub (fq 1 1) (fmul (fq 1 2) (fsub (fq 1 1) c))] target
    = Ok conf_int →
  probability_larger_than y (fq 1 1000) target = Ok p_non_zero →
  maskable mean invalid → maskable conf_int invalid → maskable p_non_zero invalid →
  means acc !! target = Some rows_m → last rows_m = Some row_m →
  conf_ints acc !! target = Some rows_c → last rows_c = Some row_c →
  p_non_zeros acc !! target = Some rows_p → last rows_p = Some row_p →
  ∃ mean' conf_int' p_non_zero',
    process_regression_target retrieval_settings y_pred invalid target acc =
      Ok {| means := <[target := removelast rows_m ++ [row_m ++ [mean']]]> (means acc);
            conf_ints :=
              <[target := removelast rows_c ++ [row_c ++ [conf_int']]]> (conf_ints acc);
            p_non_zeros :=
              <[target := removelast rows_p ++ [row_p ++ [p_non_zero']]]>
                (p_non_zeros acc) |} ∧
    (∀ idx, elem mean' idx = if flagged invalid idx then NaN else elem mean idx) ∧
    (∀ idx, elem conf_int' idx =
              if flagged invalid idx then NaN else elem conf_int idx) ∧
    (∀ idx, elem p_non_zero' idx =
              if flagged invalid idx then NaN else elem p_non_zero idx) ∧
    shape mean' = shape mean ∧ shape conf_int' = shape conf_int ∧
    shape p_non_zero' = shape p_non_zero ∧
    lower_quantile (confidence_interval default_settings) = fq 1 20 ∧
    upper_quantile (confidence_interval default_settings) = fq 19 20.
Proof.
  intros c Htarget Hy Hmean Hci Hp Mm Mc Mp Hm Hlm Hc Hlc Hpz Hlp.
  destruct (mask_invalid_spec mean invalid NaN Mm) as (mean' & Em & Sm & Pm).
  destruct (mask_invalid_spec conf_int invalid NaN Mc) as (ci' & Ec & Sc & Pc).
  destruct (mask_invalid_spec p_non_zero invalid NaN Mp) as (p' & Ep & Sp & Pp).
  exists mean', ci', p'.
  split; [|repeat split; done].
  assert (Hthr : str_in target SCALAR_TARGETS = true ∧
                 dict_get THRESHOLDS target = Ok (fq 1 1000)).
  { unfold SCALAR_TARGETS in Htarget.
    apply elem_of_cons in Htarget as [->|Htarget]; [done|].
    apply elem_of_cons in Htarget as [->|Htarget]; [done|].
    by apply elem_of_nil in Htarget. }
  destruct Hthr as [Hin Hthr].
  unfold process_regression_target, upper_quantile, lower_quantile.
  fold c. rewrite Hin, Hthr, Hy.
  unfold mbind, result_bind, rbind; cbn beta iota.
  rewrite Hmean, Em, (append_last_spec _ _ _ _ _ Hm Hlm).
  rewrite Hci, Ec, (append_last_spec _ _ _ _ _ Hc Hlc).
  rewrite Hp, Ep, (append_last_spec _ _ _ _ _ Hpz Hlp).
  done.
Qed.

Lemma process_regression_target_scalar_witness :
  ∃ mean' conf_int' p_non_zero',
    process_regression_target (H := constant_predictor 1 1 (fq 2 1))
      default_settings {[ "tiwp"%string := zeros_f [1; 1; 1]%nat ]}
      [[[true]]] "tiwp" (open_row "tiwp")
    = Ok {| means := {[ "tiwp"%string := [[mean']] ]};
            conf_ints := {[ "tiwp"%string := [[conf_int']] ]};
            p_non_zeros := {[ "tiwp"%string := [[p_non_zero']] ]} |} ∧
    elem mean' [0; 0; 0]%nat = NaN ∧
    elem conf_int' [0; 1; 0; 0]%nat = NaN ∧
    elem p_non_zero' [0; 0; 0]%nat = NaN.
Proof.
  assert (Hmask : ∀ a : ndarray fval,
            (∃ k, shape a = 1%nat :: k ++ [1; 1]%nat) → maskable a [[[true]]]).
  { intros a [k Hk]. exists 1%nat, (k ++ [1; 1]%nat).
    split; [done|]. split; [simpl; lia|].
    constructor; [|constructor].
    unfold last_two. rewrite length_app; simpl.
    replace (length k + 2 - 2)%nat with (length k) by lia.
    by rewrite drop_app_length. }
  destruct (process_regression_target_scalar (H := constant_predictor 1 1 (fq 2 1))
              default_settings {[ "tiwp"%string := zeros_f [1; 1; 1]%nat ]}
              [[[true]]] "tiwp" (open_row "tiwp")
              (zeros_f [1; 1; 1]%nat)
              (mk_ndarray [1; 1; 1]%nat (λ _, fq 2 1))
              (mk_ndarray [1; 2; 1; 1]%nat
                 (λ idx, nth (nth 1 idx 0%nat) [fq 1 20; fq 19 20] NaN))
              (mk_ndarray [1; 1; 1]%nat (λ _, fq 1 1000))
              [[]] [[]] [[]] [] [] [])
    as (mean' & ci' & p' & Hrun & Hm & Hc & Hp & _).
  - apply list_elem_of_here.
  - reflexivity.
  - reflexivity.
  - reflexivity.
  - reflexivity.
  - apply Hmask. by exists [].
  - apply Hmask. by exists [2%nat].
  - apply Hmask. by exists [].
  - reflexivity.
  - reflexivity.
  - reflexivity.
  - reflexivity.
  - reflexivity.
  - reflexivity.
  - exists mean', ci', p'. split; [|split; [|split]].
    + rewrite Hrun. unfold open_row; simpl.
      by rewrite !insert_singleton_eq.
    + by rewrite Hm.
    + by rewrite Hc.
    + by rewrite Hp.
Defined.

(** ** Masked pixels of the cloud type *)

Lemma argmax_from_constant (q : Q) (l : list fval) : ∀ max_ind i,
  Forall (λ x, x = Fin q) l → argmax_from (Fin q) max_ind i l = max_ind.
Proof.
  induction l as [|x l IH]; intros max_ind i Hall; [done|].
  apply Forall_cons in Hall as [-> Hall]. simpl.
  destruct (Qlt_le_dec q q) as [Hlt|_]; [by apply Qlt_irrefl in Hlt|].
  simpl. by apply IH.
Qed.

(** An element whose class probabilities all hold the sentinel -1 is given
    class 1. *)
Lemma determine_cloud_class_sentinel (class_probs : ndarray fval)
    (axis K : nat) (idx : list nat) :
  shape class_probs !! axis = Some K →
  (2 ≤ K)%nat →
  in_shape (delete axis (shape class_probs)) idx →
  (∀ k, elem class_probs (insert_at axis k idx) = fq (-1) 1) →
  ∃ types, determine_cloud_class class_probs axis = Ok types ∧
           elem types idx = 1.
Proof.
  intros HK HK2 Hidx Hall.
  destruct (determine_cloud_class_elem class_probs axis K HK HK2)
    as (types & Hok & Hshape & Helem).
  exists types. split; [done|].
  rewrite <- Hshape in Hidx. destruct (Helem idx Hidx) as (i & Hi & ->).
  rewrite Hall.
  assert (Hfib : Forall (λ x, x = Fin (-1 # 1)) (class_fibre class_probs axis K idx)).
  { unfold class_fibre. apply Forall_fmap, Forall_forall. intros k _. apply Hall. }
  destruct (class_fibre class_probs axis K idx) as [|x l]; [done|].
  apply Forall_cons in Hfib as [-> Hfib]. injection Hi as <-.
  by rewrite argmax_from_constant.
Qed.

(** C5 on a tile of one pixel that the invalid mask flags: every class
    probability of the pixel is set to -1, and the class selected for it is
    1, a cloud class. *)
Theorem masked_pixel_gets_cloud_class :
  ∃ ct types,
    process_cloud_type (H := constant_predictor 1 1 (fq 0 1))
      {[ "cloud_class"%string := cloud_class_example ]} [[[true]]] [[]]
    = Ok [[ct]] ∧
    (∀ k, elem ct [0; k; 0; 0; 0]%nat = fq (-1) 1) ∧
    cloud_type_classes assemble_single [[ct]] = Ok types ∧
    shape types = [1; 1; 1; 1]%nat ∧
    elem types [0; 0; 0; 0]%nat = 1.
Proof.
  eexists _, _. split; [vm_compute; reflexivity|].
  split; [intros k; reflexivity|].
  split; [vm_compute; reflexivity|].
  split; reflexivity.
Qed.

(** ** The pipeline *)

Section pipeline_properties.
Context {InputData Date World : Type} `{PipelineOps InputData Date World}.

#[local] Abbreviation state := (pipeline InputData Date World).
#[local] Abbreviation queue := (list (option (InputData * Date))).

Lemma items_of_map_Some (l : list (InputData * Date)) :
  items_of (map Some l) = l.
Proof. induction l as [|x l IH]; [done|]. simpl. by rewrite IH. Qed.

Lemma items_of_app (q1 q2 : queue) :
  items_of (q1 ++ q2) = items_of q1 ++ items_of q2.
Proof. apply omap_app. Qed.

Lemma sentinel_first (rest : queue) :
  None :: rest = map Some (items_of (None :: rest)) ++ [None] → rest = [].
Proof.
  simpl. fold (items_of rest). destruct (items_of rest); simpl; [|done].
  by intros [= ->].
Qed.

Lemma sentinel_position (k rest : queue) (fw : list (InputData * Date))
    (tl : queue) :
  tl = [] ∨ tl = [None] →
  k ++ None :: rest = map Some fw ++ tl →
  tl = [None] ∧ rest = [] ∧ k = map Some fw.
Proof.
  revert k. induction fw as [|x fw IH]; intros k Htl Heq; simpl in *.
  - destruct Htl as [-> | ->].
    + by destruct k.
    + destruct k as [|y k]; [by injection Heq as ->|].
      injection Heq as _ Heq. by destruct k.
  - destruct k as [|y k]; [done|]. injection Heq as -> Heq.
    destruct (IH k Htl Heq) as (-> & -> & ->). done.
Qed.

Lemma inv_started (w : World) (items : list (InputData * Date)) :
  pipeline_inv (length items) (started w (map Some items ++ [None])).
Proof.
  constructor; simpl.
  - by rewrite items_of_app, items_of_map_Some, app_nil_r.
  - done.
  - rewrite items_of_app, items_of_map_Some, app_nil_r. simpl. lia.
  - by exists [].
Qed.

Lemma download_data_step_inv (n : nat) (s s' : state) :
  pipeline_inv n s → download_data_step s = Some s' → pipeline_inv n s'.
Proof.
  intros [Hq Hf Hc Hp] Hd. unfold download_data_step in Hd.
  assert (Hppc : ppc s = PGet ∨ dpc s = DDone).
  { destruct (ppc s); [by left|right; apply Hp]. }
  destruct (dpc s) as [|[i d]| |] eqn:Edpc; [| | |done].
  - (* get *)
    destruct Hppc as [Hppc|]; [|done]. rewrite Hppc in Hp.
    rewrite app_nil_r in Hf.
    destruct (download_queue s) as [|[[i d]|] rest] eqn:Edq; [done| |].
    + simpl in Hq. injection Hq as Hq. simpl in Hc.
      destruct (ensure_data (world s) i d) as [w [[]|e]];
        injection Hd as <-; constructor; simpl;
        rewrite ?app_nil_r, ?Hppc, ?length_app; simpl; try done; try lia.
    + apply sentinel_first in Hq as ->. simpl in Hc.
      injection Hd as <-; constructor; simpl;
        rewrite ?app_nil_r, ?Hppc; simpl; try done; lia.
  - (* put *)
    destruct Hppc as [Hppc|]; [|done]. rewrite Hppc in Hp.
    destruct Hp as (taken & Htk & Hlen). rewrite app_nil_r in Hf. simpl in Hc.
    destruct (_ <? _)%nat; [|done].
    destruct (put_task i d) as [[]|e]; injection Hd as <-;
      constructor; simpl; rewrite ?app_nil_r, ?Hppc, ?length_app; simpl;
      try done; try lia; try (by exists taken).
    + rewrite items_of_app, map_app. simpl. by rewrite <- Hf.
    + rewrite items_of_app, length_app. simpl. lia.
    + exists taken. by rewrite Htk at 1; rewrite <- app_assoc.
  - (* put the sentinel *)
    destruct Hppc as [Hppc|]; [|done]. rewrite Hppc in Hp.
    destruct Hp as (taken & Htk & Hlen). rewrite app_nil_r in Hf. simpl in Hc.
    destruct (_ <? _)%nat; [|done]. injection Hd as <-.
    constructor; simpl; rewrite ?Hppc; simpl; try done.
    + rewrite items_of_app. simpl. by rewrite app_nil_r, <- Hf.
    + rewrite items_of_app. simpl. rewrite !app_nil_r. lia.
    + exists taken. by rewrite Htk at 1; rewrite <- app_assoc.
Qed.

Lemma process_files_step_inv (n : nat) (s s' : state) :
  pipeline_inv n s → process_files_step s = Some s' → pipeline_inv n s'.
Proof.
  intros [Hq Hf Hc Hp] Hd. unfold process_files_step in Hd.
  destruct (ppc s) eqn:Eppc; [|done]. destruct Hp as (taken & Htk & Hlen).
  destruct (processing_queue s) as [|[[i d]|] rest] eqn:Epq; [done| |].
  - assert (Htk' : forwarded s = map Some (taken ++ [(i, d)]) ++ rest)
      by (by rewrite map_app, <- app_assoc).
    destruct (retrieve (world s) i d) as [w [[]|e]]; injection Hd as <-;
      constructor; simpl; rewrite ?Eppc, ?app_nil_r, ?length_app; simpl;
      try done; (exists (taken ++ [(i, d)]); split; [done|]);
      rewrite length_app; simpl; lia.
  - rewrite Hf in Htk. symmetry in Htk.
    apply sentinel_position in Htk as (Htl & -> & Htk);
      [|destruct (dpc s); auto].
    injection Hd as <-. constructor; simpl; rewrite ?Eppc; try done.
    split; [done|]. split; [by destruct (dpc s)|].
    apply (f_equal length) in Htk. rewrite !length_map in Htk.
    rewrite !app_nil_r. lia.
Qed.

Lemma step_inv (n : nat) (s s' : state) :
  pipeline_inv n s → step s s' → pipeline_inv n s'.
Proof. intros Hinv [Hd|Hp]; eauto using download_data_step_inv, process_files_step_inv. Qed.

Lemma step_measure (s s' : state) : step s s' → (measure s' < measure s)%nat.
Proof.
  intros [Hd|Hp]; unfold measure.
  - unfold download_data_step in Hd.
    destruct (dpc s) as [|[i d]| |]; [| | |done].
    + destruct (download_queue s) as [|[[i d]|] rest]; [done| |].
      * destruct (ensure_data (world s) i d) as [w [[]|e]];
          injection Hd as <-; simpl; rewrite ?length_app; simpl; lia.
      * injection Hd as <-; simpl; rewrite ?length_app; simpl; lia.
    + destruct (_ <? _)%nat; [|done].
      destruct (put_task i d) as [[]|e]; injection Hd as <-; simpl;
        rewrite ?length_app; simpl; lia.
    + destruct (_ <? _)%nat; [|done].
      injection Hd as <-; simpl; rewrite ?length_app; simpl; lia.
  - unfold process_files_step in Hp. destruct (ppc s); [|done].
    destruct (processing_queue s) as [|[[i d]|] rest]; [done| |].
    + destruct (retrieve (world s) i d) as [w [[]|e]];
        injection Hp as <-; simpl; lia.
    + injection Hp as <-; simpl; lia.
Qed.

Lemma steps_inv (n k : nat) (s s' : state) :
  pipeline_inv n s → steps k s s' → pipeline_inv n s'.
Proof. intros Hinv Hsteps. induction Hsteps; eauto using step_inv. Qed.

Lemma steps_measure (k : nat) (s s' : state) :
  steps k s s' → (k + measure s' ≤ measure s)%nat.
Proof.
  induction 1 as [|k s s1 s2 Hstep _ IH]; [done|].
  apply step_measure in Hstep. lia.
Qed.

(** With the invariant, a state in which neither stage can move is one in
    which both have left their loop. *)
Lemma stuck_terminated (n : nat) (s : state) :
  pipeline_inv n s → stuck s →
  terminated s ∧
  ∃ fw, forwarded s = map Some fw ++ [None] ∧
        (length fw + length (dlog s) = n)%nat ∧
        (length (processed s) + length (plog s) = length fw)%nat.
Proof.
  intros [Hq Hf Hc Hp] [Hd Hpr]. unfold download_data_step in Hd.
  unfold process_files_step in Hpr.
  assert (Hfull : dpc s = DDone ∨
            ((PROCESSING_QUEUE_SIZE ≤ length (processing_queue s))%nat ∧
             dpc s ≠ DDone)).
  { destruct (dpc s) as [|[i d]| |]; [| | |by left].
    - rewrite Hq in Hd.
      destruct (items_of (download_queue s)) as [|[i d] l]; simpl in Hd.
      + done.
      + by destruct (ensure_data (world s) i d) as [w [[]|e]].
    - right. split; [|done].
      destruct (_ <? _)%nat eqn:E; [by destruct (put_task i d)|].
      by apply Nat.ltb_ge in E.
    - right. split; [|done].
      destruct (_ <? _)%nat eqn:E; [done|]. by apply Nat.ltb_ge in E. }
  assert (Hdone : dpc s = DDone).
  { destruct Hfull as [|[Hlen Hne]]; [done|].
    destruct (ppc s); [|by destruct Hp as (_ & ? & _)].
    clear Hp.
    destruct (processing_queue s) as [|[[i d]|] rest];
      [unfold PROCESSING_QUEUE_SIZE in Hlen; simpl in Hlen; lia| |done].
    by destruct (retrieve (world s) i d) as [w [[]|e]]. }
  rewrite Hdone in *. simpl in Hc.
  destruct (ppc s) eqn:Eppc.
  - destruct Hp as (taken & Htk & Hlen).
    destruct (processing_queue s) as [|[[i d]|] rest] eqn:Epq; [| |done].
    + (* the sentinel was put, so the queue cannot have run empty *)
      exfalso. rewrite app_nil_r in Htk.
      assert (Hin : None ∈ map Some taken).
      { rewrite <- Htk, Hf. apply elem_of_app. right. apply list_elem_of_here. }
      apply list_elem_of_fmap in Hin as (x & Hx & _). done.
    + by destruct (retrieve (world s) i d) as [w [[]|e]].
  - destruct Hp as (Hpq & _ & Hlen).
    split; [done|]. exists (items_of (forwarded s)).
    rewrite Hq in Hc. simpl in Hc. split; [done|]. split; lia.
Qed.

Lemma run_eager_steps (fuel : nat) : ∀ s : state,
  ∃ k, steps k s (run_eager fuel s).
Proof.
  induction fuel as [|fuel IH]; intros s; simpl; [exists 0%nat; constructor|].
  destruct (download_data_step s) as [s'|] eqn:Ed.
  - destruct (IH s') as [k Hk]. exists (S k).
    econstructor; [by apply step_download|done].
  - destruct (process_files_step s) as [s'|] eqn:Ep; [|exists 0%nat; constructor].
    destruct (IH s') as [k Hk]. exists (S k).
    econstructor; [by apply step_process|done].
Qed.

Lemma run_eager_stuck (fuel : nat) : ∀ s : state,
  (measure s ≤ fuel)%nat → stuck (run_eager fuel s).
Proof.
  induction fuel as [|fuel IH]; intros s Hm; simpl.
  - split.
    + destruct (download_data_step s) as [s'|] eqn:Ed; [|done].
      assert (Hs := step_measure s s' (step_download s s' Ed)). lia.
    + destruct (process_files_step s) as [s'|] eqn:Ep; [|done].
      assert (Hs := step_measure s s' (step_process s s' Ep)). lia.
  - destruct (download_data_step s) as [s'|] eqn:Ed.
    + apply IH.
      assert (Hs := step_measure s s' (step_download s s' Ed)). lia.
    + destruct (process_files_step s) as [s'|] eqn:Ep; [|done].
      apply IH.
      assert (Hs := step_measure s s' (step_process s s' Ep)). lia.
Qed.

Lemma measure_started (w : World) (items : list (InputData * Date)) :
  measure (started w (map Some items ++ [None])) = (4 * (length items + 1))%nat.
Proof. unfold measure; simpl. rewrite length_app, length_map. simpl. lia. Qed.

(** C2: with [N] work items and then the sentinel on the download queue,
    however the two stages are interleaved, the run ends after at most
    [4 * (N + 1)] steps; when neither stage can move, both have left their
    loop and both queues are empty; the processing queue has then received
    the forwarded items followed by exactly one [None]; every item was
    either forwarded or logged by the download stage, and every forwarded
    item was either processed or logged by the processing stage.  Some
    run does end.  The download stage downloads when the data is absent.
    An item whose handling raises is logged, and the stage is back at the
    head of its loop. *)
Theorem pipeline_handles_every_item (w : World)
    (items : list (InputData * Date)) :
  let s0 := started w (map Some items ++ [None]) in
  (∀ k s, steps k s0 s →
     (k ≤ 4 * (length items + 1))%nat ∧
     (stuck s →
        terminated s ∧
        ∃ fw, forwarded s = map Some fw ++ [None] ∧
              (length fw + length (dlog s) = length items)%nat ∧
              (length (processed s) + length (plog s) = length fw)%nat)) ∧
  (∃ k s, steps k s0 s ∧ stuck s) ∧
  (∀ w0 i d w1, has_data w0 i d = (w1, Ok true) →
     ensure_data w0 i d = (w1, Ok ())) ∧
  (∀ w0 i d w1, has_data w0 i d = (w1, Ok false) →
     ensure_data w0 i d = download_data_op w1 i d) ∧
  (∀ (s : state) i d rest w' e,
     dpc s = DGet → download_queue s = Some (i, d) :: rest →
     ensure_data (world s) i d = (w', Raise e) →
     download_data_step s = Some (after_download s w' rest DGet [] [e])) ∧
  (∀ (s : state) i d rest w',
     dpc s = DGet → download_queue s = Some (i, d) :: rest →
     ensure_data (world s) i d = (w', Ok ()) →
     download_data_step s = Some (after_download s w' rest (DPut (i, d)) [] [])) ∧
  (∀ (s : state) i d rest w' e,
     ppc s = PGet → processing_queue s = Some (i, d) :: rest →
     retrieve (world s) i d = (w', Raise e) →
     process_files_step s = Some (after_process s w' rest PGet [e] [])) ∧
  (∀ (s : state) i d rest w',
     ppc s = PGet → processing_queue s = Some (i, d) :: rest →
     retrieve (world s) i d = (w', Ok ()) →
     process_files_step s = Some (after_process s w' rest PGet [] [(i, d)])).
Proof.
  intros s0. split; [|split; [|repeat split]].
  - intros k s Hsteps. split.
    + apply steps_measure in Hsteps. unfold s0 in Hsteps.
      rewrite measure_started in Hsteps. lia.
    + intros Hstuck. apply (stuck_terminated (length items)); [|done].
      eapply steps_inv; [apply inv_started|done].
  - destruct (run_eager_steps (measure s0) s0) as [k Hk].
    exists k, (run_eager (measure s0) s0). split; [done|].
    by apply run_eager_stuck.
  - intros w0 i d w1 Hw. unfold ensure_data. by rewrite Hw.
  - intros w0 i d w1 Hw. unfold ensure_data. by rewrite Hw.
  - intros s i d rest w' e Hpc Hq He. unfold download_data_step.
    by rewrite Hpc, Hq, He.
  - intros s i d rest w' Hpc Hq He. unfold download_data_step.
    by rewrite Hpc, Hq, He.
  - intros s i d rest w' e Hpc Hq He. unfold process_files_step.
    by rewrite Hpc, Hq, He.
  - intros s i d rest w' Hpc Hq He. unfold process_files_step.
    by rewrite Hpc, Hq, He.
Qed.

(** C10: a work item whose check or download raises is dropped by the
    download stage: the exception is logged, nothing is put on the
    processing queue, the item is in neither queue and the stage is at the
    head of its loop, about to take the next item.  The same holds when
    forwarding the item raises. *)
Theorem failed_download_is_skipped (s : state) (i : InputData) (d : Date)
    (rest : list (option (InputData * Date))) (e : pyexc) :
  (dpc s = DGet → download_queue s = Some (i, d) :: rest →
   (∃ w', has_data (world s) i d = (w', Raise e)) ∨
   (∃ w1 w', has_data (world s) i d = (w1, Ok false) ∧
             download_data_op w1 i d = (w', Raise e)) →
   ∃ s', download_data_step s = Some s' ∧
         processing_queue s' = processing_queue s ∧
         forwarded s' = forwarded s ∧
         dlog s' = dlog s ++ [e] ∧
         dpc s' = DGet ∧ download_queue s' = rest) ∧
  (dpc s = DPut (i, d) →
   (length (processing_queue s) < PROCESSING_QUEUE_SIZE)%nat →
   put_task i d = Raise e →
   ∃ s', download_data_step s = Some s' ∧
         processing_queue s' = processing_queue s ∧
         forwarded s' = forwarded s ∧
         dlog s' = dlog s ++ [e] ∧
         dpc s' = DGet ∧ download_queue s' = download_queue s).
Proof.
  split.
  - intros Hpc Hq Hraise.
    assert (He : ∃ w', ensure_data (world s) i d = (w', Raise e)).
    { unfold ensure_data.
      destruct Hraise as [[w' Hw]|(w1 & w' & Hw1 & Hw)]; rewrite ?Hw, ?Hw1; eauto. }
    destruct He as [w' He]. eexists. unfold download_data_step.
    rewrite Hpc, Hq, He. split; [done|]. simpl. by rewrite !app_nil_r.
  - intros Hpc Hlen Hput. eexists. unfold download_data_step.
    rewrite Hpc, (proj2 (Nat.ltb_lt _ _) Hlen), Hput.
    split; [done|]. simpl. by rewrite !app_nil_r.
Qed.
End pipeline_properties.

Lemma pipeline_handles_every_item_witness :
  ∃ k s, steps (H := example_ops) k
           (started [] (map Some example_items ++ [None])) s ∧
         stuck (H := example_ops) s.
Proof.
  exact (proj1 (proj2 (pipeline_handles_every_item (H := example_ops)
                         [] example_items))).
Defined.

Lemma failed_download_is_skipped_witness :
  ∃ s', download_data_step (H := example_ops)
          (started [] (map Some example_items ++ [None])) = Some s' ∧
        processing_queue s' = [] ∧ dlog s' = [OtherError 404] ∧
        download_queue s' = [Some ((), 2%nat); Some ((), 3%nat); None].
Proof.
  destruct (proj1 (failed_download_is_skipped (H := example_ops)
                     (started [] (map Some example_items ++ [None]))
                     () 1%nat [Some ((), 2%nat); Some ((), 3%nat); None]
                     (OtherError 404))
              eq_refl eq_refl
              (or_intror (ex_intro _ [] (ex_intro _ [] (conj eq_refl eq_refl)))))
    as (s' & Hs' & Hpq & _ & Hlog & _ & Hdq).
  exists s'. repeat split; [exact Hs'|exact Hpq|exact Hlog|exact Hdq].
Defined.

(** Three dates, of which the first cannot be downloaded and the second
    cannot be retrieved: both stages end, and the third date is processed. *)
Example pipeline_example :
  let s := run_eager (H := example_ops) 16
             (started [] (map Some example_items ++ [None])) in
  terminated s ∧
  forwarded s = [Some ((), 2%nat); Some ((), 3%nat); None] ∧
  dlog s = [OtherError 404] ∧ plog s = [ValueError] ∧
  processed s = [((), 3%nat)].
Proof. vm_compute. repeat split. Qed.

(** ** Boolean images *)

Lemma nth_tabulate_row {A} (g : nat → A) (n i : nat) (d : A) :
  nth i (map g (seq 0 n)) d = if (i <? n)%nat then g i else d.
Proof.
  rewrite nth_lookup, list_lookup_fmap.
  destruct (i <? n)%nat eqn:E.
  - apply Nat.ltb_lt in E. by rewrite lookup_seq_lt.
  - apply Nat.ltb_ge in E. by rewrite lookup_seq_ge.
Qed.

Lemma pix_tabulate (h w : nat) (f : Z → Z → bool) (r c : Z) :
  in_bounds h w r c → pix (tabulate h w f) r c = f r c.
Proof.
  intros [Hr Hc]. unfold pix, tabulate.
  destruct (r <? 0) eqn:Er; [lia|]. destruct (c <? 0) eqn:Ec; [lia|]. simpl.
  rewrite nth_tabulate_row.
  destruct (Z.to_nat r <? h)%nat eqn:E; [|apply Nat.ltb_ge in E; lia].
  rewrite nth_tabulate_row.
  destruct (Z.to_nat c <? w)%nat eqn:E'; [|apply Nat.ltb_ge in E'; lia].
  by rewrite !Z2Nat.id by lia.
Qed.

Lemma pix_tabulate_outside (h w : nat) (f : Z → Z → bool) (r c : Z) :
  ¬ in_bounds h w r c → pix (tabulate h w f) r c = false.
Proof.
  intros Hout. unfold pix, tabulate.
  destruct (r <? 0) eqn:Er; [done|]. destruct (c <? 0) eqn:Ec; [done|]. simpl.
  rewrite nth_tabulate_row.
  destruct (Z.to_nat r <? h)%nat eqn:E; [|by destruct (Z.to_nat c)].
  rewrite nth_tabulate_row.
  destruct (Z.to_nat c <? w)%nat eqn:E'; [|done].
  apply Nat.ltb_lt in E, E'. exfalso. apply Hout. unfold in_bounds. lia.
Qed.

Lemma pix_tabulate_true (h w : nat) (f : Z → Z → bool) (r c : Z) :
  pix (tabulate h w f) r c = true ↔ in_bounds h w r c ∧ f r c = true.
Proof.
  split.
  - intros Hp. assert (Hin : in_bounds h w r c).
    { destruct (decide (in_bounds h w r c)) as [|Hout]; [done|].
      by rewrite pix_tabulate_outside in Hp. }
    split; [done|]. by rewrite pix_tabulate in Hp.
  - intros [Hin Hf]. by rewrite pix_tabulate.
Qed.

Lemma nrows_tabulate h w f : nrows (tabulate h w f) = h.
Proof. unfold nrows, tabulate. by rewrite length_map, length_seq. Qed.

Lemma ncols_tabulate h w f : (0 < h)%nat → ncols (tabulate h w f) = w.
Proof.
  intros Hh. unfold ncols, tabulate. destruct h as [|h]; [lia|]. simpl.
  by rewrite length_map, length_seq.
Qed.

Lemma tabulate_ext h w f g :
  (∀ r c, in_bounds h w r c → f r c = g r c) → tabulate h w f = tabulate h w g.
Proof.
  intros Hfg. unfold tabulate. apply map_ext_in. intros r Hr.
  apply map_ext_in. intros c Hc. apply in_seq in Hr, Hc.
  apply Hfg. unfold in_bounds. lia.
Qed.

(** ** Dilation and erosion by the cross *)

Lemma cross_dilate_tabulate h w f :
  (0 < h)%nat →
  cross_dilate (tabulate h w f) =
  tabulate h w (λ r c,
    pix (tabulate h w f) r c || pix (tabulate h w f) (r - 1) c
    || pix (tabulate h w f) (r + 1) c
    || pix (tabulate h w f) r (c - 1) || pix (tabulate h w f) r (c + 1)).
Proof.
  intros Hh. unfold cross_dilate. by rewrite nrows_tabulate, ncols_tabulate.
Qed.

Lemma cross_erode_tabulate h w f :
  (0 < h)%nat →
  cross_erode (tabulate h w f) =
  tabulate h w (λ r c,
    pix (tabulate h w f) r c && pix (tabulate h w f) (r - 1) c
    && pix (tabulate h w f) (r + 1) c
    && pix (tabulate h w f) r (c - 1) && pix (tabulate h w f) r (c + 1)).
Proof.
  intros Hh. unfold cross_erode. by rewrite nrows_tabulate, ncols_tabulate.
Qed.

(** After [k] dilations a pixel is set exactly when a set pixel of the image
    is at most [k] steps away. *)
Lemma binary_dilation_spec h w f k :
  (0 < h)%nat →
  ∃ g, binary_dilation (tabulate h w f) k = tabulate h w g ∧
    ∀ r c, in_bounds h w r c →
      (g r c = true ↔
       ∃ r' c', in_bounds h w r' c' ∧ l1 r c r' c' ≤ Z.of_nat k ∧ f r' c' = true).
Proof.
  intros Hh. induction k as [|k (g & Hg & IH)].
  - exists f. split; [done|]. intros r c Hin. split.
    + intros Hf. exists r, c. unfold l1. repeat split; [apply Hin..|lia|done].
    + intros (r' & c' & _ & Hd & Hf). unfold l1 in Hd.
      by replace r with r' by lia; replace c with c' by lia.
  - unfold binary_dilation in *. simpl. rewrite Hg.
    rewrite cross_dilate_tabulate by done.
    eexists. split; [reflexivity|]. intros r c Hin. simpl.
    rewrite !orb_true_iff, !pix_tabulate_true. split.
    + intros Hor.
      assert (Hn : ∃ r1 c1, in_bounds h w r1 c1 ∧ g r1 c1 = true ∧ l1 r c r1 c1 ≤ 1).
      { unfold l1.
        destruct Hor as [[[[[? ?]|[? ?]]|[? ?]]|[? ?]]|[? ?]];
          eexists _, _; (split; [eassumption|]); (split; [eassumption|]); lia. }
      destruct Hn as (r1 & c1 & Hin1 & Hg1 & Hd1).
      apply IH in Hg1 as (r' & c' & Hin' & Hd' & Hf); [|done].
      exists r', c'. split; [done|]. split; [|done]. unfold l1 in *. lia.
    + intros (r' & c' & Hin' & Hd & Hf).
      destruct (decide (l1 r c r' c' ≤ Z.of_nat k)) as [Hle|Hgt].
      * left; left; left; left. split; [done|]. apply IH; [done|]. eauto.
      * unfold in_bounds, l1 in *.
        destruct (decide (r' < r)) as [?|?];
          [|destruct (decide (r < r')) as [?|?];
             [|destruct (decide (c' < c)) as [?|?]]].
        -- left; left; left; right. split; [lia|]. apply IH; [unfold in_bounds; lia|].
           exists r', c'. unfold l1. repeat split; try lia. done.
        -- left; left; right. split; [lia|]. apply IH; [unfold in_bounds; lia|].
           exists r', c'. unfold l1. repeat split; try lia. done.
        -- left; right. split; [lia|]. apply IH; [unfold in_bounds; lia|].
           exists r', c'. unfold l1. repeat split; try lia. done.
        -- right. split; [lia|]. apply IH; [unfold in_bounds; lia|].
           exists r', c'. unfold l1. repeat split; try lia. done.
Qed.

(** After [k] erosions a pixel is set exactly when every pixel at most [k]
    steps away lies in the image and is set. *)
Lemma binary_erosion_spec h w f k :
  (0 < h)%nat →
  ∃ g, binary_erosion (tabulate h w f) k = tabulate h w g ∧
    ∀ r c, in_bounds h w r c →
      (g r c = true ↔
       ∀ r' c', l1 r c r' c' ≤ Z.of_nat k → in_bounds h w r' c' ∧ f r' c' = true).
Proof.
  intros Hh. induction k as [|k (g & Hg & IH)].
  - exists f. split; [done|]. intros r c Hin. split.
    + intros Hf r' c' Hd. unfold l1 in Hd.
      by replace r' with r by lia; replace c' with c by lia.
    + intros Hall. apply (Hall r c). unfold l1. lia.
  - unfold binary_erosion in *. simpl. rewrite Hg.
    rewrite cross_erode_tabulate by done.
    eexists. split; [reflexivity|]. intros r c Hin. simpl.
    rewrite !andb_true_iff, !pix_tabulate_true. split.
    + intros ((((Hc & Hu) & Hd) & Hl) & Hr) r' c' Hdist.
      assert (Hn : ∃ r1 c1, (in_bounds h w r1 c1 ∧ g r1 c1 = true) ∧
                            l1 r1 c1 r' c' ≤ Z.of_nat k).
      { unfold l1 in *.
        destruct (decide (Z.abs (r - r') + Z.abs (c - c') ≤ Z.of_nat k)).
        - exists r, c. split; [done|lia].
        - destruct (decide (r' < r)) as [?|?];
            [|destruct (decide (r < r')) as [?|?];
               [|destruct (decide (c' < c)) as [?|?]]].
          + exists (r - 1), c. split; [done|lia].
          + exists (r + 1), c. split; [done|lia].
          + exists r, (c - 1). split; [done|lia].
          + exists r, (c + 1). split; [done|lia]. }
      destruct Hn as (r1 & c1 & [Hin1 Hg1] & Hd1).
      exact (proj1 (IH r1 c1 Hin1) Hg1 r' c' Hd1).
    + intros Hall.
      assert (Hn : ∀ r1 c1, l1 r c r1 c1 ≤ 1 →
                in_bounds h w r1 c1 ∧ g r1 c1 = true).
      { intros r1 c1 Hd1.
        assert (Hin1 : in_bounds h w r1 c1)
          by (apply (Hall r1 c1); unfold l1 in *; lia).
        split; [done|]. apply IH; [done|]. intros r' c' Hd'.
        apply Hall. unfold l1 in *. lia. }
      do 4 (split; [|apply Hn; unfold l1; lia]). apply Hn; unfold l1; lia.
Qed.

(** ** Cropping and padding *)

Lemma slice_both_map_seq {A} (F : nat → A) (k n : nat) :
  slice_both k (map F (seq 0 (n + 2 * k))) = map (λ i, F (k + i)%nat) (seq 0 n).
Proof.
  unfold slice_both. rewrite length_map, length_seq.
  replace (n + 2 * k - 2 * k)%nat with n by lia.
  rewrite <- fmap_drop, <- fmap_take, drop_seq, take_seq.
  replace (n `min` (n + 2 * k - k))%nat with n by lia.
  rewrite Nat.add_0_l, <- (Nat.add_0_r k) at 1.
  rewrite <- (fmap_add_seq k 0 n), <- list_fmap_compose. done.
Qed.

Lemma crop_tabulate (k h w : nat) (g : Z → Z → bool) :
  crop k (tabulate (h + 2 * k) (w + 2 * k) g) =
  tabulate h w (λ r c, g (r + Z.of_nat k) (c + Z.of_nat k)).
Proof.
  unfold crop, tabulate. rewrite slice_both_map_seq, map_map.
  apply map_ext. intros r. rewrite slice_both_map_seq.
  apply map_ext. intros c. f_equal; lia.
Qed.

Lemma negate_tabulate (h w : nat) (g : Z → Z → bool) :
  map (map negb) (tabulate h w g) = tabulate h w (λ r c, negb (g r c)).
Proof.
  unfold tabulate. rewrite map_map. apply map_ext. intros r. by rewrite map_map.
Qed.

Lemma reflect_index_bounds (n i : Z) : 1 ≤ n → 0 ≤ reflect_index n i < n.
Proof.
  intros Hn. unfold reflect_index.
  destruct (n =? 1) eqn:E1; [lia|]. apply Z.eqb_neq in E1.
  assert (Hm := Z.mod_pos_bound i (2 * (n - 1)) ltac:(lia)).
  destruct (_ <? n) eqn:E; [apply Z.ltb_lt in E|apply Z.ltb_ge in E]; lia.
Qed.

Lemma reflect_index_inside (n i : Z) : 0 ≤ i < n → reflect_index n i = i.
Proof.
  intros Hi. unfold reflect_index.
  destruct (n =? 1) eqn:E1; [lia|]. apply Z.eqb_neq in E1.
  rewrite Z.mod_small by lia.
  destruct (i <? n) eqn:E; [done|]. apply Z.ltb_ge in E. lia.
Qed.

(** Neighbours along a reflected axis of at least two pixels show
    different pixels. *)
Lemma reflect_index_step (n i : Z) :
  2 ≤ n → reflect_index n (i + 1) ≠ reflect_index n i.
Proof.
  intros Hn. unfold reflect_index.
  destruct (n =? 1) eqn:E1; [lia|]. clear E1.
  set (p := 2 * (n - 1)).
  assert (Hp : 0 < p) by (unfold p; lia).
  assert (Hm := Z.mod_pos_bound i p Hp).
  assert (Hi : i = p * (i / p) + i mod p) by (apply Z.div_mod; lia).
  destruct (decide (i mod p + 1 < p)) as [Hlt|Hge].
  - assert (Hs : (i + 1) mod p = i mod p + 1).
    { symmetry. apply (Z.mod_unique_pos _ _ (i / p)); lia. }
    rewrite Hs.
    destruct (i mod p + 1 <? n) eqn:Ea; destruct (i mod p <? n) eqn:Eb;
      try apply Z.ltb_lt in Ea; try apply Z.ltb_ge in Ea;
      try apply Z.ltb_lt in Eb; try apply Z.ltb_ge in Eb; unfold p in *; lia.
  - assert (Hs : (i + 1) mod p = 0).
    { symmetry. apply (Z.mod_unique_pos _ _ (i / p + 1)); lia. }
    rewrite Hs.
    destruct (0 <? n) eqn:Ea; destruct (i mod p <? n) eqn:Eb;
      try apply Z.ltb_lt in Ea; try apply Z.ltb_ge in Ea;
      try apply Z.ltb_lt in Eb; try apply Z.ltb_ge in Eb; unfold p in *; lia.
Qed.

Lemma np_pad_reflect_tabulate (h w pad : nat) (f : Z → Z → bool) :
  (0 < h)%nat → (0 < w)%nat →
  np_pad_reflect (tabulate h w f) pad =
  Ok (tabulate (h + 2 * pad) (w + 2 * pad)
        (λ r c, f (reflect_index (Z.of_nat h) (r - Z.of_nat pad))
                  (reflect_index (Z.of_nat w) (c - Z.of_nat pad)))).
Proof.
  intros Hh Hw. unfold np_pad_reflect.
  rewrite nrows_tabulate, ncols_tabulate by done.
  destruct h as [|h]; [lia|]. destruct w as [|w]; [lia|]. simpl orb. cbn iota.
  f_equal. apply tabulate_ext. intros r c _.
  apply pix_tabulate. split; apply reflect_index_bounds; lia.
Qed.

Lemma Ok_inj {A} (a b : A) : Ok a = Ok b → a = b.
Proof. by intros [= ->]. Qed.

Lemma rmap_ok {A B} (f : A → result B) (g : A → B) (l : list A) :
  (∀ x, x ∈ l → f x = Ok (g x)) → rmap f l = Ok (map g l).
Proof.
  induction l as [|x l IH]; intros Hf; [done|]. simpl.
  rewrite (Hf x) by apply list_elem_of_here. simpl.
  rewrite IH by (intros y Hy; apply Hf; by apply list_elem_of_further). done.
Qed.

(** ** The invalid mask *)

Lemma closed_presence_spec (x_in : ndarray fval) (C H W ind : nat) :
  (0 < H)%nat → (0 < W)%nat →
  np_pad_reflect (any_present x_in C H W ind) 8 =
    Ok (tabulate (H + 2 * 8) (W + 2 * 8)
          (λ r c, mirrored_present x_in C H W ind (r - 8) (c - 8))) ∧
  ∃ gc, closed_presence x_in C H W ind = tabulate H W gc ∧
    ∀ r c, in_bounds H W r c → (gc r c = true ↔ bridged x_in C H W ind r c).
Proof.
  intros HH HW. split.
  { unfold any_present. by rewrite np_pad_reflect_tabulate. }
  unfold closed_presence, binary_closing.
  set (pf := λ r c, mirrored_present x_in C H W ind (r - 8) (c - 8)).
  destruct (binary_dilation_spec (H + 2 * 8) (W + 2 * 8) pf 8 ltac:(lia))
    as (gd & -> & Hgd).
  destruct (binary_erosion_spec (H + 2 * 8) (W + 2 * 8) gd 8 ltac:(lia))
    as (ge & -> & Hge).
  rewrite crop_tabulate. eexists. split; [reflexivity|].
  intros r c [Hr Hc]. cbn beta.
  rewrite Hge by (unfold in_bounds; lia). unfold bridged. split.
  - intros Hall qr qc Hd.
    destruct (Hall (qr + 8) (qc + 8)) as [Hin Hq]; [unfold l1 in *; lia|].
    apply Hgd in Hq as (sr & sc & [Hsr Hsc] & Hds & Hs); [|done].
    exists (sr - 8), (sc - 8). unfold l1 in *. repeat split; try lia. done.
  - intros Hall qr qc Hd.
    assert (Hin : in_bounds (H + 2 * 8) (W + 2 * 8) qr qc)
      by (unfold in_bounds, l1 in *; lia).
    split; [done|]. apply Hgd; [done|].
    destruct (Hall (qr - 8) (qc - 8)) as (sr & sc & Hds & Hsr & Hsc & Hs);
      [unfold l1 in *; lia|].
    exists (sr + 8), (sc + 8). unfold in_bounds, l1 in *.
    repeat split; try lia. unfold pf.
    by replace (sr + 8 - 8) with sr by lia; replace (sc + 8 - 8) with sc by lia.
Qed.

Lemma get_invalid_mask_closed (x_in : ndarray fval) (B C H W : nat) :
  shape x_in = [B; C; H; W] → (0 < B)%nat → (0 < H)%nat → (0 < W)%nat →
  get_invalid_mask x_in =
  Ok (map (λ ind, map (map negb) (closed_presence x_in C H W ind)) (seq 0 B)).
Proof.
  intros Hshape HB HH HW. unfold get_invalid_mask. rewrite Hshape.
  rewrite (rmap_ok _ (closed_presence x_in C H W)).
  - unfold mbind, result_bind, rbind. rewrite map_map.
    destruct B as [|B]; [lia|]. reflexivity.
  - intros ind _.
    destruct (closed_presence_spec x_in C H W ind HH HW) as [-> _].
    unfold closed_presence, mbind, result_bind, rbind. reflexivity.
Qed.

(** A flagged pixel is one that is not bridged. *)
Lemma invalid_at_spec (x_in : ndarray fval) (B C H W ind : nat) (r c : Z)
    (invalid : list (list (list bool))) :
  shape x_in = [B; C; H; W] → (0 < H)%nat → (0 < W)%nat →
  get_invalid_mask x_in = Ok invalid →
  (ind < B)%nat → in_bounds H W r c →
  (invalid_at invalid ind r c = false ↔ bridged x_in C H W ind r c).
Proof.
  intros Hshape HH HW Hok Hind Hin.
  rewrite (get_invalid_mask_closed x_in B C H W) in Hok by (done || lia).
  apply Ok_inj in Hok. subst invalid. unfold invalid_at.
  rewrite nth_tabulate_row, (proj2 (Nat.ltb_lt _ _) Hind).
  destruct (closed_presence_spec x_in C H W ind HH HW) as [_ (gc & -> & Hgc)].
  rewrite negate_tabulate, pix_tabulate by done.
  rewrite negb_false_iff. by apply Hgc.
Qed.

(** When a single pixel of a batch element is missing, every pixel of the
    tile is bridged. *)
Lemma isolated_pixel_bridged (x_in : ndarray fval) (C H W ind : nat)
    (r0 c0 : Z) :
  (2 ≤ H)%nat → (2 ≤ W)%nat →
  (∀ r c, in_bounds H W r c → (r, c) ≠ (r0, c0) →
          present x_in C ind r c = true) →
  ∀ r c, in_bounds H W r c → bridged x_in C H W ind r c.
Proof.
  intros HH HW Hvalid r c [Hr Hc] qr qc Hd.
  assert (Hq : -8 ≤ qr < Z.of_nat H + 8 ∧ -8 ≤ qc < Z.of_nat W + 8)
    by (unfold l1 in Hd; lia).
  assert (Hrefl : ∀ sr sc,
            (reflect_index (Z.of_nat H) sr, reflect_index (Z.of_nat W) sc)
              ≠ (r0, c0) →
            mirrored_present x_in C H W ind sr sc = true).
  { intros sr sc Hne. apply Hvalid; [|done].
    split; apply reflect_index_bounds; lia. }
  destruct (decide ((reflect_index (Z.of_nat H) qr,
                     reflect_index (Z.of_nat W) qc) = (r0, c0))) as [Heq|Hne].
  - injection Heq as Hqr Hqc.
    destruct (decide (qr + 1 < Z.of_nat H + 8)) as [Hlt|Hge].
    + exists (qr + 1), qc. unfold l1. repeat split; try lia.
      apply Hrefl. intros [= Hr1 _].
      apply (reflect_index_step (Z.of_nat H) qr); lia.
    + exists (qr - 1), qc. unfold l1. repeat split; try lia.
      apply Hrefl. intros [= Hr1 _].
      apply (reflect_index_step (Z.of_nat H) (qr - 1)); [lia|].
      replace (qr - 1 + 1) with qr by lia. lia.
  - exists qr, qc. unfold l1. repeat split; try lia. by apply Hrefl.
Qed.

Lemma present_tile_with_missing (h w : nat) (missing : nat → nat → bool)
    (r c : Z) :
  present (tile_with_missing h w missing) 1 0 r c
  = negb (missing (Z.to_nat r) (Z.to_nat c)).
Proof.
  unfold present, tile_with_missing; simpl.
  by destruct (missing (Z.to_nat r) (Z.to_nat c)).
Qed.

(** C3, as amended: the invalid mask of a batch element is the inverse of
    its presence mask (some channel above -1.4) after reflect-padding by 8,
    closing with 8 iterations and cropping.  A pixel is left unflagged
    exactly when every pixel within 8 steps of it has a present pixel within
    8 steps, the reflected margin included.  So a tile with a single
    missing pixel has an all-false mask; a 16 by 16 block of missing pixels
    amid valid ones is bridged entirely; of a 17 by 17 block only the 145
    pixels within 8 steps of its centre are flagged, and of a 32 by 32
    block 880 pixels: the corners of a block are never flagged. *)
Theorem get_invalid_mask_closing (x_in : ndarray fval) (B C H W : nat) :
  shape x_in = [B; C; H; W] → (0 < B)%nat → (0 < H)%nat → (0 < W)%nat →
  ∃ invalid,
    get_invalid_mask x_in = Ok invalid ∧ length invalid = B ∧
    (∀ ind, (ind < B)%nat →
       ∃ padded,
         np_pad_reflect (any_present x_in C H W ind) 8 = Ok padded ∧
         nth ind invalid [] = map (map negb) (crop 8 (binary_closing padded 8))) ∧
    (∀ ind r c, (ind < B)%nat → in_bounds H W r c →
       (invalid_at invalid ind r c = false ↔ bridged x_in C H W ind r c)) ∧
    (∀ ind r0 c0, (ind < B)%nat → (2 ≤ H)%nat → (2 ≤ W)%nat →
       (∀ r c, in_bounds H W r c → (r, c) ≠ (r0, c0) →
               present x_in C ind r c = true) →
       ∀ r c, in_bounds H W r c → invalid_at invalid ind r c = false) ∧
    mask_summary (tile_with_missing 48 48 (in_block 16 16 16 16))
                 [(16, 16); (24, 24)] = Ok ([0%nat], [false; false]) ∧
    mask_summary (tile_with_missing 48 48 (in_block 16 16 17 17))
                 [(16, 16); (16, 32); (32, 16); (32, 32); (24, 24); (16, 24)]
      = Ok ([145%nat], [false; false; false; false; true; true]) ∧
    mask_summary (tile_with_missing 64 64 (in_block 16 16 32 32))
                 [(16, 16); (16, 47); (47, 16); (47, 47); (32, 32)]
      = Ok ([880%nat], [false; false; false; false; true]).
Proof.
  intros Hshape HB HH HW.
  assert (Hok := get_invalid_mask_closed x_in B C H W Hshape HB HH HW).
  eexists. split; [exact Hok|]. split; [by rewrite length_map, length_seq|].
  split; [|split; [|split; [|split; [|split]]]].
  - intros ind Hind.
    destruct (closed_presence_spec x_in C H W ind HH HW) as [Hpad _].
    eexists. split; [exact Hpad|].
    by rewrite nth_tabulate_row, (proj2 (Nat.ltb_lt _ _) Hind).
  - intros ind r c Hind Hin.
    by apply (invalid_at_spec x_in B C H W ind r c _ Hshape HH HW Hok).
  - intros ind r0 c0 Hind H2 W2 Hvalid r c Hin.
    apply (invalid_at_spec x_in B C H W ind r c _ Hshape HH HW Hok Hind Hin).
    by apply (isolated_pixel_bridged x_in C H W ind r0 c0).
  - vm_compute. reflexivity.
  - vm_compute. reflexivity.
  - vm_compute. reflexivity.
Qed.

Lemma get_invalid_mask_closing_witness :
  ∃ invalid,
    get_invalid_mask (tile_with_missing 20 20 (in_block 5 7 1 1)) = Ok invalid ∧
    ∀ r c, in_bounds 20 20 r c → invalid_at invalid 0 r c = false.
Proof.
  destruct (get_invalid_mask_closing
              (tile_with_missing 20 20 (in_block 5 7 1 1)) 1 1 20 20 eq_refl
              ltac:(lia) ltac:(lia) ltac:(lia))
    as (invalid & Hok & _ & _ & _ & Hisolated & _).
  exists invalid. split; [exact Hok|].
  apply (Hisolated 0%nat 5 7); [lia..|].
  intros r c [Hr Hc] Hne. rewrite present_tile_with_missing.
  apply negb_true_iff. unfold in_block.
  destruct (5 <=? Z.to_nat r)%nat eqn:E1; [|done].
  destruct (Z.to_nat r <? 5 + 1)%nat eqn:E2; [|done].
  destruct (7 <=? Z.to_nat c)%nat eqn:E3; [|done].
  destruct (Z.to_nat c <? 7 + 1)%nat eqn:E4; [|done].
  apply Nat.leb_le in E1, E3. apply Nat.ltb_lt in E2, E4.
  exfalso. apply Hne. f_equal; lia.
Defined.

(** C3, as stated, fails: not every block of missing pixels with sides of
    16 or more is flagged throughout. *)
Lemma large_block_not_flagged_throughout :
  ¬ (∀ (h w r0 c0 n : nat) (invalid : list (list (list bool))) (r c : nat),
       (16 ≤ n)%nat → (r0 + n ≤ h)%nat → (c0 + n ≤ w)%nat →
       get_invalid_mask (tile_with_missing h w (in_block r0 c0 n n)) = Ok invalid →
       in_block r0 c0 n n r c = true →
       invalid_at invalid 0 (Z.of_nat r) (Z.of_nat c) = true).
Proof.
  intros Hall.
  let v := eval vm_compute in
             (get_invalid_mask (tile_with_missing 64 64 (in_block 16 16 32 32))) in
  assert (E : get_invalid_mask (tile_with_missing 64 64 (in_block 16 16 32 32)) = v)
    by (vm_compute; reflexivity).
  match type of E with
  | _ = Ok ?m =>
      assert (Hflag := Hall 64%nat 64%nat 16%nat 16%nat 32%nat m 16%nat 16%nat
                         ltac:(lia) ltac:(lia) ltac:(lia) E eq_refl)
  end.
  vm_compute in Hflag. discriminate.
Qed.

(** ** More on the invalid mask *)

Lemma mirrored_present_inside (x_in : ndarray fval) (C H W ind : nat) (r c : Z) :
  in_bounds H W r c →
  mirrored_present x_in C H W ind r c = present x_in C ind r c.
Proof.
  intros [Hr Hc]. unfold mirrored_present.
  by rewrite !reflect_index_inside.
Qed.

Lemma mirrored_present_true (x_in : ndarray fval) (C H W ind : nat) (r c : Z) :
  (0 < H)%nat → (0 < W)%nat →
  mirrored_present x_in C H W ind r c = true →
  ∃ r' c', in_bounds H W r' c' ∧ present x_in C ind r' c' = true.
Proof.
  intros HH HW Hp. eexists _, _. split; [|exact Hp].
  split; apply reflect_index_bounds; lia.
Qed.

(** X1: a pixel with a channel above the threshold is never flagged: the mask
    only ever holds missing pixels. *)
Theorem present_pixel_not_flagged (x_in : ndarray fval) (B C H W ind : nat)
    (r c : Z) (invalid : list (list (list bool))) :
  shape x_in = [B; C; H; W] →
  get_invalid_mask x_in = Ok invalid →
  (ind < B)%nat → in_bounds H W r c →
  present x_in C ind r c = true →
  invalid_at invalid ind r c = false.
Proof.
  intros Hshape Hok Hind Hin Hp.
  assert (HH : (0 < H)%nat) by (destruct Hin; lia).
  assert (HW : (0 < W)%nat) by (destruct Hin; lia).
  apply (invalid_at_spec x_in B C H W ind r c invalid Hshape HH HW Hok Hind Hin).
  intros qr qc Hd. exists r, c. unfold l1 in *. destruct Hin as [Hr Hc].
  repeat split; try lia.
  by rewrite mirrored_present_inside.
Qed.

Lemma present_pixel_not_flagged_witness :
  ∃ invalid,
    get_invalid_mask (tile_with_missing 3 3 (in_block 0 0 3 2)) = Ok invalid ∧
    invalid_at invalid 0 1 2 = false.
Proof.
  eexists. split; [vm_compute; reflexivity|].
  apply (present_pixel_not_flagged
           (tile_with_missing 3 3 (in_block 0 0 3 2)) 1 1 3 3 0 1 2);
    [reflexivity|vm_compute; reflexivity|lia|unfold in_bounds; lia|reflexivity].
Defined.



(** X3: a batch element without any present pixel is flagged everywhere. *)
Theorem all_missing_all_flagged (x_in : ndarray fval) (B C H W ind : nat)
    (invalid : list (list (list bool))) :
  shape x_in = [B; C; H; W] →
  get_invalid_mask x_in = Ok invalid →
  (ind < B)%nat →
  (∀ r c, in_bounds H W r c → present x_in C ind r c = false) →
  ∀ r c, in_bounds H W r c → invalid_at invalid ind r c = true.
Proof.
  intros Hshape Hok Hind Hmiss r c Hin.
  assert (HH : (0 < H)%nat) by (destruct Hin; lia).
  assert (HW : (0 < W)%nat) by (destruct Hin; lia).
  destruct (invalid_at invalid ind r c) eqn:E; [done|]. exfalso.
  apply (invalid_at_spec x_in B C H W ind r c invalid Hshape HH HW Hok Hind Hin)
    in E.
  destruct (E r c) as (sr & sc & _ & _ & _ & Hp); [unfold l1; lia|].
  apply mirrored_present_true in Hp as (r' & c' & Hin' & Hp); [|done..].
  rewrite Hmiss in Hp; done.
Qed.

Lemma all_missing_all_flagged_witness :
  ∃ invalid,
    get_invalid_mask (tile_with_missing 2 3 (λ _ _, true)) = Ok invalid ∧
    ∀ r c, in_bounds 2 3 r c → invalid_at invalid 0 r c = true.
Proof.
  eexists. split; [vm_compute; reflexivity|].
  apply (all_missing_all_flagged
           (tile_with_missing 2 3 (λ _ _, true)) 1 1 2 3 0);
    [reflexivity|vm_compute; reflexivity|lia|].
  intros r c _. by rewrite present_tile_with_missing.
Defined.

Lemma np_pad_reflect_empty (h w pad : nat) (f : Z → Z → bool) :
  h = 0%nat ∨ w = 0%nat → np_pad_reflect (tabulate h w f) pad = Raise ValueError.
Proof.
  intros Hhw. unfold np_pad_reflect. rewrite nrows_tabulate.
  destruct h as [|h]; [done|]. rewrite ncols_tabulate by lia.
  destruct Hhw as [?| ->]; done.
Qed.

Lemma rmap_raise_first {A B} (f : A → result B) (x : A) (l : list A) (e : pyexc) :
  f x = Raise e → rmap f (x :: l) = Raise e.
Proof. intros Hf. simpl. by rewrite Hf. Qed.

Lemma closed_presence_rows (x_in : ndarray fval) (C H W ind : nat) :
  (0 < H)%nat → (0 < W)%nat →
  length (closed_presence x_in C H W ind) = H ∧
  Forall (λ row, length row = W) (closed_presence x_in C H W ind).
Proof.
  intros HH HW.
  destruct (closed_presence_spec x_in C H W ind HH HW) as [_ (gc & -> & _)].
  unfold tabulate. split; [by rewrite length_map, length_seq|].
  apply Forall_forall. intros row Hrow.
  apply list_elem_of_fmap in Hrow as (r & -> & _).
  by rewrite length_map, length_seq.
Qed.

Lemma negated_rows (m : list (list bool)) (H W : nat) :
  length m = H → Forall (λ row, length row = W) m →
  length (map (map negb) m) = H ∧
  Forall (λ row, length row = W) (map (map negb) m).
Proof.
  intros Hlen Hrows. split; [by rewrite length_map|].
  apply Forall_forall. intros row Hrow.
  apply list_elem_of_fmap in Hrow as (row' & -> & Hrow').
  rewrite length_map. rewrite Forall_forall in Hrows. by apply Hrows.
Qed.

Lemma get_invalid_mask_shape (x_in : ndarray fval) (B C H W : nat) :
  shape x_in = [B; C; H; W] → (0 < B)%nat → (0 < H)%nat → (0 < W)%nat →
  ∃ invalid, get_invalid_mask x_in = Ok invalid ∧
    length invalid = B ∧
    Forall (λ m, length m = H ∧ Forall (λ row, length row = W) m) invalid.
Proof.
  intros Hshape HB HH HW.
  eexists. split; [by apply get_invalid_mask_closed|].
  split; [by rewrite length_map, length_seq|].
  apply Forall_forall. intros m Hm.
  apply list_elem_of_fmap in Hm as (ind & -> & _).
  destruct (closed_presence_rows x_in C H W ind HH HW) as [Hlen Hrows].
  revert Hlen Hrows. generalize (closed_presence x_in C H W ind).
  intros cp Hlen Hrows. by apply negated_rows.
Qed.

Lemma get_invalid_mask_empty (x_in : ndarray fval) (B C H W : nat) :
  shape x_in = [B; C; H; W] → B = 0%nat ∨ H = 0%nat ∨ W = 0%nat →
  get_invalid_mask x_in = Raise ValueError.
Proof.
  intros Hshape Hzero. unfold get_invalid_mask. rewrite Hshape.
  destruct B as [|B]; [reflexivity|].
  destruct Hzero as [?|Hzero]; [lia|].
  cbn [seq]. rewrite (rmap_raise_first _ _ _ ValueError); [reflexivity|].
  unfold any_present. rewrite np_pad_reflect_empty by done. reflexivity.
Qed.

Lemma get_invalid_mask_other (x_in : ndarray fval) :
  shape x_in ≠ [] → length (shape x_in) ≠ 4%nat →
  get_invalid_mask x_in = Raise ValueError.
Proof.
  intros Hne Hlen. unfold get_invalid_mask.
  destruct (shape x_in) as [|B [|C [|H [|W [|? ?]]]]];
    [congruence|reflexivity..|exfalso; by apply Hlen|reflexivity].
Qed.

(** X4: [get_invalid_mask] returns for a four-dimensional tensor with a
    non-empty batch and non-empty rows and columns, and then gives one
    mask per batch element, of the spatial shape of the input; an empty
    batch, an empty spatial axis and any other tensor with at least one
    axis raise [ValueError], a tensor without axes [IndexError]. *)
Theorem get_invalid_mask_domain (x_in : ndarray fval) :
  (∀ B C H W, shape x_in = [B; C; H; W] →
     (0 < B)%nat → (0 < H)%nat → (0 < W)%nat →
     ∃ invalid, get_invalid_mask x_in = Ok invalid ∧
       length invalid = B ∧
       Forall (λ m, length m = H ∧ Forall (λ row, length row = W) m) invalid) ∧
  (∀ B C H W, shape x_in = [B; C; H; W] →
     B = 0%nat ∨ H = 0%nat ∨ W = 0%nat →
     get_invalid_mask x_in = Raise ValueError) ∧
  (shape x_in = [] → get_invalid_mask x_in = Raise IndexError) ∧
  (shape x_in ≠ [] → length (shape x_in) ≠ 4%nat →
     get_invalid_mask x_in = Raise ValueError).
Proof.
  split; [|split; [|split]].
  - apply get_invalid_mask_shape.
  - apply get_invalid_mask_empty.
  - intros Hshape. unfold get_invalid_mask. by rewrite Hshape.
  - apply get_invalid_mask_other.
Qed.

Lemma get_invalid_mask_domain_witness :
  get_invalid_mask (tile_with_missing 0 5 (λ _ _, false)) = Raise ValueError.
Proof.
  apply (proj1 (proj2 (get_invalid_mask_domain
                         (tile_with_missing 0 5 (λ _ _, false))))
               1%nat 1%nat 0%nat 5%nat eq_refl).
  right. by left.
Defined.

(** ** More on masking *)

Lemma set_masked_cases (a : ndarray fval) (invalid : list (list (list bool)))
    (ind : nat) (v : fval) :
  (∃ a' n rest, set_masked a invalid ind v = Ok a' ∧ shape a = n :: rest ∧
     shape a' = shape a ∧ (ind < n)%nat ∧
     last_two rest = [nrows (nth ind invalid []); ncols (nth ind invalid [])]) ∨
  set_masked a invalid ind v = Raise IndexError.
Proof.
  unfold set_masked. destruct (shape a) as [|n rest] eqn:Es; [by right|].
  destruct (ind <? n)%nat eqn:E1; [|by right].
  destruct (shape_eqb _ _) eqn:E2; [|by right].
  left. eexists _, n, rest. split; [reflexivity|].
  split; [done|]. split; [done|].
  split; [by apply Nat.ltb_lt|]. by apply bool_decide_eq_true in E2.
Qed.

Lemma mask_loop_cases (invalid : list (list (list bool))) (v : fval) inds :
  ∀ a,
    (∃ a', mask_loop inds invalid v a = Ok a' ∧
       (inds ≠ [] → ∃ n rest, shape a = n :: rest ∧
          Forall (λ ind, (ind < n)%nat ∧
                         last_two rest = [nrows (nth ind invalid []);
                                          ncols (nth ind invalid [])]) inds)) ∨
    mask_loop inds invalid v a = Raise IndexError.
Proof.
  induction inds as [|ind inds IH]; intros a.
  - left. exists a. split; [done|]. done.
  - simpl.
    destruct (set_masked_cases a invalid ind v)
      as [(a1 & n & rest & -> & Hs & Hs1 & Hlt & Hm)| ->]; [|by right].
    simpl. destruct (IH a1) as [(a' & -> & Hall)| ->]; [|by right].
    left. exists a'. split; [done|]. intros _. exists n, rest.
    split; [done|]. constructor; [done|].
    destruct inds as [|i inds]; [constructor|].
    destruct Hall as (n' & rest' & Hs' & Hall); [done|].
    rewrite Hs1, Hs in Hs'. by injection Hs' as <- <-.
Qed.

Lemma mask_invalid_cases (a : ndarray fval)
    (invalid : list (list (list bool))) (v : fval) :
  ((∃ a', mask_invalid a invalid v = Ok a') ↔ invalid = [] ∨ maskable a invalid) ∧
  ((∃ a', mask_invalid a invalid v = Ok a') ∨
   mask_invalid a invalid v = Raise IndexError).
Proof.
  assert (Hcases := mask_loop_cases invalid v (seq 0 (length invalid)) a).
  fold (mask_invalid a invalid v) in Hcases.
  split; [split|].
  - intros [a' Ha']. destruct invalid as [|m invalid]; [by left|]. right.
    destruct Hcases as [(a1 & Ha1 & Hall)|Hr]; [|congruence].
    destruct Hall as (n & rest & Hs & Hall); [done|].
    exists n, rest. split; [done|]. rewrite Forall_forall in Hall. split.
    + destruct (Hall (length invalid)) as [Hlt _]; [|simpl; lia].
      apply elem_of_seq. simpl. lia.
    + apply Forall_forall. intros m' Hm'.
      apply list_elem_of_lookup in Hm' as [i Hi].
      destruct (Hall i) as [_ Hm].
      { apply elem_of_seq. apply lookup_lt_Some in Hi. lia. }
      by rewrite (nth_lookup_Some _ _ _ _ Hi) in Hm.
  - intros [->|Hm]; [by exists a|].
    destruct (mask_invalid_spec a invalid v Hm) as (a' & Ha' & _). by exists a'.
  - destruct Hcases as [(a1 & Ha1 & _)|Hr]; [left; by exists a1|by right].
Qed.

(** X5: masking either succeeds or raises [IndexError]; it succeeds exactly
    when there is no mask at all or the array has at least as many batch
    elements as there are masks and its two trailing axes have the shape of
    every mask. *)
Theorem mask_invalid_domain (a : ndarray fval)
    (invalid : list (list (list bool))) (v : fval) :
  ((∃ a', mask_invalid a invalid v = Ok a') ↔ invalid = [] ∨ maskable a invalid) ∧
  ((∃ a', mask_invalid a invalid v = Ok a') ∨
   mask_invalid a invalid v = Raise IndexError).
Proof. exact (mask_invalid_cases a invalid v). Qed.

Lemma mask_invalid_domain_witness :
  mask_invalid (zeros_f [1; 2; 2]%nat) [[[true]]; [[true]]] NaN = Raise IndexError.
Proof.
  destruct (proj2 (mask_invalid_domain (zeros_f [1; 2; 2]%nat)
                     [[[true]]; [[true]]] NaN)) as [[a' Ha']|Hr]; [|exact Hr].
  by vm_compute in Ha'.
Defined.

(** X6: masking a masked array again changes nothing: the shape and every
    element stay as they are. *)
Theorem mask_invalid_idempotent (a a' : ndarray fval)
    (invalid : list (list (list bool))) (v : fval) :
  mask_invalid a invalid v = Ok a' →
  ∃ a'', mask_invalid a' invalid v = Ok a'' ∧ shape a'' = shape a' ∧
         ∀ idx, elem a'' idx = elem a' idx.
Proof.
  intros Ha'.
  destruct (proj1 (proj1 (mask_invalid_cases a invalid v))) as [->|Hm];
    [by exists a'| |].
  { injection Ha' as <-. exists a. done. }
  destruct (mask_invalid_spec a invalid v Hm) as (a1 & Ha1 & Hs1 & He1).
  assert (a1 = a') as -> by congruence.
  assert (Hm' : maskable a' invalid).
  { destruct Hm as (n & rest & Hs & Hlen & Hall). exists n, rest.
    by rewrite Hs1. }
  destruct (mask_invalid_spec a' invalid v Hm') as (a'' & Ha'' & Hs'' & He'').
  exists a''. split; [done|]. split; [done|].
  intros idx. rewrite He'', He1. by destruct (flagged invalid idx).
Qed.

Lemma mask_invalid_idempotent_witness :
  ∃ a' a'', mask_invalid (zeros_f [1; 1; 1]%nat) [[[true]]] NaN = Ok a' ∧
            mask_invalid a' [[[true]]] NaN = Ok a'' ∧
            elem a'' [0; 0; 0]%nat = NaN.
Proof.
  assert (Hm : maskable (zeros_f [1; 1; 1]%nat) [[[true]]]).
  { exists 1%nat, [1; 1]%nat. split; [done|]. split; [simpl; lia|].
    constructor; [done|constructor]. }
  destruct (mask_invalid_spec (zeros_f [1; 1; 1]%nat) [[[true]]] NaN Hm)
    as (a' & Ha' & _ & He').
  destruct (mask_invalid_idempotent _ a' _ _ Ha') as (a'' & Ha'' & _ & He'').
  exists a', a''. split; [exact Ha'|]. split; [exact Ha''|].
  by rewrite He'', He'.
Defined.

(** ** More on regression targets *)

Lemma str_in_false (target : string) (l : list string) :
  target ∉ l → str_in target l = false.
Proof.
  intros Hnot. unfold str_in. apply not_true_is_false. intros Hex.
  apply existsb_exists in Hex as (x & Hx & Heq).
  apply String.eqb_eq in Heq as <-. apply Hnot. by apply list_elem_of_In.
Qed.

(** X7: for a target that is not scalar, as the profile [tiwc],
    [process_regression_target] appends the masked posterior mean to the
    current row of the means and leaves the confidence intervals and the
    exceedance probabilities as they are; quantiles and probabilities are
    not asked of the model. *)
Theorem process_regression_target_profile `{Predictor}
    (retrieval_settings : RetrievalSettings)
    (y_pred : gmap string (ndarray fval)) (invalid : list (list (list bool)))
    (target : string) (acc : accumulators) (y mean : ndarray fval)
    (rows : list (list (ndarray fval))) (row : list (ndarray fval)) :
  target ∉ SCALAR_TARGETS →
  y_pred !! target = Some y →
  posterior_mean y target = Ok mean →
  maskable mean invalid →
  means acc !! target = Some rows → last rows = Some row →
  ∃ mean',
    process_regression_target retrieval_settings y_pred invalid target acc =
      Ok {| means := <[target := removelast rows ++ [row ++ [mean']]]> (means acc);
            conf_ints := conf_ints acc;
            p_non_zeros := p_non_zeros acc |} ∧
    shape mean' = shape mean ∧
    ∀ idx, elem mean' idx = if flagged invalid idx then NaN else elem mean idx.
Proof.
  intros Htarget Hy Hmean Hm Hacc Hlast.
  destruct (mask_invalid_spec mean invalid NaN Hm) as (mean' & Em & Sm & Pm).
  exists mean'. split; [|done].
  unfold process_regression_target.
  rewrite (str_in_false _ _ Htarget), Hy.
  unfold mbind, result_bind, rbind; cbn beta iota.
  by rewrite Hmean, Em, (append_last_spec _ _ _ _ _ Hacc Hlast).
Qed.

Lemma process_regression_target_profile_witness :
  ∃ mean',
    process_regression_target (H := constant_predictor 1 1 (fq 2 1))
      default_settings {[ "tiwc"%string := zeros_f [1; 1; 1]%nat ]}
      [[[true]]] "tiwc" (open_row "tiwc")
    = Ok {| means := {[ "tiwc"%string := [[mean']] ]};
            conf_ints := {[ "tiwc"%string := [[]] ]};
            p_non_zeros := {[ "tiwc"%string := [[]] ]} |} ∧
    elem mean' [0; 0; 0]%nat = NaN.
Proof.
  destruct (process_regression_target_profile
              (H := constant_predictor 1 1 (fq 2 1))
              default_settings {[ "tiwc"%string := zeros_f [1; 1; 1]%nat ]}
              [[[true]]] "tiwc" (open_row "tiwc")
              (zeros_f [1; 1; 1]%nat)
              (mk_ndarray [1; 1; 1]%nat (λ _, fq 2 1)) [[]] [])
    as (mean' & Hrun & _ & Hm).
  - unfold SCALAR_TARGETS. rewrite !elem_of_cons, elem_of_nil.
    intros [?|[?|?]]; done.
  - reflexivity.
  - reflexivity.
  - exists 1%nat, [1; 1]%nat. split; [done|]. split; [simpl; lia|].
    constructor; [done|constructor].
  - reflexivity.
  - reflexivity.
  - exists mean'. split; [|by rewrite Hm].
    rewrite Hrun. unfold open_row; simpl. by rewrite insert_singleton_eq.
Defined.

(** X8: [process_regression_target] raises [KeyError] when the model output
    has no entry for the target, and also when the means have none; it
    raises [IndexError] when no row was opened for the target. *)
Theorem process_regression_target_errors `{Predictor}
    (retrieval_settings : RetrievalSettings)
    (y_pred : gmap string (ndarray fval)) (invalid : list (list (list bool)))
    (target : string) (acc : accumulators) :
  (y_pred !! target = None →
   process_regression_target retrieval_settings y_pred invalid target acc
   = Raise KeyError) ∧
  (∀ y mean, y_pred !! target = Some y → posterior_mean y target = Ok mean →
     maskable mean invalid →
     (means acc !! target = None →
      process_regression_target retrieval_settings y_pred invalid target acc
      = Raise KeyError) ∧
     (means acc !! target = Some [] →
      process_regression_target retrieval_settings y_pred invalid target acc
      = Raise IndexError)).
Proof.
  split.
  - intros Hy. unfold process_regression_target. by rewrite Hy.
  - intros y mean Hy Hmean Hm.
    destruct (mask_invalid_spec mean invalid NaN Hm) as (mean' & Em & _).
    split; intros Hacc; unfold process_regression_target, append_last;
      rewrite Hy; unfold mbind, result_bind, rbind; cbn beta iota;
      by rewrite Hmean, Em, Hacc.
Qed.

Lemma process_regression_target_errors_witness :
  process_regression_target (H := constant_predictor 1 1 (fq 2 1))
    default_settings ∅ [[[true]]] "tiwp" (open_row "tiwp") = Raise KeyError.
Proof.
  exact (proj1 (process_regression_target_errors
                  (H := constant_predictor 1 1 (fq 2 1))
                  default_settings ∅ [[[true]]] "tiwp" (open_row "tiwp"))
               eq_refl).
Defined.

(** ** More on the class selection *)

Lemma determine_cloud_class_bounds (class_probs : ndarray fval)
    (axis K : nat) (types : ndarray Z) (idx : list nat) :
  shape class_probs !! axis = Some K →
  determine_cloud_class class_probs axis = Ok types →
  in_shape (shape types) idx →
  shape types = delete axis (shape class_probs) ∧
  0 ≤ elem types idx ≤ 255 ∧
  ((K ≤ 256)%nat → elem types idx < Z.of_nat K).
Proof.
  intros HK Hok Hidx.
  assert (HK2 : (2 ≤ K)%nat).
  { unfold determine_cloud_class, index_axis, np_argmax in Hok.
    rewrite HK in Hok. destruct K as [|[|K]]; [done| |lia].
    simpl in Hok. rewrite list_lookup_alter_eq, HK in Hok. done. }
  destruct (determine_cloud_class_elem class_probs axis K HK HK2)
    as (types' & Hok' & Hshape & Helem).
  assert (types' = types) as -> by congruence.
  split; [done|].
  destruct (Helem idx Hidx) as (i & Hi & ->).
  assert (Hlt : (i < K - 1)%nat).
  { destruct (argmax_spec _ _ Hi) as (y & Hy & _).
    apply lookup_lt_Some in Hy. by rewrite class_fibre_length in Hy. }
  unfold wrap8.
  destruct (flt _ _).
  - split.
    + assert (Hb := Z.mod_pos_bound (Z.of_nat i mod 256 + 1) 256). lia.
    + intros HK256. rewrite (Z.mod_small (Z.of_nat i)) by lia.
      rewrite Z.mod_small by lia. lia.
  - split; lia.
Qed.


(** X9: the classes are valid indices: the result has the shape of the input
    without the class axis, every class fits a [uint8], and with at most
    256 channels every class is below the number of channels. *)
Theorem determine_cloud_class_range (class_probs : ndarray fval)
    (axis K : nat) (types : ndarray Z) (idx : list nat) :
  shape class_probs !! axis = Some K →
  determine_cloud_class class_probs axis = Ok types →
  in_shape (shape types) idx →
  shape types = delete axis (shape class_probs) ∧
  0 ≤ elem types idx ≤ 255 ∧
  ((K ≤ 256)%nat → elem types idx < Z.of_nat K).
Proof. apply determine_cloud_class_bounds. Qed.

Lemma determine_cloud_class_range_witness :
  ∃ types,
    determine_cloud_class (vector [fq 2 10; fq 5 10; fq 3 10]) 0 = Ok types ∧
    0 ≤ elem types [] ≤ 255 ∧ elem types [] < 3.
Proof.
  eexists. split; [vm_compute; reflexivity|].
  destruct (determine_cloud_class_range
              (vector [fq 2 10; fq 5 10; fq 3 10]) 0 3
              _ [] eq_refl eq_refl ltac:(unfold in_shape; simpl; constructor)) as (_ & Hr & Hk).
  split; [exact Hr|]. apply Hk. lia.
Defined.

(** X10: [determine_cloud_class] returns exactly for an axis of the array along
    which there are at least two channels; it raises [IndexError] for an
    axis the array does not have and for an axis without channels, and
    [ValueError] for a single channel. *)
Theorem determine_cloud_class_domain (class_probs : ndarray fval) (axis : nat) :
  ((∃ types, determine_cloud_class class_probs axis = Ok types) ↔
   ∃ K, shape class_probs !! axis = Some K ∧ (2 ≤ K)%nat) ∧
  (shape class_probs !! axis = None →
   determine_cloud_class class_probs axis = Raise IndexError) ∧
  (shape class_probs !! axis = Some 0%nat →
   determine_cloud_class class_probs axis = Raise IndexError) ∧
  (shape class_probs !! axis = Some 1%nat →
   determine_cloud_class class_probs axis = Raise ValueError).
Proof.
  assert (H0 : shape class_probs !! axis = Some 0%nat →
               determine_cloud_class class_probs axis = Raise IndexError).
  { intros HK. unfold determine_cloud_class, index_axis. by rewrite HK. }
  assert (H1 : shape class_probs !! axis = Some 1%nat →
               determine_cloud_class class_probs axis = Raise ValueError).
  { intros HK. unfold determine_cloud_class, index_axis, np_argmax.
    rewrite HK. simpl. by rewrite list_lookup_alter_eq, HK. }
  assert (Hn : shape class_probs !! axis = None →
               determine_cloud_class class_probs axis = Raise IndexError).
  { intros HK. unfold determine_cloud_class. by rewrite HK. }
  split; [split|done].
  - intros [types Hok].
    destruct (shape class_probs !! axis) as [[|[|K]]|] eqn:HK.
    + rewrite H0 in Hok; done.
    + rewrite H1 in Hok; done.
    + exists (S (S K)). split; [done|lia].
    + rewrite Hn in Hok; done.
  - intros (K & HK & HK2).
    destruct (determine_cloud_class_elem class_probs axis K HK HK2)
      as (types & Hok & _). by exists types.
Qed.

Lemma determine_cloud_class_domain_witness :
  determine_cloud_class (vector [fq 1 1]) 0 = Raise ValueError.
Proof.
  exact (proj2 (proj2 (proj2 (determine_cloud_class_domain (vector [fq 1 1]) 0)))
               eq_refl).
Defined.

(** X11: the cloud types that [process_input] selects from a model output with
    [K] classes are below [K - 1]: the class probabilities lose their first
    channel before the selection, which takes the first remaining channel
    for the no-cloud class, so the last class is never selected. *)
Theorem cloud_type_below_last_class `{Predictor}
    (y_pred : gmap string (ndarray fval)) (invalid : list (list (list bool)))
    (y : ndarray fval) (B K L h w : nat) :
  y_pred !! "cloud_class"%string = Some y →
  shape y = [B; K; L; h; w] →
  (3 ≤ K ≤ 257)%nat →
  (∀ a axis, shape (softmax a axis) = shape a) →
  (length invalid ≤ B)%nat →
  Forall (λ m, [h; w] = [nrows m; ncols m]) invalid →
  ∃ ct types,
    process_cloud_type y_pred invalid [[]] = Ok [[ct]] ∧
    cloud_type_classes assemble_single [[ct]] = Ok types ∧
    shape types = [B; L; h; w] ∧
    ∀ idx, in_shape [B; L; h; w] idx → 0 ≤ elem types idx < Z.of_nat K - 1.
Proof.
  intros Hy Hshape HK Hsoft Hlen Hmasks.
  set (ct0 := softmax (slice_from y 1 1) 1).
  assert (Hs0 : shape ct0 = [B; (K - 1)%nat; L; h; w]).
  { unfold ct0. rewrite Hsoft. unfold slice_from. simpl. by rewrite Hshape. }
  assert (Hm : maskable ct0 invalid).
  { exists B, [(K - 1)%nat; L; h; w]. done. }
  destruct (mask_invalid_spec ct0 invalid (fq (-1) 1) Hm) as (ct & Hct & Hsct & _).
  assert (HK' : shape ct !! 1%nat = Some (K - 1)%nat) by (by rewrite Hsct, Hs0).
  destruct (determine_cloud_class_elem ct 1 (K - 1) HK' ltac:(lia))
    as (types & Hok & Hst & _).
  exists ct, types. split; [|split; [|split]].
  - unfold process_cloud_type. rewrite Hy.
    unfold mbind, result_bind, rbind; cbn beta iota. fold ct0.
    by rewrite Hct.
  - done.
  - by rewrite Hst, Hsct, Hs0.
  - intros idx Hidx.
    assert (Hidx' : in_shape (shape types) idx) by (by rewrite Hst, Hsct, Hs0).
    destruct (determine_cloud_class_bounds ct 1 (K - 1) types idx HK' Hok Hidx')
      as (_ & Hr & Hb).
    split; [lia|]. specialize (Hb ltac:(lia)). lia.
Qed.

Lemma cloud_type_below_last_class_witness :
  ∃ ct types,
    process_cloud_type (H := constant_predictor 1 1 (fq 0 1))
      {[ "cloud_class"%string := cloud_class_example ]} [[[true]]] [[]]
    = Ok [[ct]] ∧
    cloud_type_classes assemble_single [[ct]] = Ok types ∧
    elem types [0; 0; 0; 0]%nat < 2.
Proof.
  destruct (cloud_type_below_last_class (H := constant_predictor 1 1 (fq 0 1))
              {[ "cloud_class"%string := cloud_class_example ]} [[[true]]]
              cloud_class_example 1%nat 3%nat 1%nat 1%nat 1%nat
              ltac:(apply lookup_singleton_eq) eq_refl ltac:(lia)
              (λ _ _, eq_refl) ltac:(simpl; lia)
              ltac:(constructor; [reflexivity|constructor]))
    as (ct & types & Hct & Hty & _ & Hb).
  exists ct, types. split; [exact Hct|]. split; [exact Hty|].
  apply (Hb [0; 0; 0; 0]%nat). unfold in_shape.
  repeat constructor.
Defined.

(** ** More on the processing log *)

Lemma lookup_row_insert_ne (fs : gmap string database) (path path' name name' : string)
    (rows : gmap string row) (r : row) :
  fs !! path = Some (Files rows) →
  (path', name') ≠ (path, name) →
  lookup_row (<[path := Files (<[name := r]> rows)]> fs) path' name'
  = lookup_row fs path' name'.
Proof.
  intros Hdb Hne. unfold lookup_row.
  destruct (decide (path' = path)) as [->|Hp].
  - rewrite lookup_insert_eq, Hdb.
    rewrite lookup_insert_ne; [done|]. congruence.
  - by rewrite lookup_insert_ne.
Qed.

Lemma lookup_row_connect (fs : gmap string database) (path path' name' : string) :
  lookup_row (connect fs path).1 path' name' = lookup_row fs path' name'.
Proof.
  unfold connect, lookup_row. destruct (fs !! path) as [db|] eqn:E; [done|].
  simpl. destruct (decide (path' = path)) as [->|Hp].
  - by rewrite lookup_insert_eq, E.
  - by rewrite lookup_insert_ne.
Qed.

(** X12: constructing the handler for a database file that does not exist
    creates the file with the table and a pending row for the input file:
    no success, no output file, no statistics, an empty log. *)
Theorem ProcessingLog_init_fresh (path input_file : string) (now : Z)
    (fs : gmap string database) :
  fs !! path = None →
  ∃ self,
    ProcessingLog_init (Some path) input_file now fs =
      (<[path := Files {[ input_file := new_row now ]}]> fs, Ok self) ∧
    pl_database_path self = Some path ∧ pl_input_file self = input_file ∧
    pl_buffer self = ""%string ∧
    success (new_row now) = false ∧ log (new_row now) = [] ∧
    n_missing (new_row now) = -1 ∧ tiwp_mean (new_row now) = NaN.
Proof.
  intros Hnone. eexists. split.
  - unfold ProcessingLog_init, _init_db, _init_entry, connect.
    cbn [pl_database_path pl_input_file]. rewrite Hnone. cbn beta iota zeta.
    rewrite lookup_insert_eq. cbn beta iota zeta.
    rewrite lookup_empty, !insert_insert_eq, insert_empty. reflexivity.
  - done.
Qed.

Lemma ProcessingLog_init_fresh_witness :
  lookup_row (ProcessingLog_init (Some "log.db"%string) "a.nc" 7 ∅).1
             "log.db" "a.nc" = Some (new_row 7).
Proof.
  destruct (ProcessingLog_init_fresh "log.db" "a.nc" 7 ∅ (lookup_empty _))
    as (self & -> & _).
  apply lookup_row_insert.
Defined.

(** X13: constructing the handler for an input file that already has a row
    changes nothing in the database: the row keeps its success flag, its
    statistics and its log.  For a file without a row in an existing table
    a pending row is added and the other rows are kept. *)
Theorem ProcessingLog_init_existing (path input_file : string) (now : Z)
    (fs : gmap string database) (rows : gmap string row) :
  fs !! path = Some (Files rows) →
  (∀ r, rows !! input_file = Some r →
     (ProcessingLog_init (Some path) input_file now fs).1 = fs ∧
     ∃ self, (ProcessingLog_init (Some path) input_file now fs).2 = Ok self) ∧
  (rows !! input_file = None →
     (ProcessingLog_init (Some path) input_file now fs).1
       = <[path := Files (<[input_file := new_row now]> rows)]> fs ∧
     ∃ self, (ProcessingLog_init (Some path) input_file now fs).2 = Ok self).
Proof.
  intros Hdb. split.
  - intros r Hr.
    unfold ProcessingLog_init, _init_entry, connect.
    cbv beta iota zeta delta [pl_database_path pl_input_file].
    rewrite Hdb. cbv beta iota zeta. rewrite Hdb. cbv beta iota zeta.
    rewrite Hr. cbn. eauto.
  - intros Hr.
    unfold ProcessingLog_init, _init_entry, connect.
    cbv beta iota zeta delta [pl_database_path pl_input_file].
    rewrite Hdb. cbv beta iota zeta. rewrite Hdb. cbv beta iota zeta.
    rewrite Hr. cbn. eauto.
Qed.

Lemma ProcessingLog_init_existing_witness :
  let fs : gmap string database :=
    {[ "log.db"%string :=
         Files {[ "a.nc"%string := set_log (new_row 0) [Byte.x41] ]} ]} in
  (ProcessingLog_init (Some "log.db"%string) "a.nc" 9 fs).1 = fs.
Proof.
  intros fs.
  exact (proj1 (proj1 (ProcessingLog_init_existing "log.db" "a.nc" 9 fs
                         {[ "a.nc"%string := set_log (new_row 0) [Byte.x41] ]}
                         (lookup_singleton_eq _ _))
                      _ (lookup_singleton_eq _ _))).
Defined.

Lemma string_app_assoc (s1 s2 s3 : string) :
  (s1 +:+ s2) +:+ s3 = s1 +:+ (s2 +:+ s3).
Proof.
  induction s1 as [|a s1 IH]; [done|].
  change (String a ((s1 +:+ s2) +:+ s3) = String a (s1 +:+ (s2 +:+ s3))).
  by rewrite IH.
Qed.

Lemma string_app_empty_r (s : string) : s +:+ "" = s.
Proof.
  induction s as [|a s IH]; [done|].
  change (String a (s +:+ "") = String a s). by rewrite IH.
Qed.

Lemma list_byte_of_string_app (s1 s2 : string) :
  String.list_byte_of_string (s1 +:+ s2)
  = String.list_byte_of_string s1 ++ String.list_byte_of_string s2.
Proof.
  unfold String.list_byte_of_string.
  induction s1 as [|a s1 IH]; [done|].
  change (Ascii.byte_of_ascii a
            :: map Ascii.byte_of_ascii (String.list_ascii_of_string (s1 +:+ s2))
          = Ascii.byte_of_ascii a
            :: map Ascii.byte_of_ascii (String.list_ascii_of_string s1)
               ++ map Ascii.byte_of_ascii (String.list_ascii_of_string s2)).
  by rewrite IH.
Qed.

Lemma lines_app (l1 l2 : list string) :
  lines (l1 ++ l2) = lines l1 +:+ lines l2.
Proof.
  induction l1 as [|m l1 IH]; [done|].
  cbn [app lines foldr]. fold (lines (l1 ++ l2)). fold (lines l1).
  by rewrite IH, !string_app_assoc.
Qed.

Lemma foldl_emit (msgs : list string) : ∀ self : ProcessingLog,
  pl_database_path (foldl emit self msgs) = pl_database_path self ∧
  pl_input_file (foldl emit self msgs) = pl_input_file self ∧
  pl_attached (foldl emit self msgs) = pl_attached self ∧
  pl_buffer (foldl emit self msgs) = pl_buffer self +:+ lines msgs.
Proof.
  induction msgs as [|m msgs IH]; intros self.
  - cbn [foldl lines foldr]. by rewrite string_app_empty_r.
  - cbn [foldl]. destruct (IH (emit self m)) as (-> & -> & -> & ->).
    cbn [emit pl_database_path pl_input_file pl_attached pl_buffer lines foldr].
    fold (lines msgs). by rewrite !string_app_assoc.
Qed.

Lemma lookup_row_insert_other (fs : gmap string database) (path : string)
    (db : database) (path' name' : string) :
  (path' = path →
   match db with Files rows => rows !! name' | NoTable => None end
   = lookup_row fs path name') →
  lookup_row (<[path := db]> fs) path' name' = lookup_row fs path' name'.
Proof.
  intros Hsame. destruct (decide (path' = path)) as [->|Hne].
  - rewrite <- (Hsame eq_refl). unfold lookup_row. rewrite lookup_insert_eq.
    by destruct db.
  - unfold lookup_row. by rewrite lookup_insert_ne.
Qed.

Lemma set_log_outcome_of `{XArrayOps} (r : row)
    (results : gmap string (list string * ndarray fval)) (out : string)
    (blob : list Byte.byte) :
  set_log (outcome_of r results out) blob = outcome_of (set_log r blob) results out.
Proof. unfold outcome_of. by destruct (results !! "tiwp"%string) as [[? ?]|]. Qed.

Lemma log_outcome_of `{XArrayOps} (r : row)
    (results : gmap string (list string * ndarray fval)) (out : string) :
  log (outcome_of r results out) = log r.
Proof. unfold outcome_of. by destruct (results !! "tiwp"%string) as [[? ?]|]. Qed.

(** X14: what a logging context stores: for an input file that has a row, the
    text logged inside the block, one line per record, is appended to the
    stored blob, whatever the buffer held before and whether the block
    returned or raised; the result of the block is passed on, the handler
    is detached from the logger, and the rest of the row is kept. *)
Theorem log_context_stores_messages {A} (self : ProcessingLog) (path : string)
    (fs : gmap string database) (r : row) (messages : list string)
    (body_result : result A) :
  pl_database_path self = Some path →
  lookup_row fs path (pl_input_file self) = Some r →
  ∃ self' fs',
    log_context self (messages, body_result) fs = (self', fs', body_result) ∧
    pl_attached self' = false ∧
    lookup_row fs' path (pl_input_file self)
    = Some (set_log r (log r ++ String.list_byte_of_string (lines messages))).
Proof.
  intros Hpath Hrow. unfold log_context. cbn [fst snd].
  destruct (foldl_emit messages (start_logging self)) as (Hp & Hi & _ & Hb).
  cbn [start_logging pl_database_path pl_input_file pl_buffer] in Hp, Hi, Hb.
  rewrite <- Hi in Hrow. rewrite <- Hp in Hpath.
  destruct (finish_logging_existing _ path fs r Hpath Hrow) as (rows & Hdb & ->).
  eexists _, _. split; [reflexivity|]. split; [done|].
  rewrite Hb, Hi. cbn [String.append]. apply lookup_row_insert.
Qed.

Lemma log_context_stores_messages_witness :
  let self := {| pl_database_path := Some "log.db"%string;
                 pl_input_file := "a.nc"%string;
                 pl_buffer := "stale"%string; pl_attached := false |} in
  let fs : gmap string database :=
    {[ "log.db"%string := Files {[ "a.nc"%string := new_row 0 ]} ]} in
  ∃ self' fs',
    log_context self (["hi"%string], Raise ValueError (A := unit)) fs
    = (self', fs', Raise ValueError) ∧
    pl_attached self' = false ∧
    lookup_row fs' "log.db" "a.nc"
    = Some (set_log (new_row 0) [Byte.x68; Byte.x69; Byte.x0a]).
Proof.
  intros self fs.
  exact (log_context_stores_messages self "log.db" fs (new_row 0) ["hi"%string]
           (Raise ValueError) eq_refl
           ltac:(unfold lookup_row, fs; rewrite lookup_singleton_eq;
                 apply lookup_singleton_eq)).
Defined.

(** X15: capturing for an input file without a row: [finish_logging] detaches
    the handler and then raises [TypeError], leaving the database as it
    is; when the database file is missing it raises the error of sqlite,
    and [connect] has created an empty file.  Through the logging context
    this exception replaces the result of the block, also when the block
    returned. *)
Theorem finish_logging_errors {A} (self : ProcessingLog) (path : string)
    (fs : gmap string database) (messages : list string)
    (body_result : result A) :
  pl_database_path self = Some path →
  (∀ rows, fs !! path = Some (Files rows) → rows !! pl_input_file self = None →
     finish_logging self fs = (detach self, fs, Raise TypeError) ∧
     (log_context self (messages, body_result) fs).1.2 = fs ∧
     (log_context self (messages, body_result) fs).2 = Raise TypeError) ∧
  (fs !! path = None →
     finish_logging self fs
     = (detach self, <[path := NoTable]> fs, Raise (pyexc_of OperationalError)) ∧
     (log_context self (messages, body_result) fs).2
     = Raise (pyexc_of OperationalError)).
Proof.
  intros Hpath.
  destruct (foldl_emit messages (start_logging self)) as (Hp & Hi & _ & _).
  cbn [start_logging pl_database_path pl_input_file] in Hp, Hi.
  split.
  - intros rows Hdb Hr. split; [|split].
    + unfold finish_logging, connect. by rewrite Hpath, Hdb, Hr.
    + unfold log_context, finish_logging, connect. cbn [fst snd].
      by rewrite Hp, Hi, Hpath, Hdb, Hr.
    + unfold log_context, finish_logging, connect. cbn [fst snd].
      by rewrite Hp, Hi, Hpath, Hdb, Hr.
  - intros Hnone. split.
    + unfold finish_logging, connect. by rewrite Hpath, Hnone.
    + unfold log_context, finish_logging, connect. cbn [fst snd].
      by rewrite Hp, Hpath, Hnone.
Qed.

Lemma finish_logging_errors_witness :
  let self := {| pl_database_path := Some "log.db"%string;
                 pl_input_file := "a.nc"%string;
                 pl_buffer := ""%string; pl_attached := false |} in
  (log_context self (["hi"%string], Ok 1) {[ "log.db"%string := Files ∅ ]}).2
  = Raise TypeError.
Proof.
  intros self.
  exact (proj2 (proj2 (proj1 (finish_logging_errors self "log.db"
                                {[ "log.db"%string := Files ∅ ]}
                                ["hi"%string] (Ok 1) eq_refl)
                         ∅ (lookup_singleton_eq _ _) (lookup_empty _)))).
Defined.

Section more_processing_log.
Context `{XArrayOps}.

(** X16: finalizing for an input file without a row returns normally and
    changes nothing; with the database file missing [finalize] raises the
    error of sqlite after [connect] has created an empty file.  Nothing is
    recorded in either case. *)
Theorem finalize_without_row (self : ProcessingLog) (path : string)
    (fs : gmap string database)
    (results : gmap string (list string * ndarray fval)) (output_file : string) :
  pl_database_path self = Some path →
  (∀ rows, fs !! path = Some (Files rows) → rows !! pl_input_file self = None →
     finalize self results output_file fs = (fs, Ok ())) ∧
  (fs !! path = None →
     finalize self results output_file fs
     = (<[path := NoTable]> fs, Raise (pyexc_of OperationalError)) ∧
     lookup_row (<[path := NoTable]> fs) path (pl_input_file self) = None).
Proof.
  intros Hpath. split.
  - intros rows Hdb Hr. unfold finalize, connect. rewrite Hpath, Hdb.
    destruct (results !! "tiwp"%string) as [[dims tiwp]|]; by rewrite Hr.
  - intros Hnone. split.
    + unfold finalize, connect. rewrite Hpath, Hnone.
      by destruct (results !! "tiwp"%string) as [[dims tiwp]|].
    + unfold lookup_row. by rewrite lookup_insert_eq.
Qed.

(** X17: the operations of a handler touch the row of its own input file only:
    the row of any other input file, and every row of any other database,
    is the same after the construction, after [finish_logging] and after
    [finalize], whether they return or raise. *)
Theorem ProcessingLog_other_rows_untouched (self : ProcessingLog)
    (path : string) (fs : gmap string database) (path' name' : string) :
  pl_database_path self = Some path →
  (path', name') ≠ (path, pl_input_file self) →
  (∀ now, lookup_row (ProcessingLog_init (Some path) (pl_input_file self) now fs).1
                     path' name' = lookup_row fs path' name') ∧
  lookup_row (finish_logging self fs).1.2 path' name' = lookup_row fs path' name' ∧
  (∀ results output_file,
     lookup_row (finalize self results output_file fs).1 path' name'
     = lookup_row fs path' name').
Proof.
  intros Hpath Hne.
  assert (Hname : path' = path → name' ≠ pl_input_file self) by congruence.
  split; [|split].
  - intros now. clear Hne. revert Hname.
    generalize (pl_input_file self). intros name Hname.
    unfold ProcessingLog_init, _init_db, _init_entry, connect.
    cbn [pl_database_path pl_input_file].
    destruct (fs !! path) as [[|rows]|] eqn:Hdb; cbv beta iota zeta.
    + rewrite Hdb. done.
    + rewrite Hdb. cbv beta iota zeta.
      destruct (rows !! name) eqn:Hr; cbv beta iota zeta delta [fst snd];
        [done|].
      apply lookup_row_insert_other. intros ->. unfold lookup_row.
      rewrite Hdb. apply lookup_insert_ne. by intros <-; apply Hname.
    + rewrite lookup_insert_eq. cbv beta iota zeta.
      rewrite lookup_empty. cbv beta iota zeta delta [fst snd].
      rewrite !insert_insert_eq.
      apply lookup_row_insert_other. intros ->. unfold lookup_row.
      rewrite Hdb, insert_empty. apply lookup_singleton_ne.
      by intros <-; apply Hname.
  - unfold finish_logging, connect. rewrite Hpath.
    destruct (fs !! path) as [[|rows]|] eqn:Hdb; cbv beta iota zeta delta [fst snd]; [done| |].
    + destruct (rows !! pl_input_file self) eqn:Hr; cbv beta iota zeta delta [fst snd]; [|done].
      apply lookup_row_insert_other. intros ->. unfold lookup_row.
      rewrite Hdb. apply lookup_insert_ne. by intros <-; apply Hname.
    + apply lookup_row_insert_other. intros ->. unfold lookup_row.
      by rewrite Hdb.
  - intros results output_file. unfold finalize, connect. rewrite Hpath.
    destruct (results !! "tiwp"%string) as [[dims tiwp]|];
      (destruct (fs !! path) as [[|rows]|] eqn:Hdb; cbv beta iota zeta delta [fst snd]; [done| |];
       [destruct (rows !! pl_input_file self) eqn:Hr; cbv beta iota zeta delta [fst snd]; [|done];
        apply lookup_row_insert_other; intros ->; unfold lookup_row;
        rewrite Hdb; apply lookup_insert_ne; by intros <-; apply Hname
       |apply lookup_row_insert_other; intros ->; unfold lookup_row;
        by rewrite Hdb]).
Qed.

(** X18: recording the outcome and storing the captured log commute: the
    database is the same whichever of [finalize] and [finish_logging]
    runs first. *)
Theorem finalize_finish_logging_commute (self : ProcessingLog) (path : string)
    (fs : gmap string database) (r : row)
    (results : gmap string (list string * ndarray fval)) (output_file : string) :
  pl_database_path self = Some path →
  lookup_row fs path (pl_input_file self) = Some r →
  (finalize self results output_file (finish_logging self fs).1.2).1
  = (finish_logging self (finalize self results output_file fs).1).1.2 ∧
  lookup_row (finalize self results output_file (finish_logging self fs).1.2).1
             path (pl_input_file self)
  = Some (outcome_of (set_log r (log r ++ String.list_byte_of_string (pl_buffer self)))
                     results output_file).
Proof.
  intros Hpath Hrow.
  destruct (finish_logging_existing self path fs r Hpath Hrow) as (rows & Hdb & ->).
  destruct (finalize_existing self path fs r results output_file Hpath Hrow)
    as (rows' & Hdb' & ->).
  assert (rows' = rows) as -> by congruence.
  cbn [fst snd].
  destruct (finalize_existing self path _ _ results output_file Hpath
              (lookup_row_insert fs path (pl_input_file self) rows
                 (set_log r (log r ++ String.list_byte_of_string (pl_buffer self)))))
    as (rows1 & Hdb1 & ->).
  destruct (finish_logging_existing self path _ _ Hpath
              (lookup_row_insert fs path (pl_input_file self) rows
                 (outcome_of r results output_file)))
    as (rows2 & Hdb2 & ->).
  rewrite lookup_insert_eq in Hdb1, Hdb2.
  injection Hdb1 as <-. injection Hdb2 as <-.
  cbn [fst snd]. rewrite !insert_insert_eq, log_outcome_of, set_log_outcome_of.
  split; [done|]. apply lookup_row_insert.
Qed.

(** X19: a whole run for a database that does not exist yet: the constructor
    creates the database with a pending row, the logging context stores
    the text logged in the block and [finalize] records the outcome.  In
    the end the database holds one row for the input file, with the
    success flag set, the output file, the statistics and the captured
    text. *)
Theorem ProcessingLog_lifecycle {A} (path input_file : string) (now : Z)
    (fs : gmap string database) (messages : list string)
    (body_result : result A)
    (results : gmap string (list string * ndarray fval)) (output_file : string) :
  fs !! path = None →
  ∃ self fs0 self' fs1,
    ProcessingLog_init (Some path) input_file now fs = (fs0, Ok self) ∧
    log_context self (messages, body_result) fs0 = (self', fs1, body_result) ∧
    finalize self' results output_file fs1 =
      (<[path := Files {[ input_file :=
           outcome_of (set_log (new_row now)
                               (String.list_byte_of_string (lines messages)))
                      results output_file ]}]> fs, Ok ()).
Proof.
  intros Hnone.
  set (self := {| pl_database_path := Some path; pl_input_file := input_file;
                  pl_buffer := ""; pl_attached := false |}).
  assert (Hinit : ProcessingLog_init (Some path) input_file now fs =
                  (<[path := Files {[ input_file := new_row now ]}]> fs, Ok self)).
  { unfold ProcessingLog_init, _init_db, _init_entry, connect.
    cbn [pl_database_path pl_input_file]. rewrite Hnone. cbn beta iota zeta.
    rewrite lookup_insert_eq. cbn beta iota zeta.
    rewrite lookup_empty, !insert_insert_eq, insert_empty. reflexivity. }
  set (fs0 := <[path := Files {[ input_file := new_row now ]}]> fs) in *.
  assert (Hrow0 : lookup_row fs0 path (pl_input_file self) = Some (new_row now)).
  { unfold fs0. rewrite <- insert_empty. apply lookup_row_insert. }
  destruct (foldl_emit messages (start_logging self)) as (Hp & Hi & _ & Hb).
  set (self2 := foldl emit (start_logging self) messages) in *.
  change (pl_database_path self2 = Some path) in Hp.
  change (pl_input_file self2 = input_file) in Hi.
  change (pl_buffer self2 = lines messages) in Hb.
  assert (Hrow2 : lookup_row fs0 path (pl_input_file self2) = Some (new_row now))
    by (by rewrite Hi).
  destruct (finish_logging_existing self2 path fs0 _ Hp Hrow2)
    as (rows & Hdb & Hfin).
  assert (rows = {[ input_file := new_row now ]}) as ->.
  { unfold fs0 in Hdb. rewrite lookup_insert_eq in Hdb. by injection Hdb as <-. }
  rewrite Hi, Hb in Hfin. change (log (new_row now) ++ ?l) with l in Hfin.
  eexists self, fs0, _, _. split; [done|]. split.
  { unfold log_context. cbn [fst snd]. fold self2. rewrite Hfin. reflexivity. }
  assert (Hp' : pl_database_path (detach self2) = Some path) by exact Hp.
  assert (Hrow' : lookup_row
            (<[path := Files (<[input_file :=
                 set_log (new_row now)
                   (String.list_byte_of_string (lines messages))]>
                 {[ input_file := new_row now ]})]> fs0)
            path (pl_input_file (detach self2))
          = Some (set_log (new_row now)
                    (String.list_byte_of_string (lines messages)))).
  { change (pl_input_file (detach self2)) with (pl_input_file self2).
    rewrite Hi. apply lookup_row_insert. }
  destruct (finalize_existing _ path _ _ results output_file Hp' Hrow')
    as (rows1 & Hdb1 & ->).
  rewrite lookup_insert_eq in Hdb1. injection Hdb1 as <-.
  change (pl_input_file (detach self2)) with (pl_input_file self2).
  rewrite Hi. unfold fs0.
  by rewrite !insert_insert_eq, <- !insert_empty, !insert_insert_eq.
Qed.
End more_processing_log.

Lemma finalize_without_row_witness :
  finalize (H := null_xarray)
    {| pl_database_path := Some "log.db"%string; pl_input_file := "a.nc"%string;
       pl_buffer := ""%string; pl_attached := false |}
    ∅ "out.nc" {[ "log.db"%string := Files ∅ ]}
  = ({[ "log.db"%string := Files ∅ ]}, Ok ()).
Proof.
  exact (proj1 (finalize_without_row (H := null_xarray)
                  {| pl_database_path := Some "log.db"%string;
                     pl_input_file := "a.nc"%string;
                     pl_buffer := ""%string; pl_attached := false |}
                  "log.db" {[ "log.db"%string := Files ∅ ]} ∅ "out.nc" eq_refl)
               ∅ (lookup_singleton_eq _ _) (lookup_empty _)).
Defined.

Lemma ProcessingLog_other_rows_untouched_witness :
  let self := {| pl_database_path := Some "log.db"%string;
                 pl_input_file := "a.nc"%string;
                 pl_buffer := "x"%string; pl_attached := true |} in
  let fs : gmap string database :=
    {[ "log.db"%string := Files {[ "a.nc"%string := new_row 0 ]} ]} in
  lookup_row (finish_logging self fs).1.2 "log.db" "b.nc"
  = lookup_row fs "log.db" "b.nc".
Proof.
  intros self fs.
  exact (proj1 (proj2 (ProcessingLog_other_rows_untouched (H := null_xarray)
                         self "log.db" fs "log.db" "b.nc" eq_refl
                         ltac:(discriminate)))).
Defined.

Lemma finalize_finish_logging_commute_witness :
  let self := {| pl_database_path := Some "log.db"%string;
                 pl_input_file := "a.nc"%string;
                 pl_buffer := "x"%string; pl_attached := true |} in
  let fs : gmap string database :=
    {[ "log.db"%string := Files {[ "a.nc"%string := new_row 0 ]} ]} in
  (finalize (H := null_xarray) self ∅ "out.nc" (finish_logging self fs).1.2).1
  = (finish_logging self (finalize (H := null_xarray) self ∅ "out.nc" fs).1).1.2.
Proof.
  intros self fs.
  exact (proj1 (finalize_finish_logging_commute (H := null_xarray)
                  self "log.db" fs (new_row 0) ∅ "out.nc" eq_refl
                  ltac:(unfold lookup_row, fs; rewrite lookup_singleton_eq;
                        apply lookup_singleton_eq))).
Defined.

Lemma ProcessingLog_lifecycle_witness :
  ∃ self fs0 self' fs1,
    ProcessingLog_init (Some "log.db"%string) "a.nc" 7 ∅ = (fs0, Ok self) ∧
    log_context self (["hi"%string], Ok 1) fs0 = (self', fs1, Ok 1) ∧
    finalize (H := null_xarray) self' ∅ "out.nc" fs1 =
      (<["log.db"%string := Files {[ "a.nc"%string :=
           outcome_of (H := null_xarray)
             (set_log (new_row 7) (String.list_byte_of_string (lines ["hi"%string])))
             ∅ "out.nc" ]}]> ∅, Ok ()).
Proof.
  exact (ProcessingLog_lifecycle (H := null_xarray) "log.db" "a.nc" 7 ∅
           ["hi"%string] (Ok 1) ∅ "out.nc" (lookup_empty _)).
Defined.

(** ** More on remote files *)

Section more_remote_file.
Context `{FileCls}.

(** X20: without a pending prefetch, which is the case when no thread pool or
    no working directory was given on creation, [get] with a directory
    from the call or else from the constructor first downloads the file to
    the path below that directory and then opens that same path; when the
    download raises, the exception is passed on and nothing is opened. *)
Theorem RemoteFile_get_downloads_then_opens (filename : string)
    (working_dir arg : option string) (thread_pool : option (result unit))
    (d : string) :
  thread_pool = None ∨ working_dir = None →
  (match arg with Some a => Some a | None => working_dir end) = Some d →
  let self := RemoteFile_init filename working_dir thread_pool in
  let output_path := path_join d filename in
  (file_download filename output_path = Ok () →
     RemoteFile_get self arg
     = ([EvDownload filename output_path; EvOpen output_path],
        file_open output_path)) ∧
  (∀ e, file_download filename output_path = Raise e →
     RemoteFile_get self arg = ([EvDownload filename output_path], Raise e)).
Proof.
  intros Hno Hdir self output_path.
  assert (Htask : rf_prefetch_task self = None).
  { unfold self, RemoteFile_init; simpl.
    destruct Hno as [-> | ->]; [done|]. by destruct thread_pool. }
  unfold RemoteFile_get. rewrite Htask.
  change (rf_working_dir self) with working_dir.
  change (rf_filename self) with filename.
  replace (match arg with None => working_dir | Some a => Some a end)
    with (Some d) by (by destruct arg).
  fold output_path.
  split.
  - by intros ->.
  - by intros e ->.
Qed.

(** X21: with a prefetch scheduled on creation, [get] never downloads: it waits
    for the prefetch and opens the path below the directory of the call,
    or else of the constructor, also when that is not the directory the
    prefetch wrote to; when the prefetch failed, its exception is passed
    on and nothing is opened. *)
Theorem RemoteFile_get_prefetched (filename d : string) (arg : option string)
    (task : result unit) :
  let self := RemoteFile_init filename (Some d) (Some task) in
  let output_path := path_join (default d arg) filename in
  existsb is_download (RemoteFile_get self arg).1 = false ∧
  (task = Ok () →
     RemoteFile_get self arg
     = ([EvPrefetchResult; EvOpen output_path], file_open output_path)) ∧
  (∀ e, task = Raise e → RemoteFile_get self arg = ([EvPrefetchResult], Raise e)).
Proof.
  intros self output_path. unfold output_path, self, RemoteFile_get.
  destruct arg as [a|]; simpl; (split; [by destruct task as [[]|e]|]);
    (split; [by intros ->|by intros e ->]).
Qed.
End more_remote_file.

Lemma RemoteFile_get_downloads_then_opens_witness :
  RemoteFile_get (H := example_file_cls)
    (RemoteFile_init "missing.nc" None (Some (Ok ()))) (Some "tmp"%string)
  = ([EvDownload "missing.nc" "tmp/missing.nc"], Raise (OtherError 404)).
Proof.
  exact (proj2 (RemoteFile_get_downloads_then_opens (H := example_file_cls)
                  "missing.nc" None (Some "tmp"%string) (Some (Ok ())) "tmp"
                  (or_intror eq_refl) eq_refl)
               (OtherError 404) eq_refl).
Defined.

Lemma RemoteFile_get_prefetched_witness :
  RemoteFile_get (H := example_file_cls)
    (RemoteFile_init "a.nc" (Some "tmp"%string) (Some (Ok ())))
    (Some "other"%string)
  = ([EvPrefetchResult; EvOpen "other/a.nc"], Ok "other/a.nc"%string).
Proof.
  exact (proj1 (proj2 (RemoteFile_get_prefetched (H := example_file_cls)
                         "a.nc" "tmp" (Some "other"%string) (Ok ())))
               eq_refl).
Defined.

Section more_get_input_files.
Context `{FileCls} `{InputCls}.

Lemma rmap_length {A B} (f : A → result B) (l : list A) : ∀ l',
  rmap f l = Ok l' → length l' = length l.
Proof.
  induction l as [|x l IH]; intros l' Hl; simpl in Hl.
  - by injection Hl as <-.
  - unfold mbind, result_bind, rbind in Hl.
    destruct (f x) as [y|e]; [|done].
    destruct (rmap f l) as [ys|e] eqn:E; [|done].
    injection Hl as <-. simpl. by rewrite (IH ys).
Qed.

Lemma rmap_Forall {A B} (f : A → result B) (P : B → Prop) (l : list A) :
  (∀ x y, f x = Ok y → P y) → ∀ l', rmap f l = Ok l' → Forall P l'.
Proof.
  intros Hf. induction l as [|x l IH]; intros l' Hl; simpl in Hl.
  - injection Hl as <-. constructor.
  - unfold mbind, result_bind, rbind in Hl.
    destruct (f x) as [y|e] eqn:Ey; [|done].
    destruct (rmap f l) as [ys|e] eqn:E; [|done].
    injection Hl as <-. constructor; eauto.
Qed.

(** X22: without a path, [get_input_files] returns one remote file for each
    available file name, in the order of the names, each with the given
    working directory and with a prefetch pending exactly when both a
    thread pool and a working directory are given; without a working
    directory, [get()] on every returned file raises [ValueError].  An
    exception of the look-up is passed on.  Without an end time, the
    interval is the start time alone. *)
Theorem get_input_files_remote (start_time : Z) (end_time : option Z)
    (thread_pool : bool) (working_dir : option string) :
  (∀ names,
     get_available_files start_time (default start_time end_time) = Ok names →
     ∃ files,
       get_input_files start_time end_time None thread_pool working_dir
       = Ok (map Remote files) ∧
       map rf_filename files = names ∧
       Forall (λ f, rf_working_dir f = working_dir ∧
                    (is_Some (rf_prefetch_task f) ↔
                     thread_pool = true ∧ is_Some working_dir)) files ∧
       (working_dir = None →
        Forall (λ f, RemoteFile_get f None = ([], Raise ValueError)) files)) ∧
  (∀ e,
     get_available_files start_time (default start_time end_time) = Raise e →
     get_input_files start_time end_time None thread_pool working_dir = Raise e) ∧
  (∀ path,
     get_input_files start_time None path thread_pool working_dir
     = get_input_files start_time (Some start_time) path thread_pool working_dir).
Proof.
  split; [|split].
  - intros names Hnames.
    exists (map (λ filename, RemoteFile_new filename working_dir thread_pool) names).
    split; [|split; [|split]].
    + unfold get_input_files.
      replace (match end_time with Some t => t | None => start_time end)
        with (default start_time end_time) by (by destruct end_time).
      rewrite Hnames. unfold mbind, result_bind, rbind. by rewrite map_map.
    + rewrite map_map. simpl. apply map_id.
    + apply List.Forall_map, Forall_true. intros name.
      unfold RemoteFile_new, RemoteFile_init; simpl. split; [done|].
      destruct thread_pool, working_dir as [d|]; simpl; split;
        try (intros [? ?]; done); try (intros [? [? ?]]; done); eauto.
    + intros ->. apply List.Forall_map, Forall_true. intros name.
      unfold RemoteFile_new, RemoteFile_init, RemoteFile_get; simpl.
      by destruct thread_pool.
  - intros e He. unfold get_input_files.
    replace (match end_time with Some t => t | None => start_time end)
      with (default start_time end_time) by (by destruct end_time).
    by rewrite He.
  - done.
Qed.

(** X23: with a path, [get_input_files] returns local files only, one for each
    file name found below the path, and no download is scheduled; when a
    file cannot be opened, the exception is passed on. *)
Theorem get_input_files_local (start_time : Z) (end_time : option Z)
    (path : string) (thread_pool : bool) (working_dir : option string)
    (names : list string) :
  find_files path start_time (default start_time end_time) = Ok names →
  (∀ files,
     get_input_files start_time end_time (Some path) thread_pool working_dir
     = Ok files →
     length files = length names ∧ Forall (λ f, is_remote f = false) files) ∧
  (∀ name rest e, names = name :: rest → file_open name = Raise e →
     get_input_files start_time end_time (Some path) thread_pool working_dir
     = Raise e) ∧
  ((∀ name, name ∈ names → ∃ file, file_open name = Ok file) →
   ∃ files,
     get_input_files start_time end_time (Some path) thread_pool working_dir
     = Ok files).
Proof.
  intros Hnames. unfold get_input_files.
  replace (match end_time with Some t => t | None => start_time end)
    with (default start_time end_time) by (by destruct end_time).
  rewrite Hnames. unfold mbind at 1 3 5, result_bind, rbind.
  split; [|split].
  - intros files Hfiles. split.
    + by apply rmap_length in Hfiles.
    + revert files Hfiles. apply rmap_Forall. intros x y Hy.
      unfold mbind, result_bind, rbind in Hy.
      destruct (file_open x); [|done]. by injection Hy as <-.
  - intros name rest e -> He. simpl. by rewrite He.
  - intros Hopen. clear Hnames.
    induction names as [|name names IH]; [by eexists|].
    destruct (Hopen name) as (file & Hfile); [by left|].
    destruct IH as (files & Hfiles); [intros n Hn; apply Hopen; by right|].
    exists (Local file :: files). simpl. rewrite Hfile.
    unfold mbind, result_bind, rbind in *. by rewrite Hfiles.
Qed.
End more_get_input_files.

Lemma get_input_files_remote_witness :
  ∃ files,
    get_input_files (H := example_file_cls) (H0 := example_input_cls)
      0 None None true None = Ok (map Remote files) ∧
    map rf_filename files = ["a.nc"; "b.nc"]%string ∧
    Forall (λ f, RemoteFile_get (H := example_file_cls) f None
                 = ([], Raise ValueError)) files.
Proof.
  destruct (proj1 (get_input_files_remote (H := example_file_cls)
                     (H0 := example_input_cls) 0 None true None)
              ["a.nc"; "b.nc"]%string eq_refl)
    as (files & Hfiles & Hnames & _ & Hget).
  exists files. split; [exact Hfiles|]. split; [exact Hnames|].
  exact (Hget eq_refl).
Defined.

Lemma get_input_files_local_witness :
  ∃ files,
    get_input_files (H := example_file_cls) (H0 := example_input_cls)
      0 None (Some "data"%string) true (Some "tmp"%string) = Ok files.
Proof.
  apply (proj2 (proj2 (get_input_files_local (H := example_file_cls)
                         (H0 := example_input_cls) 0 None "data" true
                         (Some "tmp"%string) ["a.nc"%string] eq_refl))).
  intros name _. by eexists.
Defined.

(** ** More on the two stages *)

Section more_pipeline.
Context {InputData Date World : Type} `{PipelineOps InputData Date World}.

#[local] Abbreviation state := (pipeline InputData Date World).
#[local] Abbreviation queue := (list (option (InputData * Date))).

Lemma run_inv_started (w : World) (input_data : InputData) (dates : list Date) :
  run_inv (length dates) (run_started w input_data dates).
Proof.
  constructor; simpl.
  - apply List.Forall_map, Forall_true. by eexists.
  - constructor.
  - by left.
  - done.
  - rewrite length_map. lia.
Qed.

Lemma run_inv_step (n : nat) (s s' : state) :
  run_inv n s → step s s' → run_inv n s'.
Proof.
  intros [Hdq Hpq Hd Hp Hc] [Hs|Hs].
  - unfold download_data_step in Hs.
    destruct Hd as [Hd|[[i d] Hd]]; rewrite Hd in Hs, Hc; simpl in Hc.
    + destruct (download_queue s) as [|[[i d]|] rest] eqn:Edq; [done| |].
      * apply Forall_cons in Hdq as [_ Hdq]. simpl in Hc.
        destruct (ensure_data (world s) i d) as [w [[]|e]];
          injection Hs as <-; constructor; simpl;
          rewrite ?app_nil_r, ?length_app; simpl; eauto; lia.
      * apply Forall_cons in Hdq as [[x Hx] _]. done.
    + destruct (_ <? _)%nat; [|done].
      destruct (put_task i d) as [[]|e]; injection Hs as <-;
        constructor; simpl; rewrite ?app_nil_r, ?length_app; simpl; eauto;
        try lia.
      apply Forall_app. split; [done|]. constructor; [by eexists|constructor].
  - unfold process_files_step in Hs. rewrite Hp in Hs.
    destruct (processing_queue s) as [|[[i d]|] rest] eqn:Epq; [done| |].
    + apply Forall_cons in Hpq as [_ Hpq]. simpl in Hc.
      destruct (retrieve (world s) i d) as [w [[]|e]];
        injection Hs as <-; constructor; simpl;
        rewrite ?app_nil_r, ?length_app; simpl; eauto; lia.
    + apply Forall_cons in Hpq as [[x Hx] _]. done.
Qed.

Lemma run_inv_steps (n k : nat) (s s' : state) :
  run_inv n s → steps k s s' → run_inv n s'.
Proof. intros Hinv Hsteps. induction Hsteps; eauto using run_inv_step. Qed.

Lemma run_inv_stuck (n : nat) (s : state) :
  run_inv n s → stuck s →
  dpc s = DGet ∧ ppc s = PGet ∧ download_queue s = [] ∧ processing_queue s = [] ∧
  (length (dlog s) + length (processed s) + length (plog s) = n)%nat.
Proof.
  intros [Hdq Hpq Hd Hp Hc] [Hsd Hsp].
  unfold process_files_step in Hsp. rewrite Hp in Hsp.
  assert (Epq : processing_queue s = []).
  { destruct (processing_queue s) as [|[[i d]|] rest]; [done| |].
    - by destruct (retrieve (world s) i d) as [w [[]|e]].
    - done. }
  unfold download_data_step in Hsd. rewrite Epq in Hsd, Hc.
  destruct Hd as [Hd|[[i d] Hd]]; rewrite Hd in Hsd, Hc; simpl in Hsd, Hc.
  - destruct (download_queue s) as [|[[i d]|] rest] eqn:Edq.
    + repeat split; try done. simpl in Hc. lia.
    + by destruct (ensure_data (world s) i d) as [w [[]|e]].
    + done.
  - by destruct (put_task i d) as [[]|e].
Qed.

(** X24: the run as [run] starts it, without a sentinel on the download queue,
    never comes to an end: in no state that the two stages can reach has
    either of them left its loop.  When neither stage can move, both wait
    in [get] on an empty queue, and every work item has by then been
    processed or logged by one of the stages; some run does reach such a
    state.  So the two [join] calls of [run] do not return. *)
Theorem run_never_terminates (w : World) (input_data : InputData)
    (dates : list Date) :
  let s0 := run_started w input_data dates in
  (∀ k s, steps k s0 s →
     dpc s ≠ DDone ∧ ppc s ≠ PDone ∧ ¬ terminated s ∧
     (stuck s →
        dpc s = DGet ∧ ppc s = PGet ∧
        download_queue s = [] ∧ processing_queue s = [] ∧
        (length (dlog s) + length (processed s) + length (plog s)
         = length dates)%nat)) ∧
  (∃ k s, steps k s0 s ∧ stuck s).
Proof.
  intros s0. split.
  - intros k s Hsteps.
    assert (Hinv : run_inv (length dates) s)
      by (eapply run_inv_steps; [apply run_inv_started|done]).
    assert (Hd : dpc s ≠ DDone).
    { destruct Hinv as [_ _ [Hd|[t Hd]] _ _]; by rewrite Hd. }
    assert (Hp : ppc s ≠ PDone).
    { destruct Hinv as [_ _ _ Hp _]. by rewrite Hp. }
    split; [done|]. split; [done|]. split.
    + by intros [Hdone _].
    + by apply run_inv_stuck.
  - destruct (run_eager_steps (measure s0) s0) as [k Hk].
    exists k, (run_eager (measure s0) s0). split; [done|].
    by apply run_eager_stuck.
Qed.

Lemma order_inv_started (w : World) (q : queue) :
  order_inv (items_of q) (started w q).
Proof.
  constructor; simpl.
  - done.
  - exists []. split; [done|]. constructor.
Qed.

Lemma order_inv_step (items : list (InputData * Date)) (s s' : state) :
  order_inv items s → step s s' → order_inv items s'.
Proof.
  intros [Hd (consumed & Hc & Hp)] [Hs|Hs].
  - unfold download_data_step in Hs.
    destruct (dpc s) as [|[i d]| |] eqn:Edpc; [| | |done].
    + destruct (download_queue s) as [|[[i d]|] rest] eqn:Edq; [done| |].
      * destruct (ensure_data (world s) i d) as [w [[]|e]];
          injection Hs as <-; constructor; simpl; rewrite ?app_nil_r;
          try (exists consumed; by rewrite Hc).
        -- exact Hd.
        -- etransitivity; [|exact Hd].
           apply sublist_app; [done|]. by apply sublist_cons.
      * injection Hs as <-; constructor; simpl; rewrite ?app_nil_r;
          try (exists consumed; by rewrite Hc).
        exact Hd.
    + destruct (_ <? _)%nat; [|done].
      destruct (put_task i d) as [[]|e]; injection Hs as <-;
        constructor; simpl; rewrite ?app_nil_r.
      * rewrite items_of_app, <- app_assoc. exact Hd.
      * exists consumed. by rewrite Hc, app_assoc.
      * etransitivity; [|exact Hd].
        apply sublist_app; [done|]. by apply sublist_cons.
      * exists consumed. by rewrite Hc.
    + destruct (_ <? _)%nat; [|done].
      injection Hs as <-; constructor; simpl.
      * rewrite items_of_app. simpl. rewrite app_nil_r. exact Hd.
      * exists consumed. by rewrite Hc, app_assoc.
  - unfold process_files_step in Hs.
    destruct (ppc s); [|done].
    destruct (processing_queue s) as [|[[i d]|] rest] eqn:Epq; [done| |].
    + destruct (retrieve (world s) i d) as [w [[]|e]];
        injection Hs as <-; constructor; simpl; try exact Hd.
      * exists (consumed ++ [Some (i, d)]). rewrite <- app_assoc. split; [done|].
        rewrite items_of_app. by apply sublist_app.
      * exists (consumed ++ [Some (i, d)]). rewrite <- app_assoc. split; [done|].
        rewrite items_of_app, app_nil_r.
        by apply sublist_inserts_r.
    + injection Hs as <-; constructor; simpl; [exact Hd|].
      exists (consumed ++ [None]). rewrite <- app_assoc. split; [done|].
      rewrite items_of_app, app_nil_r. simpl. by rewrite app_nil_r.
Qed.

Lemma order_inv_steps (items : list (InputData * Date)) (k : nat)
    (s s' : state) :
  order_inv items s → steps k s s' → order_inv items s'.
Proof. intros Hinv Hsteps. induction Hsteps; eauto using order_inv_step. Qed.

(** X25: the stages keep the order of the work items: whatever is on the
    download queue at the start and however the stages are interleaved,
    the items put on the processing queue and the items processed are, in
    this order, among the items of the download queue.  No item is
    forwarded or processed more often than it was enqueued, and none that
    was not enqueued. *)
Theorem pipeline_keeps_order (w : World) (q : queue) (k : nat) (s : state) :
  steps k (started w q) s →
  sublist (items_of (forwarded s)) (items_of q) ∧
  sublist (processed s) (items_of (forwarded s)) ∧
  sublist (processed s) (items_of q).
Proof.
  intros Hsteps.
  destruct (order_inv_steps _ _ _ _ (order_inv_started w q) Hsteps)
    as [Hd (consumed & Hc & Hp)].
  assert (Hf : sublist (items_of (forwarded s)) (items_of q)).
  { etransitivity; [|exact Hd]. by apply sublist_inserts_r. }
  assert (Hpf : sublist (processed s) (items_of (forwarded s))).
  { etransitivity; [exact Hp|]. rewrite Hc, items_of_app.
    by apply sublist_inserts_r. }
  split; [done|]. split; [done|]. by etransitivity.
Qed.

(** X26: a retrieval that fails is skipped.  When evaluating the arguments of
    the log message raises, the retrieval is not run and the world stays
    as it is; when the retrieval raises, its exception is logged.  In both
    cases the item is not recorded as processed and the stage is back at
    its [get] with the rest of the queue; the download stage is not
    touched.  An item whose retrieval returns is recorded as processed and
    nothing is logged. *)
Theorem failed_retrieval_is_skipped (s : state) (i : InputData) (d : Date)
    (rest : queue) :
  ppc s = PGet → processing_queue s = Some (i, d) :: rest →
  ∃ s', process_files_step s = Some s' ∧
    ppc s' = PGet ∧ processing_queue s' = rest ∧
    download_queue s' = download_queue s ∧ dpc s' = dpc s ∧ dlog s' = dlog s ∧
    (∀ e, describe i = Raise e →
       world s' = world s ∧ plog s' = plog s ++ [e] ∧
       processed s' = processed s) ∧
    (∀ w' e, describe i = Ok () → process_day (world s) d i = (w', Raise e) →
       world s' = w' ∧ plog s' = plog s ++ [e] ∧ processed s' = processed s) ∧
    (∀ w', describe i = Ok () → process_day (world s) d i = (w', Ok ()) →
       world s' = w' ∧ plog s' = plog s ∧
       processed s' = processed s ++ [(i, d)]).
Proof.
  intros Hp Hq. unfold process_files_step. rewrite Hp, Hq.
  unfold retrieve.
  destruct (describe i) as [[]|e1] eqn:Edesc.
  - destruct (process_day (world s) d i) as [w [[]|e]] eqn:Eproc;
      eexists; (split; [reflexivity|]); simpl; rewrite ?app_nil_r;
      repeat split; try done; intros; congruence.
  - eexists; split; [reflexivity|]; simpl; rewrite ?app_nil_r.
    repeat split; try done; intros; congruence.
Qed.
End more_pipeline.

Lemma run_never_terminates_witness :
  ∃ k s, steps (H := example_ops) k (run_started [] () [1; 2; 3]%nat) s ∧
         stuck (H := example_ops) s.
Proof.
  exact (proj2 (run_never_terminates (H := example_ops) [] () [1; 2; 3]%nat)).
Defined.

Lemma pipeline_keeps_order_witness :
  let s := run_eager (H := example_ops) 20
             (started [] (map Some example_items ++ [None])) in
  sublist (processed s) (items_of (map Some example_items ++ [None])).
Proof.
  intros s.
  destruct (run_eager_steps (H := example_ops) 20
              (started [] (map Some example_items ++ [None]))) as [k Hk].
  exact (proj2 (proj2 (pipeline_keeps_order (H := example_ops) _ _ k s Hk))).
Defined.

Lemma failed_retrieval_is_skipped_witness :
  ∃ s', process_files_step (H := example_ops)
          {| world := []; download_queue := [];
             processing_queue := [Some ((), 2%nat); None];
             forwarded := [Some ((), 2%nat); None];
             dpc := DDone; ppc := PGet; dlog := []; plog := [];
             processed := [] |} = Some s' ∧
        plog s' = [ValueError] ∧ processed s' = [] ∧
        processing_queue s' = [None].
Proof.
  destruct (failed_retrieval_is_skipped (H := example_ops)
              {| world := []; download_queue := [];
                 processing_queue := [Some ((), 2%nat); None];
                 forwarded := [Some ((), 2%nat); None];
                 dpc := DDone; ppc := PGet; dlog := []; plog := [];
                 processed := [] |} () 2%nat [None] eq_refl eq_refl)
    as (s' & Hs' & _ & Hq & _ & _ & _ & _ & Hfail & _).
  destruct (Hfail [] ValueError eq_refl eq_refl) as (_ & Hlog & Hdone).
  exists s'. done.
Defined.

(** ** The dates of a run *)

Lemma run_dates_default (start : Z) (n_days : nat) :
  run_dates start n_days []
  = map (λ k, start + 86400 * (Z.of_nat k + 1)) (seq 0 n_days).
Proof.
  unfold run_dates, run_days. simpl. rewrite map_map.
  rewrite <- (fmap_S_seq 0 n_days). change (S <$> ?l) with (map S l).
  rewrite map_map. apply map_ext. intros k. lia.
Qed.

(** X27: the day numbers are taken as offsets from the first of the month: the
    date for day [d] is [d] days after the first instant of the month,
    which is the day of the month [d + 1].  Without day numbers the dates
    are as many as the month has days, from the second of the month to
    the first of the following one, and the first of the month is not
    among them. *)
Theorem run_dates_offsets (start : Z) (n_days : nat) (days : list Z) :
  (days ≠ [] →
   run_dates start n_days days = map (λ d, start + 86400 * d) days) ∧
  length (run_dates start n_days []) = n_days ∧
  (∀ date, date ∈ run_dates start n_days [] ↔
           ∃ d, 1 ≤ d ≤ Z.of_nat n_days ∧ date = start + 86400 * d) ∧
  start ∉ run_dates start n_days [].
Proof.
  assert (Hin : ∀ date, date ∈ run_dates start n_days [] ↔
            ∃ d, 1 ≤ d ≤ Z.of_nat n_days ∧ date = start + 86400 * d).
  { intros date. rewrite run_dates_default. split.
    - intros Hd. apply list_elem_of_fmap in Hd as (k & -> & Hk).
      apply elem_of_seq in Hk. exists (Z.of_nat k + 1). lia.
    - intros (d & Hd & ->). apply list_elem_of_fmap.
      exists (Z.to_nat (d - 1)). split; [f_equal; lia|].
      apply elem_of_seq. lia. }
  split; [|split; [|split]].
  - intros Hne. unfold run_dates, run_days. by destruct days.
  - by rewrite run_dates_default, length_map, length_seq.
  - exact Hin.
  - intros Hs. apply Hin in Hs as (d & Hd & Heq). lia.
Qed.

Lemma run_dates_offsets_witness :
  run_dates 0 31 [1] = [86400].
Proof.
  exact (proj1 (run_dates_offsets 0 31 [1]) ltac:(discriminate)).
Defined.

(** ** Output file names *)

Lemma string_length_app (s1 s2 : string) :
  String.length (s1 +:+ s2) = (String.length s1 + String.length s2)%nat.
Proof.
  induction s1 as [|a s1 IH]; [done|].
  change (S (String.length (s1 +:+ s2))
          = S (String.length s1 + String.length s2)). by rewrite IH.
Qed.

Lemma string_app_inj_length (a b x y : string) :
  String.length a = String.length b → a +:+ x = b +:+ y → a = b ∧ x = y.
Proof.
  revert b. induction a as [|c a IH]; intros [|c' b] Hlen Heq; try done.
  injection Hlen as Hlen.
  change (String c (a +:+ x) = String c' (b +:+ y)) in Heq.
  injection Heq as -> Heq. destruct (IH b Hlen Heq) as [-> ->]. done.
Qed.

Lemma zfill_length (width : nat) : ∀ n, String.length (zfill width n) = width.
Proof.
  induction width as [|width IH]; intros n; [done|].
  cbn [zfill]. rewrite string_length_app, IH. simpl. lia.
Qed.

Lemma digit_inj (n m : Z) : digit n = digit m → n mod 10 = m mod 10.
Proof.
  unfold digit. intros Heq.
  assert (Hn := Z.mod_pos_bound n 10 ltac:(lia)).
  assert (Hm := Z.mod_pos_bound m 10 ltac:(lia)).
  apply (f_equal Ascii.nat_of_ascii) in Heq.
  rewrite !Ascii.nat_ascii_embedding in Heq by lia. lia.
Qed.

Lemma zfill_inj (width : nat) : ∀ n m,
  0 ≤ n < 10 ^ Z.of_nat width → 0 ≤ m < 10 ^ Z.of_nat width →
  zfill width n = zfill width m → n = m.
Proof.
  induction width as [|width IH]; intros n m Hn Hm Heq.
  - simpl in Hn, Hm. lia.
  - cbn [zfill] in Heq.
    apply string_app_inj_length in Heq as [Hhi Hlo];
      [|by rewrite !zfill_length].
    injection Hlo as Hlo. apply digit_inj in Hlo.
    rewrite Nat2Z.inj_succ, Z.pow_succ_r in Hn, Hm by lia.
    assert (n / 10 = m / 10).
    { apply IH; [| |done].
      - split; [apply Z.div_pos; lia|apply Z.div_lt_upper_bound; lia].
      - split; [apply Z.div_pos; lia|apply Z.div_lt_upper_bound; lia]. }
    rewrite (Z.div_mod n 10), (Z.div_mod m 10) by lia. congruence.
Qed.

Lemma strftime_YmdHM_inj (t1 t2 : datetime) :
  valid_datetime t1 → valid_datetime t2 →
  strftime_YmdHM t1 = strftime_YmdHM t2 →
  dt_year t1 = dt_year t2 ∧ dt_month t1 = dt_month t2 ∧ dt_day t1 = dt_day t2 ∧
  dt_hour t1 = dt_hour t2 ∧ dt_minute t1 = dt_minute t2.
Proof.
  intros (Hy1 & Hm1 & Hd1 & Hh1 & Hn1 & _) (Hy2 & Hm2 & Hd2 & Hh2 & Hn2 & _).
  unfold strftime_YmdHM. intros Heq. rewrite ?string_app_assoc in Heq.
  apply string_app_inj_length in Heq as [Hy Heq]; [|by rewrite !zfill_length].
  apply string_app_inj_length in Heq as [Hm Heq]; [|by rewrite !zfill_length].
  apply string_app_inj_length in Heq as [Hd Heq]; [|by rewrite !zfill_length].
  apply string_app_inj_length in Heq as [Hh Hn]; [|by rewrite !zfill_length].
  apply zfill_inj in Hy, Hm, Hd, Hh, Hn; simpl; lia.
Qed.

Lemma strftime_YmdHM_length (t : datetime) :
  String.length (strftime_YmdHM t) = 12%nat.
Proof.
  unfold strftime_YmdHM. by rewrite !string_length_app, !zfill_length.
Qed.

(** X28: the name of the output file tells the class of the input file, the
    time stamp to the minute and the output format: two calls that return
    the same name were made for the same class, the same year, month, day,
    hour and minute and the same format.  The seconds are not part of the
    name, so two time stamps within one minute give the same name.  For an
    input file that is neither a [CPCIR] nor a [GridSat] file the call
    raises [ValueError]. *)
Theorem get_output_filename_injective (input_file1 input_file2 : input_class)
    (t1 t2 : datetime) (settings1 settings2 : RetrievalSettings)
    (name : string) :
  valid_datetime t1 → valid_datetime t2 →
  (get_output_filename input_file1 t1 settings1 = Ok name →
   get_output_filename input_file2 t2 settings2 = Ok name →
   input_file1 = input_file2 ∧
   dt_year t1 = dt_year t2 ∧ dt_month t1 = dt_month t2 ∧ dt_day t1 = dt_day t2 ∧
   dt_hour t1 = dt_hour t2 ∧ dt_minute t1 = dt_minute t2 ∧
   output_format settings1 = output_format settings2) ∧
  (input_file1 = input_file2 →
   dt_year t1 = dt_year t2 → dt_month t1 = dt_month t2 → dt_day t1 = dt_day t2 →
   dt_hour t1 = dt_hour t2 → dt_minute t1 = dt_minute t2 →
   output_format settings1 = output_format settings2 →
   get_output_filename input_file1 t1 settings1
   = get_output_filename input_file2 t2 settings2) ∧
  get_output_filename OtherInput t1 settings1 = Raise ValueError.
Proof.
  intros Hv1 Hv2. split; [|split].
  - unfold get_output_filename. intros H1 H2.
    assert (Hlen := strftime_YmdHM_length t1).
    assert (Hlen' := strftime_YmdHM_length t2).
    revert H1 H2.
    generalize (strftime_YmdHM_inj t1 t2 Hv1 Hv2).
    generalize dependent (strftime_YmdHM t1).
    generalize dependent (strftime_YmdHM t2).
    intros s2 Hlen2 s1 Hlen1 Hinj H1 H2.
    destruct input_file1, input_file2; try done;
      apply Ok_inj in H1; apply Ok_inj in H2; rewrite <- H2 in H1; clear H2;
      (apply string_app_inj_length in H1 as [_ H1]; [|reflexivity]);
      try discriminate H1;
      (apply string_app_inj_length in H1 as [_ H1]; [|reflexivity]);
      (apply string_app_inj_length in H1 as [_ H1]; [|reflexivity]);
      (apply string_app_inj_length in H1 as [Hs H1]; [|congruence]);
      (apply string_app_inj_length in H1 as [_ H1]; [|reflexivity]);
      destruct (Hinj Hs) as (? & ? & ? & ? & ?);
      destruct (output_format settings1), (output_format settings2);
      try discriminate H1; done.
  - intros -> Hy Hm Hd Hh Hn Hf. unfold get_output_filename, strftime_YmdHM.
    by rewrite Hy, Hm, Hd, Hh, Hn, Hf.
  - done.
Qed.

Lemma get_output_filename_injective_witness :
  get_output_filename CPCIR example_datetime default_settings
  = Ok "ccic_cpcir_202001020304.nc"%string ∧
  get_output_filename CPCIR
    {| dt_year := 2020; dt_month := 1; dt_day := 2; dt_hour := 3;
       dt_minute := 4; dt_second := 59 |} default_settings
  = get_output_filename CPCIR example_datetime default_settings.
Proof.
  split; [reflexivity|].
  apply (get_output_filename_injective CPCIR CPCIR _ example_datetime
           default_settings default_settings ""%string);
    try reflexivity; unfold valid_datetime; simpl; lia.
Defined.

(** ** Output encodings *)

Lemma select_encodings_lookup (all_encodings : gmap string encoding)
    (variable_names : list string) (name : string) :
  select_encodings all_encodings variable_names !! name
  = if decide (name ∈ variable_names) then all_encodings !! name else None.
Proof.
  unfold select_encodings.
  assert (Hgen : ∀ acc : gmap string encoding,
            foldl (λ acc name,
                     match all_encodings !! name with
                     | Some enc => <[name := enc]> acc
                     | None => acc
                     end) acc variable_names !! name
            = if decide (name ∈ variable_names) then
                match all_encodings !! name with
                | Some enc => Some enc
                | None => acc !! name
                end
              else acc !! name).
  { induction variable_names as [|x l IH]; intros acc; [done|].
    cbn [foldl]. rewrite IH.
    destruct (decide (name = x)) as [->|Hne].
    - rewrite (decide_True (P := x ∈ x :: l)) by (by left).
      destruct (all_encodings !! x) as [enc|] eqn:E.
      + rewrite lookup_insert_eq. by destruct (decide (x ∈ l)).
      + by destruct (decide (x ∈ l)).
    - assert (Hacc : match all_encodings !! x with
                     | Some enc => <[x := enc]> acc
                     | None => acc
                     end !! name = acc !! name).
      { destruct (all_encodings !! x); [by rewrite lookup_insert_ne|done]. }
      rewrite Hacc.
      destruct (decide (name ∈ l)) as [Hin|Hnin].
      + by rewrite decide_True by (by right).
      + rewrite decide_False; [done|]. intros Hin.
        apply elem_of_cons in Hin as [?|?]; done. }
  rewrite Hgen, lookup_empty.
  destruct (decide (name ∈ variable_names)); [|done].
  by destruct (all_encodings !! name).
Qed.

(** X29: the encodings that [get_encodings] returns are those of the requested
    variables that have one: a name that is not requested has no entry,
    names without an encoding are left out without an error, and neither
    the order nor the repetition of the names matters.  Both formats
    encode the same variables, and only entries of the [ZARR] format have
    a compressor and only those of the [NETCDF] format the [zlib] flag. *)
Theorem get_encodings_selects (variable_names : list string)
    (retrieval_settings : RetrievalSettings) (name : string) :
  (name ∉ variable_names →
   get_encodings variable_names retrieval_settings !! name = None) ∧
  (name ∈ variable_names →
   get_encodings variable_names retrieval_settings !! name
   = get_encodings [name] retrieval_settings !! name) ∧
  (∀ variable_names',
     (∀ x, x ∈ variable_names ↔ x ∈ variable_names') →
     get_encodings variable_names' retrieval_settings
     = get_encodings variable_names retrieval_settings) ∧
  (∀ settings',
     is_Some (get_encodings variable_names retrieval_settings !! name) ↔
     is_Some (get_encodings variable_names settings' !! name)) ∧
  (∀ enc, get_encodings variable_names retrieval_settings !! name = Some enc →
     (is_Some (enc_compressor enc) ↔ output_format retrieval_settings = ZARR) ∧
     (enc_zlib enc = Some true ↔ output_format retrieval_settings = NETCDF)).
Proof.
  assert (Hone : ∀ (all : gmap string encoding) x,
            select_encodings all [x] !! x = all !! x).
  { intros all x. rewrite select_encodings_lookup.
    by rewrite decide_True by (by left). }
  unfold get_encodings, get_encodings_zarr, get_encodings_netcdf.
  cbv zeta.
  split; [|split; [|split; [|split]]].
  - intros Hnin.
    destruct (output_format retrieval_settings);
      rewrite select_encodings_lookup; by rewrite decide_False.
  - intros Hin.
    destruct (output_format retrieval_settings);
      rewrite Hone, select_encodings_lookup; by rewrite decide_True.
  - intros names' Hsame.
    destruct (output_format retrieval_settings); apply map_eq; intros k;
      rewrite !select_encodings_lookup;
      destruct (decide (k ∈ names')) as [Hk'|Hk'],
               (decide (k ∈ variable_names)) as [Hk|Hk];
      try done; first [by apply Hsame in Hk'|by apply Hsame in Hk].
  - intros settings'.
    destruct (output_format retrieval_settings), (output_format settings');
      rewrite !select_encodings_lookup;
      destruct (decide (name ∈ variable_names)); try done;
      rewrite <- !elem_of_dom;
      match goal with
      | |- name ∈ dom ?m1 ↔ name ∈ dom ?m2 =>
          assert (Hdom : dom m1 = dom m2)
            by (apply (bool_decide_unpack _); vm_compute; exact I);
          by rewrite Hdom
      end.
  - intros enc.
    destruct (output_format retrieval_settings);
      rewrite select_encodings_lookup;
      (destruct (decide (name ∈ variable_names)); [|done]);
      intros Henc; apply elem_of_list_to_map_2 in Henc;
      repeat (apply elem_of_cons in Henc as [Henc|Henc];
              [injection Henc as _ ->; simpl;
               split; split; try done; by intros [? ?]|]);
      by apply elem_of_nil in Henc.
Qed.

Lemma get_encodings_selects_witness :
  get_encodings ["tiwp"; "altitude"; "tiwp"]%string default_settings
  = get_encodings ["altitude"; "tiwp"]%string default_settings.
Proof.
  apply (proj1 (proj2 (proj2 (get_encodings_selects
                                ["altitude"; "tiwp"]%string default_settings
                                ""%string)))).
  intros x. rewrite !elem_of_cons. tauto.
Defined.
